(** * LPGNN: the privacy-preserving transform pipeline and the error estimator

    A shallow embedding of [transforms.py] (FeatureTransform,
    FeaturePerturbation, LabelPerturbation, RandomizedProjection,
    OneHotDegree, NodeSplit, Normalize), of [error.py] (ErrorEstimation) and
    of the loop of [trainer.py], with the properties of the specification
    proved about it.

    Conventions.
    - Tensor entries are exact rationals extended with the IEEE-754 special
      values ([PInf], [NInf], [NaN]); finite arithmetic is exact (no rounding,
      no overflow, one zero), division by zero and the operations on special
      values follow IEEE-754.
    - Where rounding decides the result, numbers are IEEE-754 binary
      numbers rounded to nearest even ([SpecFloat] of the Standard Library):
      the ratios of [NodeSplit] are Python floats (binary64), the entries that
      [Normalize] rescales are the default tensors of torch (binary32).
    - Tensors that the Python code shares between attributes of the dataset
      object live in a store and are referred to by location, so that aliasing
      ([data.x_raw = data.x]) and copying ([data.y.clone()]) differ.
    - Randomness ([torch.rand], [torch.randperm], the privacy mechanisms) is a
      generator state threaded through the calls.
    - Operations of torch that raise an exception return [None]. *)

From Stdlib Require Import ZArith QArith Qcanon Qround List Bool Lia Lqa Permutation String.
From Stdlib Require Import SpecFloat.
From stdpp Require Import base option numbers list gmap.

(** ** Tensor entries *)

Inductive tval : Type :=
| Fin (q : Qc)
| PInf
| NInf
| NaN.

Global Instance tval_eq_dec : EqDecision tval.
Proof. solve_decision. Defined.

Definition tzero : tval := Fin (Q2Qc 0).
Definition tone : tval := Fin (Q2Qc 1).

Definition Qc_is_zero (q : Qc) : bool :=
  match Qccompare q (Q2Qc 0) with Eq => true | _ => false end.

Definition Qc_is_pos (q : Qc) : bool :=
  match Qccompare q (Q2Qc 0) with Gt => true | _ => false end.

Definition Qc_leb (a b : Qc) : bool :=
  match Qccompare a b with Gt => false | _ => true end.

Definition Qc_ltb (a b : Qc) : bool :=
  match Qccompare a b with Lt => true | _ => false end.

Definition tneg (a : tval) : tval :=
  match a with
  | Fin q => Fin (Qcopp q)
  | PInf => NInf
  | NInf => PInf
  | NaN => NaN
  end.

Definition tadd (a b : tval) : tval :=
  match a, b with
  | NaN, _ | _, NaN => NaN
  | Fin x, Fin y => Fin (Qcplus x y)
  | PInf, NInf | NInf, PInf => NaN
  | PInf, _ | _, PInf => PInf
  | NInf, _ | _, NInf => NInf
  end.

Definition tsub (a b : tval) : tval := tadd a (tneg b).

(** Sign of an infinite product or quotient: [pos] tells whether the
    infinite operand is positive, [q] is the finite operand. *)
Definition inf_times (pos : bool) (q : Qc) : tval :=
  if Qc_is_zero q then NaN
  else if Bool.eqb pos (Qc_is_pos q) then PInf else NInf.

Definition tmul (a b : tval) : tval :=
  match a, b with
  | NaN, _ | _, NaN => NaN
  | Fin x, Fin y => Fin (Qcmult x y)
  | PInf, Fin y | Fin y, PInf => inf_times true y
  | NInf, Fin y | Fin y, NInf => inf_times false y
  | PInf, PInf | NInf, NInf => PInf
  | PInf, NInf | NInf, PInf => NInf
  end.

(** [a / b]. A finite nonzero value divided by zero is an infinity, zero
    divided by zero is [NaN]; nothing is raised (torch tensors). *)
Definition tdiv (a b : tval) : tval :=
  match a, b with
  | NaN, _ | _, NaN => NaN
  | Fin x, Fin y =>
      if Qc_is_zero y then
        (if Qc_is_zero x then NaN else if Qc_is_pos x then PInf else NInf)
      else Fin (Qcdiv x y)
  | Fin _, (PInf | NInf) => tzero
  | PInf, Fin y => if Qc_is_zero y || Qc_is_pos y then PInf else NInf
  | NInf, Fin y => if Qc_is_zero y || Qc_is_pos y then NInf else PInf
  | (PInf | NInf), (PInf | NInf) => NaN
  end.

Definition tabs (a : tval) : tval :=
  match a with
  | Fin q => if Qc_is_pos q then Fin q else Fin (Qcopp q)
  | PInf | NInf => PInf
  | NaN => NaN
  end.

(** Comparisons; every comparison with [NaN] is false. *)
Definition tltb (a b : tval) : bool :=
  match a, b with
  | NaN, _ | _, NaN => false
  | Fin x, Fin y => Qc_ltb x y
  | NInf, (Fin _ | PInf) => true
  | Fin _, PInf => true
  | _, _ => false
  end.

Definition teqb (a b : tval) : bool :=
  match a, b with
  | Fin x, Fin y => match Qccompare x y with Eq => true | _ => false end
  | PInf, PInf | NInf, NInf => true
  | _, _ => false
  end.

(** [torch.min] and [torch.max] of two entries; [NaN] propagates. *)
Definition tmin (a b : tval) : tval :=
  match a, b with
  | NaN, _ | _, NaN => NaN
  | _, _ => if tltb b a then b else a
  end.

Definition tmax (a b : tval) : tval :=
  match a, b with
  | NaN, _ | _, NaN => NaN
  | _, _ => if tltb a b then b else a
  end.

Definition is_fin (a : tval) : Prop := ∃ q, a = Fin q.

Definition Qc_of_nat (n : nat) : Qc := Q2Qc (inject_Z (Z.of_nat n)).

(** ** IEEE-754 binary numbers

    A number is a [spec_float]: a signed zero, a signed infinity, [NaN] or
    [(-1)^s * m * 2^e]. The operations round to nearest, ties to even. *)

(** Python's [float]. *)
Module F64.
Definition prec : Z := 53.
Definition emax : Z := 1024.
Definition add : spec_float → spec_float → spec_float := SFadd prec emax.
Definition sub : spec_float → spec_float → spec_float := SFsub prec emax.
Definition mul : spec_float → spec_float → spec_float := SFmul prec emax.
(** The number [m * 2^e], rounded. *)
Definition make (m e : Z) : spec_float := binary_normalize prec emax m e false.
(** The conversion of a Python [int] (one that is not too large for a
    float). *)
Definition of_Z (z : Z) : spec_float := make z 0.
Definition zero : spec_float := S754_zero false.
Definition one : spec_float := of_Z 1.
End F64.

(** Python's [int(x)]: the number truncated towards zero; an infinity raises
    [OverflowError] and [NaN] raises [ValueError]. *)
Definition trunc (x : spec_float) : option Z :=
  match x with
  | S754_zero _ => Some 0%Z
  | S754_finite s m e =>
      Some (cond_Zopp s (if (0 <=? e)%Z then Z.pos m * 2 ^ e else Z.pos m / 2 ^ (- e)))%Z
  | S754_infinity _ | S754_nan => None
  end.

(** The entries of a tensor of torch's default type. *)
Module F32.
Definition prec : Z := 24.
Definition emax : Z := 128.
Definition add : spec_float → spec_float → spec_float := SFadd prec emax.
Definition sub : spec_float → spec_float → spec_float := SFsub prec emax.
Definition mul : spec_float → spec_float → spec_float := SFmul prec emax.
Definition div : spec_float → spec_float → spec_float := SFdiv prec emax.
(** The number [m * 2^e], rounded. *)
Definition make (m e : Z) : spec_float := binary_normalize prec emax m e false.
(** A Python [float] that meets a tensor in an operation is converted to
    the type of the tensor. *)
Definition of_f64 (x : spec_float) : spec_float :=
  match x with
  | S754_finite s m e => binary_round prec emax s m e
  | _ => x
  end.
(** [a == 0] *)
Definition is_zero (a : spec_float) : bool :=
  match a with S754_zero _ => true | _ => false end.
Definition is_nan (a : spec_float) : bool :=
  match a with S754_nan => true | _ => false end.
(** [torch.min] and [torch.max] of two entries; [NaN] propagates. *)
Definition min (a b : spec_float) : spec_float :=
  if is_nan a || is_nan b then S754_nan else if SFltb b a then b else a.
Definition max (a b : spec_float) : spec_float :=
  if is_nan a || is_nan b then S754_nan else if SFltb a b then b else a.
(** An entry that is a number. *)
Definition finite (a : spec_float) : Prop :=
  match a with S754_zero _ | S754_finite _ _ _ => True | _ => False end.

Definition column (j : nat) (m : list (list spec_float)) : list spec_float :=
  map (fun r => nth j r S754_nan) m.
Definition ncols (m : list (list spec_float)) : nat := length (hd [] m).
Definition columns (d : nat) (m : list (list spec_float)) : list (list spec_float) :=
  map (fun j => column j m) (seq 0 d).
(** [v.min()] and [v.max()] of a vector. *)
Definition vmin (v : list spec_float) : option spec_float :=
  match v with
  | [] => None
  | a :: v' => Some (fold_left min v' a)
  end.
Definition vmax (v : list spec_float) : option spec_float :=
  match v with
  | [] => None
  | a :: v' => Some (fold_left max v' a)
  end.
(** [m.min(dim=0)[0]] and [m.max(dim=0)[0]]; torch raises when the matrix
    has no row. *)
Definition min_dim0 (m : list (list spec_float)) : option (list spec_float) :=
  match m with
  | [] => None
  | r :: m' => Some (fold_left (zip_with min) m' r)
  end.
Definition max_dim0 (m : list (list spec_float)) : option (list spec_float) :=
  match m with
  | [] => None
  | r :: m' => Some (fold_left (zip_with max) m' r)
  end.
End F32.

(** ** Vectors and matrices (row-major, as lists) *)

Abbreviation fvec := (list tval).
Abbreviation fmat := (list (list tval)).

(** Every entry of the matrix is finite. *)
Definition all_fin (m : fmat) : Prop := Forall (Forall is_fin) m.

Definition nrows (m : fmat) : nat := length m.
(** [m.size(1)] of a non-empty matrix. *)
Definition ncols (m : fmat) : nat := length (hd [] m).

Definition vsum (v : fvec) : tval := fold_left tadd v tzero.

Definition dot (u v : fvec) : tval := vsum (zip_with tmul u v).

(** Column [j] of a matrix. *)
Definition column (j : nat) (m : fmat) : fvec := map (fun r => nth j r NaN) m.

(** The columns of a matrix with [d] columns. *)
Definition columns (d : nat) (m : fmat) : list fvec :=
  map (fun j => column j m) (seq 0 d).

(** [a.matmul(b)] for [a : n × k] and [b : k × d]. *)
Definition matmul (a b : fmat) : fmat :=
  map (fun r => map (dot r) (columns (ncols b) b)) a.

(** [v.min()] and [v.max()] over all entries; torch raises on an empty
    tensor. *)
Definition vmin (v : fvec) : option tval :=
  match v with
  | [] => None
  | a :: v' => Some (fold_left tmin v' a)
  end.

Definition vmax (v : fvec) : option tval :=
  match v with
  | [] => None
  | a :: v' => Some (fold_left tmax v' a)
  end.

(** [m.min(dim=0)[0]] and [m.max(dim=0)[0]]: the per-column extrema;
    torch raises when the matrix has no row. *)
Definition min_dim0 (m : fmat) : option fvec :=
  match m with
  | [] => None
  | r :: m' => Some (fold_left (zip_with tmin) m' r)
  end.

Definition max_dim0 (m : fmat) : option fvec :=
  match m with
  | [] => None
  | r :: m' => Some (fold_left (zip_with tmax) m' r)
  end.

(** ** Boolean masks and indexing *)

(** [a | b] on boolean tensors of one entry per node; torch raises when the
    sizes differ. *)
Definition mask_or (a b : list bool) : option (list bool) :=
  if decide (length a = length b) then Some (zip_with orb a b) else None.

(** [v[mask]]: the entries of [v] where the mask holds; torch raises when
    the sizes differ. *)
Fixpoint select_by {A} (mask : list bool) (v : list A) : list A :=
  match mask, v with
  | b :: mask', a :: v' => if b then a :: select_by mask' v' else select_by mask' v'
  | _, _ => []
  end.

Definition masked_select {A} (mask : list bool) (v : list A) : option (list A) :=
  if decide (length mask = length v) then Some (select_by mask v) else None.

Definition count_true (mask : list bool) : nat := length (filter (fun b => b = true) mask).

(** Writes [vals], in order, at the positions of [v] where the mask holds. *)
Fixpoint scatter_by {A} (mask : list bool) (vals v : list A) : list A :=
  match mask, v with
  | b :: mask', a :: v' =>
      if b then
        match vals with
        | c :: vals' => c :: scatter_by mask' vals' v'
        | [] => a :: scatter_by mask' [] v'
        end
      else a :: scatter_by mask' vals v'
  | _, _ => v
  end.

(** [v[mask] = vals]: the sizes of [mask] and [v] must agree, and [vals] must
    have one entry per selected position or a single entry, which is then
    broadcast; torch raises otherwise. *)
Definition masked_assign {A} (mask : list bool) (vals v : list A) : option (list A) :=
  if decide (length mask = length v) then
    if decide (length vals = count_true mask) then Some (scatter_by mask vals v)
    else match vals with
         | [c] => Some (scatter_by mask (replicate (count_true mask) c) v)
         | _ => None
         end
  else None.

(** [v[idx] = c] for a tensor [idx] of positions within bounds (the code
    takes them from a permutation of [range(len(v))]). *)
Definition index_fill {A} (idx : list nat) (c : A) (v : list A) : list A :=
  fold_left (fun acc i => <[i := c]> acc) idx v.

(** Python's [l[a:b]] for integers [a] and [b] of any sign. *)
Definition py_bound (len i : Z) : Z :=
  if (i <? 0)%Z then Z.max 0 (i + len) else Z.min i len.

Definition py_slice {A} (l : list A) (a b : Z) : list A :=
  let len := Z.of_nat (length l) in
  let lo := py_bound len a in
  let hi := py_bound len b in
  take (Z.to_nat (hi - lo)) (drop (Z.to_nat lo) l).

(** The slice of [l] from position [p] up to position [q], both within
    bounds. *)
Definition segment {A} (l : list A) (p q : nat) : list A := take (q - p) (drop p l).

(** [y.argmax(dim=1)] on one row: the first position of the largest entry,
    where [NaN] counts as larger than everything; torch raises on an empty
    row. *)
Definition beats (a best : tval) : bool :=
  match best with
  | NaN => false
  | _ => match a with NaN => true | _ => tltb best a end
  end.

Fixpoint argmax_from (best_i : nat) (best : tval) (i : nat) (l : fvec) : nat :=
  match l with
  | [] => best_i
  | a :: l' =>
      if beats a best then argmax_from i a (S i) l'
      else argmax_from best_i best (S i) l'
  end.

Definition argmax (l : fvec) : option Z :=
  match l with
  | [] => None
  | a :: l' => Some (Z.of_nat (argmax_from 0 a 1 l'))
  end.

(** ** Sparse matrices ([torch_sparse.SparseTensor])

    A row holds its stored entries as (column, value) pairs. *)

Record SparseTensor : Type := mkSparse {
  sp_ncols : nat;
  sp_rows : list (list (nat * tval))
}.

(** [adj.sum(dim=1)]. *)
Definition sp_sum_dim1 (a : SparseTensor) : fvec :=
  map (fun r => vsum (map snd r)) (sp_rows a).

(** Number of selected positions before position [j]. *)
Definition mask_rank (m : list bool) (j : nat) : nat := count_true (take j m).

(** [adj[mask, mask]]: the rows and the columns where the mask holds,
    renumbered. *)
Definition sp_index (a : SparseTensor) (m : list bool) : SparseTensor :=
  mkSparse (count_true m)
    (map (fun r => map (fun e => (mask_rank m (fst e), snd e))
                     (filter (fun e => nth (fst e) m false = true) r))
         (select_by m (sp_rows a))).

(** [SparseTensor(row=nodes, col=nodes, value=v)] for [nodes = arange(n)]. *)
Definition sp_diag (v : fvec) : SparseTensor :=
  mkSparse (length v) (imap (fun i d => [(i, d)]) v).

(** [matmul(a, y, reduce='sum')]: row [i] of the result is the sum of
    [value * y[col]] over the stored entries of row [i] of [a]. *)
Definition sp_matmul (a : SparseTensor) (y : fmat) : option fmat :=
  if decide (sp_ncols a = length y) then
    Some (map (fun r =>
                 fold_left (fun acc e =>
                              zip_with tadd acc (map (tmul (snd e)) (nth (fst e) y [])))
                           r (replicate (ncols y) tzero))
              (sp_rows a))
  else None.


(** The rational a finite entry holds, and the exact sum of a finite vector. *)
Definition qv (a : tval) : Qc := match a with Fin q => q | _ => Q2Qc 0 end.

Definition qsum (v : fvec) : Qc := fold_right (fun a s => (qv a + s)%Qc) (Q2Qc 0) v.

(** ** The store of shared tensors *)

Definition loc := positive.

Record store : Type := mkStore {
  floats : gmap loc fmat;
  longs : gmap loc (list Z)
}.

Definition alloc_float (σ : store) (m : fmat) : loc * store :=
  let l := fresh (dom (floats σ)) in
  (l, mkStore (<[l := m]> (floats σ)) (longs σ)).

Definition alloc_long (σ : store) (v : list Z) : loc * store :=
  let l := fresh (dom (longs σ)) in
  (l, mkStore (floats σ) (<[l := v]> (longs σ))).

Definition write_long (σ : store) (l : loc) (v : list Z) : store :=
  mkStore (floats σ) (<[l := v]> (longs σ)).

(** The dataset object as the perturbation transforms see it: its tensor
    attributes are references into the store; [x_raw] and [y_raw] are absent
    until a transform sets them. *)
Module Data.
Record t : Type := mk {
  x : loc;
  x_raw : option loc;
  y : loc;
  y_raw : option loc;
  train_mask : list bool;
  val_mask : list bool;
  adj_t : SparseTensor;
  num_classes : nat
}.

Definition set_x (data : t) (l : loc) : t :=
  mk l (x_raw data) (y data) (y_raw data) (train_mask data) (val_mask data)
     (adj_t data) (num_classes data).

Definition set_x_raw (data : t) (l : loc) : t :=
  mk (x data) (Some l) (y data) (y_raw data) (train_mask data) (val_mask data)
     (adj_t data) (num_classes data).

Definition set_y (data : t) (l : loc) : t :=
  mk (x data) (x_raw data) l (y_raw data) (train_mask data) (val_mask data)
     (adj_t data) (num_classes data).

Definition set_y_raw (data : t) (l : loc) : t :=
  mk (x data) (x_raw data) (y data) (Some l) (train_mask data) (val_mask data)
     (adj_t data) (num_classes data).
End Data.

(** The dataset as the estimator reads it. *)
Module Graph.
Record t : Type := mk {
  x : fmat;
  edge_index : list nat * list nat;
  num_nodes : nat
}.
Definition num_features (data : t) : nat := ncols (x data).
End Graph.

(** ** What the code imports

    The random generator of torch, the registries of privacy mechanisms
    ([mechanisms.py]), the graph convolution of torch_geometric and the real
    square root are not part of the transforms; the development is
    parametric in them. *)

Class External : Type := {
  Gen : Type;
  (** [torch.rand(n, m)] *)
  torch_rand : Gen → nat → nat → fmat * Gen;
  (** [torch.randperm(n, generator=g)] *)
  torch_randperm : Gen → nat → list nat * Gen;
  (** [torch.Generator().manual_seed(s)] *)
  manual_seed : Z → Gen;
  (** [supported_feature_mechanisms[name](eps=.., input_range=..)(x)] *)
  supported_feature_mechanisms :
    string → option (Qc → tval * tval → Gen → fmat → fmat * Gen);
  (** [supported_label_mechanisms[name](eps=.., d=..)(y)] *)
  supported_label_mechanisms :
    string → option (Qc → nat → Gen → list Z → fmat * Gen);
  (** the normalised adjacency that [GCNConv] computes from [edge_index] *)
  NormAdj : Type;
  gcn_norm : list nat * list nat → nat → NormAdj;
  (** the aggregation of [GCNConv] over a normalised adjacency *)
  gcn_propagate : NormAdj → fmat → fmat;
  real_sqrt : tval → tval
}.

Section Transforms.
Context `{Ext : External}.

(** ** RandomizedProjection *)

Record RandomizedProjection : Type := mkRP { w : fmat }.

(** [__init__]: the matrix is drawn from the generator. *)
Definition RandomizedProjection_init (g : Gen) (input_dim output_dim : nat)
  : RandomizedProjection * Gen :=
  let '(m, g') := torch_rand g input_dim output_dim in (mkRP m, g').

(** [__call__]: [data.x = data.x.matmul(self.w)]; the product is a new
    tensor. *)
Definition RandomizedProjection_call (self : RandomizedProjection)
    (σ : store) (data : Data.t) : option (Data.t * store) :=
  xv ← floats σ !! Data.x data;
  let '(l, σ') := alloc_float σ (matmul xv (w self)) in
  Some (Data.set_x data l, σ').

(** ** FeaturePerturbation *)

Record FeaturePerturbation : Type := mkFP {
  mechanism_x : string;
  input_range : option (tval * tval);
  reduce_dim : option nat;
  epsilon_x : option Qc
}.

Definition FeaturePerturbation_init (mechanism_x : string) (epsilon_x : option Qc)
    (reduce_dim : option nat) (data_range : option (tval * tval)) : FeaturePerturbation :=
  mkFP mechanism_x data_range reduce_dim epsilon_x.

Definition set_input_range (self : FeaturePerturbation) (r : tval * tval) :=
  mkFP (mechanism_x self) (Some r) (reduce_dim self) (epsilon_x self).

(** [data.num_features] *)
Definition num_features (σ : store) (data : Data.t) : option nat :=
  xv ← floats σ !! Data.x data; Some (ncols xv).

(** Lines 57-60 of [__call__]: back up or restore the attributes. Both
    assignments bind a name to an existing tensor; nothing is copied. *)
Definition backup_or_restore_x (data : Data.t) : Data.t :=
  match Data.x_raw data with
  | None => Data.set_x_raw data (Data.x data)
  | Some l => Data.set_x data l
  end.

(** Lines 62-63: the range is computed when the instance has none. *)
Definition freeze_input_range (self : FeaturePerturbation) (σ : store) (data : Data.t)
  : option FeaturePerturbation :=
  match input_range self with
  | Some _ => Some self
  | None =>
      xv ← floats σ !! Data.x data;
      lo ← vmin (concat xv);
      hi ← vmax (concat xv);
      Some (set_input_range self (lo, hi))
  end.

(** Lines 65-66: a projection is constructed and applied when [reduce_dim]
    is set (and not zero). *)
Definition project (self : FeaturePerturbation) (σ : store) (g : Gen) (data : Data.t)
  : option (Data.t * store * Gen) :=
  match reduce_dim self with
  | Some (S k) =>
      d ← num_features σ data;
      let '(rp, g') := RandomizedProjection_init g d (S k) in
      '(data', σ') ← RandomizedProjection_call rp σ data;
      Some (data', σ', g')
  | _ => Some (data, σ, g)
  end.

(** Lines 57-66: everything [__call__] does before the mechanism runs. The
    attributes of the resulting dataset are the argument of the mechanism and
    the range of the resulting instance is its [input_range]. *)
Definition FeaturePerturbation_prepare (self : FeaturePerturbation)
    (σ : store) (g : Gen) (data : Data.t)
  : option (FeaturePerturbation * Data.t * store * Gen) :=
  let data1 := backup_or_restore_x data in
  self1 ← freeze_input_range self σ data1;
  '(data2, σ2, g2) ← project self1 σ g data1;
  Some (self1, data2, σ2, g2).

(** [FeaturePerturbation.__call__] *)
Definition FeaturePerturbation_call (self : FeaturePerturbation)
    (σ : store) (g : Gen) (data : Data.t)
  : option (FeaturePerturbation * Data.t * store * Gen) :=
  match epsilon_x self with
  | None => Some (self, data, σ, g)
  | Some eps =>
      '(self1, data2, σ2, g2) ← FeaturePerturbation_prepare self σ g data;
      mech ← supported_feature_mechanisms (mechanism_x self1);
      r ← input_range self1;
      xv ← floats σ2 !! Data.x data2;
      let '(out, g3) := mech eps r g2 xv in
      let '(l, σ3) := alloc_float σ2 out in
      Some (self1, Data.set_x data2 l, σ3, g3)
  end.

(** [n] invocations in a row on the same instance and dataset. *)
Fixpoint FeaturePerturbation_calls (n : nat) (self : FeaturePerturbation)
    (σ : store) (g : Gen) (data : Data.t)
  : option (FeaturePerturbation * Data.t * store * Gen) :=
  match n with
  | O => Some (self, data, σ, g)
  | S n' =>
      '(self1, data1, σ1, g1) ← FeaturePerturbation_call self σ g data;
      FeaturePerturbation_calls n' self1 σ1 g1 data1
  end.

(** *** The restore-then-perturb cycle as the specification words it

    One invocation applies the mechanism, with the frozen range [r], to the
    pristine attributes [x0], projected first when [reduce_dim] is set. *)

Definition projected (rd : option nat) (x0 : fmat) (g : Gen) : fmat * Gen :=
  match rd with
  | Some (S k) => let '(m, g') := torch_rand g (ncols x0) (S k) in (matmul x0 m, g')
  | _ => (x0, g)
  end.

Definition perturb_pristine (mech : Qc → tval * tval → Gen → fmat → fmat * Gen)
    (eps : Qc) (rd : option nat) (r : tval * tval) (x0 : fmat) (g : Gen) : fmat * Gen :=
  let '(inp, g1) := projected rd x0 g in mech eps r g1 inp.

(** The generator after [k] such invocations. *)
Fixpoint generator_after (k : nat) (mech : Qc → tval * tval → Gen → fmat → fmat * Gen)
    (eps : Qc) (rd : option nat) (r : tval * tval) (x0 : fmat) (g : Gen) : Gen :=
  match k with
  | O => g
  | S k' => generator_after k' mech eps rd r x0 (snd (perturb_pristine mech eps rd r x0 g))
  end.

(** The invariant of repeated invocations: the pristine attributes [x0] sit
    at location [l0], which is the backup or, before the first invocation,
    the current attributes; the range of the instance is [r] or, before the
    first invocation, still to be computed from [x0]. *)
Definition pristine_at (self : FeaturePerturbation) (σ : store) (data : Data.t)
    (l0 : loc) (x0 : fmat) (r : tval * tval) : Prop :=
  floats σ !! l0 = Some x0
  ∧ (Data.x_raw data = Some l0 ∨ (Data.x_raw data = None ∧ Data.x data = l0))
  ∧ (input_range self = Some r
     ∨ (input_range self = None ∧ vmin (concat x0) = Some (fst r)
        ∧ vmax (concat x0) = Some (snd r))).

(** ** LabelPerturbation *)

Record LabelPerturbation : Type := mkLP {
  mechanism_y : string;
  epsilon_y : option Qc;
  lp_step : nat
}.

(** One round of the loop of [perturb]. *)
Definition propagate_step (adj D_inv : SparseTensor) (yv : fmat) : option fmat :=
  y1 ← sp_matmul adj yv; sp_matmul D_inv y1.

Fixpoint propagate_steps (n : nat) (adj D_inv : SparseTensor) (yv : fmat) : option fmat :=
  match n with
  | O => Some yv
  | S n' => y1 ← propagate_step adj D_inv yv; propagate_steps n' adj D_inv y1
  end.

(** The values of the diagonal of [D_inv]: [1 / deg]. *)
Definition inverse_degree (deg : fvec) : fvec := map (tdiv tone) deg.

(** [LabelPerturbation.perturb] *)
Definition perturb (self : LabelPerturbation) (eps : Qc) (g : Gen)
    (adj : SparseTensor) (yv : list Z) (num_classes : nat) : option (list Z * Gen) :=
  mech ← supported_label_mechanisms (mechanism_y self);
  let '(y1, g') := mech eps num_classes g yv in
  let deg := sp_sum_dim1 adj in
  let D_inv := sp_diag (inverse_degree deg) in
  y2 ← propagate_steps (lp_step self) adj D_inv y1;
  labels ← mapM argmax y2;
  Some (labels, g').

(** Lines 92-95 of [__call__]: both branches copy the tensor. *)
Definition backup_or_restore_y (σ : store) (data : Data.t) : option (Data.t * store) :=
  match Data.y_raw data with
  | None =>
      yv ← longs σ !! Data.y data;
      let '(l, σ') := alloc_long σ yv in
      Some (Data.set_y_raw data l, σ')
  | Some lr =>
      yv ← longs σ !! lr;
      let '(l, σ') := alloc_long σ yv in
      Some (Data.set_y data l, σ')
  end.

(** [LabelPerturbation.__call__]; the assignment [data.y[perturb_mask] = ..]
    writes into the tensor [data.y] refers to. *)
Definition LabelPerturbation_call (self : LabelPerturbation)
    (σ : store) (g : Gen) (data : Data.t) : option (Data.t * store * Gen) :=
  match epsilon_y self with
  | None => Some (data, σ, g)
  | Some eps =>
      '(data1, σ1) ← backup_or_restore_y σ data;
      perturb_mask ← mask_or (Data.train_mask data1) (Data.val_mask data1);
      yv ← longs σ1 !! Data.y data1;
      ysel ← masked_select perturb_mask yv;
      '(labels, g') ← perturb self eps g
                        (sp_index (Data.adj_t data1) perturb_mask) ysel
                        (Data.num_classes data1);
      ynew ← masked_assign perturb_mask labels yv;
      Some (data1, write_long σ1 (Data.y data1) ynew, g')
  end.

Fixpoint LabelPerturbation_calls (n : nat) (self : LabelPerturbation)
    (σ : store) (g : Gen) (data : Data.t) : option (Data.t * store * Gen) :=
  match n with
  | O => Some (data, σ, g)
  | S n' =>
      '(data1, σ1, g1) ← LabelPerturbation_call self σ g data;
      LabelPerturbation_calls n' self σ1 g1 data1
  end.

(** The invariant of repeated invocations: the masks are [tm] and [vm]; the
    current labels agree with the pristine labels [y0] outside the masks; and
    either there is no backup yet and the current labels are [y0], or the
    backup is a tensor of its own that holds [y0]. *)
Definition labels_pristine (σ : store) (data : Data.t)
    (y0 : list Z) (tm vm : list bool) : Prop :=
  Data.train_mask data = tm ∧ Data.val_mask data = vm
  ∧ (∃ yc, longs σ !! Data.y data = Some yc
           ∧ ∀ i, tm !! i = Some false → vm !! i = Some false → yc !! i = y0 !! i)
  ∧ ((Data.y_raw data = None ∧ longs σ !! Data.y data = Some y0)
     ∨ (∃ lr, Data.y_raw data = Some lr ∧ lr ≠ Data.y data
              ∧ longs σ !! lr = Some y0)).

(** ** NodeSplit *)

Record NodeSplit : Type := mkNS {
  train_ratio : spec_float;
  val_ratio : spec_float;
  test_ratio : spec_float;
  rng : option Gen
}.

(** [__init__] with ratios that are Python floats; the assertion
    [train_ratio > 0] fails with [None]. *)
Definition NodeSplit_init (train_ratio : option spec_float) (val_ratio test_ratio : spec_float)
    (random_state : option Z) : option NodeSplit :=
  let tr := match train_ratio with
            | None => F64.sub F64.one (F64.add val_ratio test_ratio)
            | Some r => r
            end in
  if SFltb F64.zero tr
  then Some (mkNS tr val_ratio test_ratio (manual_seed <$> random_state))
  else None.

(** Python's [int(r * n)] for a float [r] and an integer [n]: the product is
    rounded to a float and then truncated towards zero. *)
Definition int_of_ratio (r : spec_float) (n : nat) : option Z :=
  trunc (F64.mul r (F64.of_Z (Z.of_nat n))).

(** [torch.zeros(n, dtype=torch.bool)] *)
Definition zeros_bool (n : nat) : list bool := replicate n false.

Record Masks : Type := mkMasks {
  m_train : list bool;
  m_val : list bool;
  m_test : list bool
}.

(** The attribute [y] of the dataset as [hasattr] and [in] see it: the
    object may have no such attribute, the attribute may be [None] (as on a
    torch_geometric [Data] without labels), or it is a tensor. *)
Inductive y_attr : Type :=
| y_absent
| y_none
| y_tensor (yv : list Z).

(** Lines 152-157: the eligible nodes. [-1 in None] raises [TypeError]. *)
Definition nodes_with_class (num_nodes : nat) (labels : y_attr) : option (list bool) :=
  match labels with
  | y_tensor yv =>
      Some (if decide ((-1)%Z ∈ yv) then map (fun c => negb (c =? -1)%Z) yv
            else replicate num_nodes true)
  | y_none => None
  | y_absent => Some (replicate num_nodes true)
  end.

(** [NodeSplit.__call__] given the global generator [g]: the three masks that
    are stored in the dataset, the instance (whose own generator advances) and
    the global generator. *)
Definition NodeSplit_call (self : NodeSplit) (g : Gen)
    (num_nodes : nat) (labels : y_attr) : option (Masks * NodeSplit * Gen) :=
  nwc ← nodes_with_class num_nodes labels;
  let n := count_true nwc in
  n_train ← int_of_ratio (train_ratio self) n;
  n_val ← int_of_ratio (val_ratio self) n;
  n_test ← int_of_ratio (test_ratio self) n;
  let '(perm, self', g') :=
    match rng self with
    | Some r => let '(p, r') := torch_randperm r n in
                (p, mkNS (train_ratio self) (val_ratio self) (test_ratio self) (Some r'), g)
    | None => let '(p, g1) := torch_randperm g n in (p, self, g1)
    end in
  let train_nodes := py_slice perm 0 n_train in
  let val_nodes := py_slice perm n_train (n_train + n_val) in
  let test_nodes := py_slice perm (n_train + n_val) (n_train + n_val + n_test) in
  let temp_val_mask := index_fill val_nodes true (zeros_bool n) in
  let temp_test_mask := index_fill test_nodes true (zeros_bool n) in
  let temp_train_mask := index_fill train_nodes true (zeros_bool n) in
  val_mask ← masked_assign nwc temp_val_mask (zeros_bool num_nodes);
  test_mask ← masked_assign nwc temp_test_mask (zeros_bool num_nodes);
  train_mask ← masked_assign nwc temp_train_mask (zeros_bool num_nodes);
  Some (mkMasks train_mask val_mask test_mask, self', g').

(** ** Normalize

    The attribute matrix is a tensor of single precision; [low] and [high]
    are Python floats. *)

(** A tensor of one or of two dimensions. *)
Inductive tensor : Type :=
| T1 (v : list spec_float)
| T2 (m : list (list spec_float)).

(** [torch.nonzero(v, as_tuple=False)]: the positions of the entries that
    differ from zero ([NaN] differs from zero, both zeros are zero). *)
Fixpoint nonzero_from (i : nat) (v : list spec_float) : list nat :=
  match v with
  | [] => []
  | a :: v' => if F32.is_zero a then nonzero_from (S i) v' else i :: nonzero_from (S i) v'
  end.

Definition nonzero (v : list spec_float) : list nat := nonzero_from 0 v.

(** [m[:, idx]] where [idx] is [nonzero(..).squeeze()]: a tensor of
    positions selects columns; [squeeze] turns a single position into a
    scalar, and a scalar index selects one column as a vector. *)
Definition select_columns (idx : list nat) (m : list (list spec_float)) : tensor :=
  match idx with
  | [j] => T1 (F32.column j m)
  | _ => T2 (map (fun r => map (fun j => nth j r S754_nan) idx) m)
  end.

Record Normalize : Type := mkNormalize { n_min : spec_float; n_max : spec_float }.

Definition Normalize_init (low high : spec_float) : Normalize := mkNormalize low high.

(** [Normalize.__call__] on the attribute matrix; the result is the new
    [data.x]. Line 200 is [(x - alpha) * (self.max - self.min) / delta +
    self.min]: the difference of the two Python floats is taken in double
    precision; it and [self.min] are converted to single precision where they
    meet the tensor. *)
Definition Normalize_call (self : Normalize) (xv : list (list spec_float)) : option tensor :=
  alpha ← F32.min_dim0 xv;
  beta ← F32.max_dim0 xv;
  let delta := zip_with F32.sub beta alpha in
  let scale := F32.of_f64 (F64.sub (n_max self) (n_min self)) in
  let low := F32.of_f64 (n_min self) in
  let x1 := map (fun r =>
                   zip_with (fun v d => F32.add (F32.div (F32.mul v scale) d) low)
                            (zip_with F32.sub r alpha) delta) xv in
  Some (select_columns (nonzero delta) x1).

(** *** Normalize as the specification words it

    Column by column: a column whose range (max - min) is zero is dropped,
    every other column is rescaled from its own minimum and maximum. *)





(** ** ErrorEstimation *)

(** [GCNConv(.., cached=True)]: the normalised adjacency is computed on the
    first call and reused afterwards. *)
Record GCNConv : Type := mkGCN {
  weight : fmat;
  cached : option NormAdj
}.

(** [torch.eye(n)] *)
Definition eye (n : nat) : fmat :=
  map (fun i => map (fun j => if decide (i = j) then tone else tzero) (seq 0 n)) (seq 0 n).

Definition GCNConv_forward (model : GCNConv) (xv : fmat) (edge_index : list nat * list nat)
  : fmat * GCNConv :=
  let norm := match cached model with
              | Some na => na
              | None => gcn_norm edge_index (nrows xv)
              end in
  (gcn_propagate norm (matmul xv (weight model)), mkGCN (weight model) (Some norm)).

Record ErrorEstimation : Type := mkEE {
  delta : fvec;
  max_degree_quantile : Qc;
  model : GCNConv;
  gc : fmat
}.

(** The default of [max_degree_quantile]. *)
Definition default_max_degree_quantile : Qc := Q2Qc (99 # 100).

(** [ErrorEstimation.__init__] *)
Definition ErrorEstimation_init (data : Graph.t) (raw_features : fmat)
    (max_degree_quantile : Qc) : option ErrorEstimation :=
  alpha ← min_dim0 raw_features;
  beta ← max_dim0 raw_features;
  let delta := zip_with tsub beta alpha in
  let model0 := mkGCN (eye (Graph.num_features data)) None in
  let '(gc, model1) := GCNConv_forward model0 raw_features (Graph.edge_index data) in
  Some (mkEE delta max_degree_quantile model1 gc).

(** Line 32: [(self.gc - gc_hat) / self.delta], the division broadcast over
    the rows. *)
Definition scaled_difference (gc gc_hat : fmat) (delta : fvec) : fmat :=
  zip_with (fun r rh => zip_with tdiv (zip_with tsub r rh) delta) gc gc_hat.

(** Line 33: [diff[:, (self.delta == 0)] = 0]. *)
Definition zero_where_no_range (diff : fmat) (delta : fvec) : fmat :=
  map (fun r => zip_with (fun v d => if teqb d tzero then tzero else v) r delta) diff.

(** [torch.norm(r, p=1)] of one row. *)
Definition norm1 (r : fvec) : tval := vsum (map tabs r).

(** Lines 31-34 of [run]: the error of every node. *)
Definition node_errors (self : ErrorEstimation) (data : Graph.t) : fvec :=
  let '(gc_hat, _) := GCNConv_forward (model self) (Graph.x data) (Graph.edge_index data) in
  let diff := scaled_difference (gc self) gc_hat (delta self) in
  let diff := zero_where_no_range diff (delta self) in
  map (fun r => tdiv (norm1 r) (Fin (Qc_of_nat (Graph.num_features data)))) diff.

(** [torch_geometric.utils.degree(row, num_nodes)]: how often every node
    occurs in [row]. *)
Definition degree (row : list nat) (num_nodes : nat) : list nat :=
  map (fun i => length (filter (fun j => j = i) row)) (seq 0 num_nodes).

(** *** The data frame of [run] (pandas) *)

Fixpoint insert_sorted (a : nat) (l : list nat) : list nat :=
  match l with
  | [] => [a]
  | b :: l' => if (a <=? b)%nat then a :: l else b :: insert_sorted a l'
  end.

Definition sort_nat (l : list nat) : list nat := fold_right insert_sorted [] l.

(** [Series.quantile(q)] with the default linear interpolation, for a level
    [q] within [[0, 1]]: the value at position [q * (n - 1)] of the sorted
    values, interpolated between its two neighbours; [NaN] for an empty
    series. (For a level outside of [[0, 1]] pandas raises; [run] below checks
    the level before it takes the quantile.) *)
Definition quantile (q : Qc) (values : list nat) : tval :=
  match sort_nat values with
  | [] => NaN
  | s =>
      let pos := (q * Qc_of_nat (length s - 1))%Qc in
      let lo := Z.to_nat (Qfloor (this pos)) in
      let frac := (pos - Qc_of_nat lo)%Qc in
      let a := Qc_of_nat (nth lo s (List.last s 0%nat)) in
      let b := Qc_of_nat (nth (S lo) s (List.last s 0%nat)) in
      Fin (a + (b - a) * frac)%Qc
  end.

(** [df[df['degree'] < t]] *)
Definition below (t : tval) (df : list (nat * tval)) : list (nat * tval) :=
  filter (fun p => tltb (Fin (Qc_of_nat (fst p))) t = true) df.

(** The keys of [groupby('degree')]: the distinct degrees, ascending. *)
Fixpoint dedup_sorted (l : list nat) : list nat :=
  match l with
  | a :: ((b :: _) as l') => if decide (a = b) then dedup_sorted l' else a :: dedup_sorted l'
  | _ => l
  end.

Definition group_keys (df : list (nat * tval)) : list nat :=
  dedup_sorted (sort_nat (map fst df)).

(** The entries of a list are related by [R] from left to right. *)
Definition ascending (R : nat → nat → Prop) (l : list nat) : Prop :=
  ∀ i j x y, (i < j)%nat → l !! i = Some x → l !! j = Some y → R x y.

Definition mean (v : fvec) : tval := tdiv (vsum v) (Fin (Qc_of_nat (length v))).

(** The sample standard deviation (one degree of freedom removed); [NaN]
    for a single value. *)
Definition std (v : fvec) : tval :=
  let m := mean v in
  real_sqrt (tdiv (vsum (map (fun a => tmul (tsub a m) (tsub a m)) v))
                  (tsub (Fin (Qc_of_nat (length v))) tone)).

(** [fillna(0)] *)
Definition fillna0 (a : tval) : tval := match a with NaN => tzero | _ => a end.

(** [groupby('degree').agg(['mean', 'std']).fillna(0).reset_index().values] *)
Definition aggregate (df : list (nat * tval)) : list (nat * tval * tval) :=
  map (fun k =>
         let errs := map snd (filter (fun p => fst p = k) df) in
         (k, fillna0 (mean errs), fillna0 (std errs)))
      (group_keys df).

(** [ErrorEstimation.run]: the list of [(deg, mae, std)] handed to the
    logger, one [log_metrics] call each. The data frame needs its two columns
    to have the same length, and [quantile] raises [ValueError] for a level
    outside of [[0, 1]]. *)
Definition ErrorEstimation_run (self : ErrorEstimation) (data : Graph.t)
  : option (list (nat * tval * tval)) :=
  let errors := node_errors self data in
  let degrees := degree (fst (Graph.edge_index data)) (Graph.num_nodes data) in
  if decide (length degrees = length errors) then
    let df := zip degrees errors in
    if Qc_leb (Q2Qc 0) (max_degree_quantile self)
       && Qc_leb (max_degree_quantile self) (Q2Qc 1)
    then
      let df := below (quantile (max_degree_quantile self) degrees) df in
      Some (aggregate df)
    else None
  else None.

(** Line 66 of [error_estimation]: the estimator is constructed and run. *)
Definition estimate (data : Graph.t) (raw_features : fmat) (q : Qc)
  : option (list (nat * tval * tval)) :=
  est ← ErrorEstimation_init data raw_features q;
  ErrorEstimation_run est data.

(** ** OneHotDegree *)

Record OneHotDegree : Type := mkOHD { max_degree : Z }.

(** [adj.sum(dim=0)]: the sum of the stored values of every column. *)
Definition sp_sum_dim0 (a : SparseTensor) : fvec :=
  map (fun j => vsum (map snd (filter (fun e => fst e = j) (concat (sp_rows a)))))
      (seq 0 (sp_ncols a)).

(** The number of entries stored in column [j]. *)
Definition sp_col_count (a : SparseTensor) (j : nat) : nat :=
  length (filter (fun e => fst e = j) (concat (sp_rows a))).

(** [.long()]: a finite value is truncated towards zero; torch does not
    define the conversion of an infinity or of [NaN], and the embedding stops
    there. *)
Definition to_long (a : tval) : option Z :=
  match a with
  | Fin q => Some (Z.quot (Qnum (this q)) (Z.pos (Qden (this q))))
  | _ => None
  end.

(** One row of a one-hot encoding with [c] classes. *)
Definition one_hot_row (c k : nat) : fvec :=
  map (fun j => if decide (j = k) then tone else tzero) (seq 0 c).

(** [F.one_hot(v, num_classes=c).float()]. On an empty tensor the number of
    classes must be positive; otherwise no value may be negative, [c = -1]
    stands for one more than the largest value, and every value must be
    smaller than the number of classes; torch raises in the other cases. *)
Definition one_hot (v : list Z) (c : Z) : option fmat :=
  match v with
  | [] => if decide (c ≤ 0)%Z then None else Some []
  | d :: v' =>
      if decide (Forall (fun e => 0 ≤ e)%Z v) then
        let c' := if decide (c = -1)%Z then (fold_left Z.max v' d + 1)%Z else c in
        if decide (Forall (fun e => e < c')%Z v)
        then Some (map (fun e => one_hot_row (Z.to_nat c') (Z.to_nat e)) v)
        else None
      else None
  end.

(** [OneHotDegree.__call__]; the encoding is a new tensor. *)
Definition OneHotDegree_call (self : OneHotDegree) (σ : store) (data : Data.t)
  : option (Data.t * store) :=
  degree ← mapM to_long (sp_sum_dim0 (Data.adj_t data));
  let degree := map (fun d => Z.min d (max_degree self)) degree in
  m ← one_hot degree (max_degree self + 1);
  let '(l, σ') := alloc_float σ m in
  Some (Data.set_x data l, σ').

(** ** FeatureTransform *)

Record FeatureTransform : Type := mkFT { feature : string }.

(** [torch.zeros_like(m)] *)
Definition zeros_like (m : fmat) : fmat := map (map (fun _ => tzero)) m.

(** [r.topk(1).indices] of one row: the position of a largest entry (the
    first one here; torch does not say which one among equal entries); torch
    raises on an empty row. *)
Definition topk1 (r : fvec) : option nat := Z.to_nat <$> argmax r.

(** [torch.zeros_like(m).scatter(1, s, x)] for index and source tensors of
    one column: row [i] is zero except at position [s[i]], which holds
    [x[i]]. *)
Definition scatter1 (m : fmat) (s : list nat) (xs : fvec) : fmat :=
  zip_with (fun r p => <[fst p := snd p]> (map (fun _ => tzero) r)) m (zip s xs).

(** [FeatureTransform.__call__]. A name that is none of ['rnd'], ['crnd'],
    ['ohd'], ['one'] matches no branch. *)
Definition FeatureTransform_call (self : FeatureTransform)
    (σ : store) (g : Gen) (data : Data.t) : option (Data.t * store * Gen) :=
  if String.eqb (feature self) "rnd" then
    xv ← floats σ !! Data.x data;
    let '(m, g') := torch_rand g (nrows xv) (ncols xv) in
    let '(l, σ') := alloc_float σ m in
    Some (Data.set_x data l, σ', g')
  else if String.eqb (feature self) "crnd" then
    xv ← floats σ !! Data.x data;
    let '(xs, g1) := torch_rand g (nrows xv) 1 in
    let '(r, g2) := torch_rand g1 (nrows xv) (ncols xv) in
    s ← mapM topk1 r;
    let '(l, σ') := alloc_float σ (scatter1 xv s (map (fun row => hd NaN row) xs)) in
    Some (Data.set_x data l, σ', g2)
  else if String.eqb (feature self) "ohd" then
    d ← num_features σ data;
    '(data', σ') ← OneHotDegree_call (mkOHD (Z.of_nat d - 1)) σ data;
    Some (data', σ', g)
  else if String.eqb (feature self) "one" then
    xv ← floats σ !! Data.x data;
    let '(l, σ') := alloc_float σ (zeros_like xv) in
    Some (Data.set_x data l, σ', g)
  else Some (data, σ, g).

End Transforms.

(** ** Trainer ([trainer.py])

    The loop of [fit] and the choice of the model that [test] evaluates. The
    model, its optimizer and the three steps the model provides are not part
    of the trainer; the loop is parametric in them. A model stands for its
    parameters (what [state_dict] saves and [load_state_dict] restores). The
    interruption from the keyboard, the progress bar and the logger are left
    out. *)

Module Trainer.
Section Loop.
Context {Model Opt Metrics : Type}.
(** [configure_optimizer] *)
Variable configure_optimizer : Model → Opt.
(** [_train]: one step of the optimizer; the last component is [train_loss]. *)
Variable train : Model → Opt → Model * Opt * tval.
(** [_validation]: the [val_loss] of the validation step. *)
Variable validation : Model → tval.
(** [model.test_step] *)
Variable test_step : Model → Metrics.

(** The trainer: [self.model] is [None] before the first [fit]; the file at
    [checkpoint_path] does not exist until a checkpoint is saved. *)
Record t : Type := mk {
  max_epochs : nat;
  checkpoint : bool;
  model : option Model;
  checkpoint_file : option Model
}.

(** [__init__] *)
Definition init (max_epochs : nat) (checkpoint : bool) : t :=
  mk max_epochs checkpoint None None.

(** The variables of the loop of [fit]. *)
Record loop : Type := mkLoop {
  cur : Model;
  opt : Opt;
  best_val_loss : tval;
  file : option Model
}.

(** One epoch: lines 55-66 of [fit]. *)
Definition epoch (ckpt : bool) (st : loop) : loop :=
  let '(m, o, _) := train (cur st) (opt st) in
  let val_loss := validation m in
  if ckpt && tltb val_loss (best_val_loss st)
  then mkLoop m o val_loss (Some m)
  else mkLoop m o (best_val_loss st) (file st).

(** [fit]: the model it returns and the trainer afterwards. *)
Definition fit (self : t) (m0 : Model) : Model * t :=
  let st0 := mkLoop m0 (configure_optimizer m0) PInf (checkpoint_file self) in
  let st := Nat.iter (max_epochs self) (epoch (checkpoint self)) st0 in
  (cur st, mk (max_epochs self) (checkpoint self) (Some (cur st)) (file st)).

(** [test]: with checkpointing the saved parameters are loaded into the
    model first; loading raises when there is no file, and so does the call
    on a trainer that has no model. *)
Definition test (self : t) : option (Metrics * t) :=
  m ← model self;
  if checkpoint self then
    sd ← checkpoint_file self;
    Some (test_step sd, mk (max_epochs self) (checkpoint self) (Some sd) (checkpoint_file self))
  else Some (test_step m, self).

(** The model after [k] epochs of training and its validation loss. *)
Definition after (k : nat) (m0 : Model) : Model * Opt :=
  Nat.iter k (fun p => let '(m, o, _) := train (fst p) (snd p) in (m, o))
           (m0, configure_optimizer m0).

Definition model_after (k : nat) (m0 : Model) : Model := fst (after k m0).

Definition val_after (k : nat) (m0 : Model) : tval := validation (model_after k m0).

(** Epoch [i] is the first one with the least validation loss among the
    epochs [1 .. n]. *)
Definition first_best (n : nat) (m0 : Model) (i : nat) : Prop :=
  (1 ≤ i ≤ n)%nat
  ∧ (∀ j, (1 ≤ j ≤ n)%nat → tltb (val_after j m0) (val_after i m0) = false)
  ∧ (∀ j, (1 ≤ j < i)%nat →
          tltb (val_after i m0) (val_after j m0) = true ∨ val_after j m0 = NaN).

End Loop.
End Trainer.

(** ** A concrete instance of the imported parts

    Used to run the embedding on examples: the generator is a counter, the
    draws are rationals in (0, 1) determined by the counter, the mechanisms
    shift their input by a draw, the convolution sums a node with its
    in-neighbours, and the square root is exact on squares of rationals. *)
Module Demo.

Definition draw (k : nat) : tval := Fin (Q2Qc (1 # Pos.of_nat (k + 2))).

Definition rand (g n m : nat) : fmat * nat :=
  (map (fun i => map (fun j => draw (g + i * m + j)) (seq 0 m)) (seq 0 n), g + n * m).

Definition randperm (g n : nat) : list nat * nat :=
  (if Nat.even g then seq 0 n else rev (seq 0 n), S g).

Definition shift_mechanism (eps : Qc) (r : tval * tval) (g : nat) (xv : fmat) : fmat * nat :=
  (map (map (fun v => tadd v (draw g))) xv, S g).

Definition one_hot (d : nat) (c : nat) : fvec :=
  map (fun j => if decide (j = c) then tone else tzero) (seq 0 d).

Definition flip_mechanism (eps : Qc) (d : nat) (g : nat) (yv : list Z) : fmat * nat :=
  (map (fun c => one_hot d ((Z.to_nat c + g) mod d)) yv, S g).

Definition norm (edge_index : list nat * list nat) (n : nat) : list (nat * nat) :=
  zip (fst edge_index) (snd edge_index) ++ map (fun i => (i, i)) (seq 0 n).

Definition vadd (u v : fvec) : fvec := zip_with tadd u v.

Definition propagate (na : list (nat * nat)) (xv : fmat) : fmat :=
  imap (fun i _ =>
          let srcs := map fst (filter (fun e => snd e = i) na) in
          fold_left vadd (map (fun j => nth j xv []) srcs)
                    (replicate (ncols xv) tzero))
       xv.

Definition sqrt (a : tval) : tval :=
  match a with
  | Fin q =>
      if Qc_ltb q (Q2Qc 0) then NaN
      else Fin (Q2Qc (Z.sqrt (Qnum (this q)) # Pos.sqrt (Qden (this q))))
  | PInf => PInf
  | _ => NaN
  end.

Definition lookup_feature (name : string)
  : option (Qc → tval * tval → nat → fmat → fmat * nat) :=
  if String.eqb name "mbm" then Some shift_mechanism else None.

Definition lookup_label (name : string)
  : option (Qc → nat → nat → list Z → fmat * nat) :=
  if String.eqb name "krr" then Some flip_mechanism else None.

#[export] Instance ext : External := {|
  Gen := nat;
  torch_rand := rand;
  torch_randperm := randperm;
  manual_seed := Z.to_nat;
  supported_feature_mechanisms := lookup_feature;
  supported_label_mechanisms := lookup_label;
  NormAdj := list (nat * nat);
  gcn_norm := norm;
  gcn_propagate := propagate;
  real_sqrt := sqrt
|}.

Definition qz (n : Z) : tval := Fin (Q2Qc (inject_Z n)).

(** The cycle on five nodes, both directions of every edge. *)
Definition cycle5_edges : list nat * list nat :=
  ([0; 1; 1; 2; 2; 3; 3; 4; 4; 0], [1; 0; 2; 1; 3; 2; 4; 3; 0; 4])%nat.

Definition cycle5_x : fmat :=
  [[qz 1; qz 2; qz 3]; [qz 4; qz 5; qz 3]; [qz 7; qz 8; qz 3];
   [qz 1; qz 0; qz 3]; [qz 2; qz 2; qz 3]].

Definition cycle5 : Graph.t := Graph.mk cycle5_x cycle5_edges 5.

(** A tree on five nodes with the edges 0-1, 1-2, 2-3 and 2-4: three leaves,
    node 1 of degree 2 and node 2 of degree 3. *)
Definition tree5_edges : list nat * list nat :=
  ([0; 1; 1; 2; 2; 3; 2; 4], [1; 0; 2; 1; 3; 2; 4; 2])%nat.

Definition tree5_raw : fmat :=
  [[qz 1; qz 2]; [qz 4; qz 2]; [qz 7; qz 2]; [qz 1; qz 2]; [qz 3; qz 2]].

(** A model that counts its training steps; the validation loss goes
    5, 3, 3, 4 over the first four epochs and is not a number afterwards. *)
Definition count_train (m : nat) (o : unit) : nat * unit * tval := (S m, o, tzero).

Definition count_validation (m : nat) : tval := nth m [qz 9; qz 5; qz 3; qz 3; qz 4] NaN.

(** The tree with perturbed attributes. *)
Definition tree5 : Graph.t :=
  Graph.mk [[qz 2; qz 1]; [qz 4; qz 3]; [qz 5; qz 2]; [qz 0; qz 2]; [qz 3; qz 4]]
           tree5_edges 5.

(** Four nodes with three attributes each; the edges are 0-1, 1-3 and 2-3;
    nodes 0 and 1 are for training, node 2 for validation, node 3 for test.
    Node 2 has no neighbour among the training and validation nodes. *)
Definition x0 : fmat :=
  [[qz 1; qz 2; qz 3]; [qz 4; qz 0; qz 6]; [qz 2; qz 2; qz 2]; [qz 5; qz 1; qz 0]].

Definition y0 : list Z := [0; 1; 1; 0]%Z.

Definition adj4 : SparseTensor :=
  mkSparse 4 [[(1%nat, tone)]; [(0%nat, tone); (3%nat, tone)]; [(3%nat, tone)];
              [(1%nat, tone); (2%nat, tone)]].

Definition store0 : store := mkStore {[1%positive := x0]} {[1%positive := y0]}.

Definition data0 : Data.t :=
  Data.mk 1%positive None 1%positive None
          [true; true; false; false] [false; false; true; false] adj4 2.

(** [FeaturePerturbation(mechanism_x='mbm', epsilon_x=1, reduce_dim=2)] *)
Definition fp : FeaturePerturbation :=
  FeaturePerturbation_init "mbm" (Some (Q2Qc 1)) (Some 2%nat) None.

(** [FeaturePerturbation(mechanism_x='mbm', epsilon_x=1)] *)
Definition fp_plain : FeaturePerturbation :=
  FeaturePerturbation_init "mbm" (Some (Q2Qc 1)) None None.

(** [LabelPerturbation(mechanism_y='krr', epsilon_y=1, lp_step=1)] *)
Definition lp : LabelPerturbation := mkLP "krr" (Some (Q2Qc 1)) 1.

(** The attributes handed to the mechanism by the first invocation and by
    the second one. *)
Definition mechanism_input
    (r : option (FeaturePerturbation * Data.t * store * nat)) : option fmat :=
  '(_, d, σ, _) ← r; floats σ !! Data.x d.

Definition first_input : option fmat :=
  mechanism_input (FeaturePerturbation_prepare fp store0 0%nat data0).

Definition second_input : option fmat :=
  mechanism_input ('(s, d, σ, g) ← FeaturePerturbation_call fp store0 0%nat data0;
                   FeaturePerturbation_prepare s σ g d).

(** Ten nodes, two of them without a label. *)
Definition labels10 : list Z := [0; 1; -1; 2; 0; 1; -1; 1; 2; 0]%Z.

(** Ten nodes, all with a label. *)
Definition labelled10 : list Z := [0; 1; 1; 2; 0; 1; 0; 1; 2; 0]%Z.

(** Python floats by their decimal literals: the nearest doubles. *)
Definition f0_25 : spec_float := F64.make 1 (-2).
Definition f0_5 : spec_float := F64.make 1 (-1).
Definition f0_8 : spec_float := F64.make 3602879701896397 (-52).
Definition f0_2 : spec_float := F64.make 3602879701896397 (-54).
Definition f0_29 : spec_float := F64.make 5224175567749775 (-54).
Definition f0_46 : spec_float := F64.make 8286623314361713 (-54).
Definition f0_1 : spec_float := F64.make 3602879701896397 (-55).
Definition f0_7 : spec_float := F64.make 3152519739159347 (-52).

(** [NodeSplit(random_state=7)] with the default ratios. *)
Definition default_split : NodeSplit :=
  mkNS (F64.sub F64.one (F64.add f0_25 f0_25)) f0_25 f0_25 (Some 7%nat).

(** [NodeSplit(train_ratio=0.8, val_ratio=0.5, test_ratio=0.5)] *)
Definition greedy_split : NodeSplit := mkNS f0_8 f0_5 f0_5 None.

(** [NodeSplit(val_ratio=-0.2, test_ratio=0.2)] *)
Definition negative_split : NodeSplit :=
  mkNS (F64.sub F64.one (F64.add (SFopp f0_2) f0_2)) (SFopp f0_2) f0_2 None.

(** [NodeSplit(train_ratio=0.29, val_ratio=0.25, test_ratio=0.46)] *)
Definition decimal_split : NodeSplit := mkNS f0_29 f0_25 f0_46 None.

(** An integer as an entry of a tensor of single precision. *)
Definition sz (n : Z) : spec_float := F32.make n 0.

(** Five nodes with three attributes; the third one is the same for all. *)
Definition x32 : list (list spec_float) :=
  [[sz 1; sz 2; sz 3]; [sz 4; sz 5; sz 3]; [sz 7; sz 8; sz 3];
   [sz 1; sz 0; sz 3]; [sz 2; sz 2; sz 3]].


(** The sizes of the three masks of a split. *)
Definition sizes (r : option (Masks * NodeSplit * nat)) : option (nat * nat * nat) :=
  (fun p => (count_true (m_train (fst (fst p))), count_true (m_val (fst (fst p))),
             count_true (m_test (fst (fst p))))) <$> r.

End Demo.

(** * Properties *)

(** ** Entries *)

Lemma Qc_is_zero_true q : Qc_is_zero q = true ↔ q = Q2Qc 0.
Proof.
  unfold Qc_is_zero. rewrite Qceq_alt.
  destruct (q ?= Q2Qc 0)%Qc; split; congruence.
Qed.

Lemma Qc_is_zero_false q : Qc_is_zero q = false ↔ q ≠ Q2Qc 0.
Proof.
  rewrite <- Qc_is_zero_true. destruct (Qc_is_zero q); split; congruence.
Qed.

Lemma Qc_ltb_lt a b : Qc_ltb a b = true ↔ (a < b)%Qc.
Proof.
  unfold Qc_ltb. rewrite Qclt_alt.
  destruct (a ?= b)%Qc; split; congruence.
Qed.

Lemma Qc_ltb_ge a b : Qc_ltb a b = false ↔ (b ≤ a)%Qc.
Proof.
  rewrite Qcle_ngt, <- Qc_ltb_lt. destruct (Qc_ltb a b); split; congruence.
Qed.

Lemma Qc_leb_le a b : Qc_leb a b = true ↔ (a ≤ b)%Qc.
Proof.
  unfold Qc_leb. rewrite Qcle_alt.
  destruct (a ?= b)%Qc; split; congruence.
Qed.

Lemma Qc_of_nat_pos n : (0 < n)%nat → Qc_is_zero (Qc_of_nat n) = false.
Proof.
  intros Hn. apply Qc_is_zero_false. intros H.
  apply Q2Qc_eq_iff in H. unfold Qeq in H. simpl in H. lia.
Qed.

Lemma tsub_diag q : tsub (Fin q) (Fin q) = tzero.
Proof. unfold tsub, tzero. simpl. f_equal. apply Qcplus_opp_r. Qed.

Lemma tadd_zero_l a : tadd tzero a = a.
Proof. destruct a; simpl; try reflexivity. f_equal. apply Qcplus_0_l. Qed.

Lemma tabs_zero : tabs tzero = tzero.
Proof. reflexivity. Qed.

Lemma tdiv_zero_fin q : Qc_is_zero q = false → tdiv tzero (Fin q) = tzero.
Proof.
  intros H. unfold tdiv, tzero. rewrite H. f_equal.
  unfold Qcdiv. apply Qcmult_0_l.
Qed.

Lemma is_fin_tmin a b : is_fin a → is_fin b → is_fin (tmin a b).
Proof. intros [p ->] [q ->]. unfold tmin. destruct (tltb _ _); eexists; eauto. Qed.

Lemma is_fin_tmax a b : is_fin a → is_fin b → is_fin (tmax a b).
Proof. intros [p ->] [q ->]. unfold tmax. destruct (tltb _ _); eexists; eauto. Qed.

Lemma is_fin_tsub a b : is_fin a → is_fin b → is_fin (tsub a b).
Proof. intros [p ->] [q ->]. eexists; reflexivity. Qed.

Lemma is_fin_tadd a b : is_fin a → is_fin b → is_fin (tadd a b).
Proof. intros [p ->] [q ->]. eexists; reflexivity. Qed.

Lemma is_fin_tmul a b : is_fin a → is_fin b → is_fin (tmul a b).
Proof. intros [p ->] [q ->]. eexists; reflexivity. Qed.

Lemma Forall_zip_with_fin (f : tval → tval → tval) u v :
  (∀ a b, is_fin a → is_fin b → is_fin (f a b)) →
  Forall is_fin u → Forall is_fin v → Forall is_fin (zip_with f u v).
Proof.
  intros Hf Hu. revert v. induction Hu; intros v Hv; simpl; [constructor|].
  destruct Hv; constructor; auto.
Qed.

Lemma fold_zip_with_fin (f : tval → tval → tval) m r :
  (∀ a b, is_fin a → is_fin b → is_fin (f a b)) →
  all_fin m → Forall is_fin r → Forall is_fin (fold_left (zip_with f) m r).
Proof.
  intros Hf Hm. revert r. induction Hm; intros r Hr; simpl; [done|].
  apply IHHm. by apply Forall_zip_with_fin.
Qed.

Lemma min_dim0_fin m a : all_fin m → min_dim0 m = Some a → Forall is_fin a.
Proof.
  destruct 1; simpl; intros [= <-]. apply fold_zip_with_fin; auto using is_fin_tmin.
Qed.

Lemma max_dim0_fin m a : all_fin m → max_dim0 m = Some a → Forall is_fin a.
Proof.
  destruct 1; simpl; intros [= <-]. apply fold_zip_with_fin; auto using is_fin_tmax.
Qed.

Lemma vsum_zeros n : vsum (replicate n tzero) = tzero.
Proof.
  unfold vsum. induction n; [done|].
  cbn [replicate fold_left]. by rewrite tadd_zero_l.
Qed.

Lemma vsum_fin_from v a : Forall is_fin v → is_fin a → is_fin (fold_left tadd v a).
Proof.
  intros Hv. revert a. induction Hv; intros b Hb; simpl; [done|].
  apply IHHv. by apply is_fin_tadd.
Qed.

Lemma vsum_fin v : Forall is_fin v → is_fin (vsum v).
Proof. intros Hv. apply vsum_fin_from; [done|]. by exists (Q2Qc 0). Qed.

Lemma dot_fin u v : Forall is_fin u → Forall is_fin v → is_fin (dot u v).
Proof.
  intros Hu Hv. apply vsum_fin. apply Forall_zip_with_fin; auto using is_fin_tmul.
Qed.

Lemma eye_row_length d r : r ∈ eye d → length r = d.
Proof.
  unfold eye. intros [i [-> _]]%list_elem_of_fmap.
  by rewrite length_map, length_seq.
Qed.

Lemma eye_fin d : all_fin (eye d).
Proof.
  apply Forall_forall. intros r [i [-> _]]%list_elem_of_fmap.
  apply Forall_forall. intros a [j [-> _]]%list_elem_of_fmap.
  case_decide; eexists; reflexivity.
Qed.

Lemma column_fin j d m :
  (j < d)%nat → all_fin m → Forall (fun r => length r = d) m → Forall is_fin (column j m).
Proof.
  intros Hj Hm Hl. unfold column, all_fin in *. apply Forall_fmap.
  apply Forall_forall. intros r Hr. simpl.
  rewrite Forall_forall in Hm, Hl. specialize (Hm r Hr). specialize (Hl r Hr).
  rewrite Forall_forall in Hm. apply Hm.
  apply list_elem_of_In, nth_In. lia.
Qed.

Lemma ncols_eye d : ncols (eye d) = d.
Proof.
  unfold ncols, eye. destruct d; [done|].
  simpl. by rewrite length_map, length_seq.
Qed.

Lemma matmul_eye_fin a d : all_fin a → all_fin (matmul a (eye d)).
Proof.
  intros Ha. unfold matmul. apply Forall_fmap.
  eapply Forall_impl; [exact Ha|]. intros r Hr. simpl.
  apply Forall_fmap. rewrite ncols_eye. unfold columns.
  apply Forall_fmap. apply Forall_forall. intros j Hj%list_elem_of_In%in_seq. simpl.
  apply dot_fin; [done|].
  apply (column_fin j d); [lia|apply eye_fin|].
  apply Forall_forall. apply eye_row_length.
Qed.

Lemma length_matmul a b : length (matmul a b) = length a.
Proof. unfold matmul. by rewrite length_map. Qed.

(** ** ErrorEstimation *)

Section ErrorEstimationProperties.
Context `{Ext : External}.

Lemma zip_with_same {A B} (f : A → A → B) (l : list A) :
  zip_with f l l = map (fun a => f a a) l.
Proof. induction l; simpl; congruence. Qed.

Lemma zip_with_tsub_same r :
  Forall is_fin r → zip_with tsub r r = replicate (length r) tzero.
Proof.
  induction 1 as [|a r [q ->] _ IH]; cbn [zip_with length replicate]; [done|].
  by rewrite tsub_diag, IH.
Qed.

(** With a finite range vector, a zero difference divided by the range and
    then zeroed where the range is zero is zero everywhere. *)
Lemma zeroed_row n dl :
  Forall is_fin dl →
  zip_with (fun v d => if teqb d tzero then tzero else v)
           (zip_with tdiv (replicate n tzero) dl) dl
  = replicate (min n (length dl)) tzero.
Proof.
  intros Hd. revert n. induction Hd as [|d dl [q ->] _ IH]; intros [|n]; simpl; try done.
  rewrite IH. f_equal.
  unfold teqb, tzero, tdiv.
  destruct (Qc_is_zero q) eqn:Hq.
  - apply Qc_is_zero_true in Hq. subst q. reflexivity.
  - change (Qc_is_zero (Q2Qc 0)) with true. cbn iota.
    destruct (q ?= Q2Qc 0)%Qc; [reflexivity| |]; f_equal; apply Qcmult_0_l.
Qed.

Lemma norm1_zeros n : norm1 (replicate n tzero) = tzero.
Proof.
  unfold norm1. rewrite <- (vsum_zeros n) at 2. f_equal.
  induction n; [done|]. cbn [replicate map]. by rewrite IHn, tabs_zero.
Qed.

(** Before the zeroing, an entry at a dimension of zero range is [NaN]. *)
Lemma scaled_difference_nan gcm dl r j v :
  all_fin gcm → r ∈ scaled_difference gcm gcm dl →
  dl !! j = Some tzero → r !! j = Some v → v = NaN.
Proof.
  intros Hg Hr Hd Hv. unfold scaled_difference in Hr.
  rewrite zip_with_same in Hr. apply list_elem_of_fmap in Hr as [r0 [-> Hr0]].
  unfold all_fin in Hg. rewrite Forall_forall in Hg. specialize (Hg r0 Hr0).
  rewrite zip_with_tsub_same in Hv by done.
  apply lookup_zip_with_Some in Hv as (a & d & -> & Ha & Hd').
  apply lookup_replicate in Ha as [-> _].
  assert (Some d = Some tzero) as [= ->] by (etrans; [symmetry; exact Hd'|exact Hd]).
  reflexivity.
Qed.

Lemma node_errors_zero gcm dl nf (xs : fmat) :
  all_fin gcm → Forall is_fin dl → (0 < nf)%nat →
  map (fun r => tdiv (norm1 r) (Fin (Qc_of_nat nf)))
      (zero_where_no_range (scaled_difference gcm gcm dl) dl)
  = replicate (length gcm) tzero
  ∧ Forall (Forall (fun v => v = tzero))
           (zero_where_no_range (scaled_difference gcm gcm dl) dl).
Proof.
  intros Hg Hd Hn. unfold zero_where_no_range, scaled_difference.
  rewrite zip_with_same. induction Hg as [|r gcm Hr Hg [IH1 IH2]]; simpl; [done|].
  rewrite zip_with_tsub_same by done. rewrite zeroed_row by done.
  split.
  - rewrite IH1. f_equal. rewrite norm1_zeros.
    apply tdiv_zero_fin. by apply Qc_of_nat_pos.
  - constructor; [|done]. apply Forall_forall.
    by intros v [-> _]%elem_of_replicate.
Qed.

(** C5. When the current attributes of the dataset are the pristine
    attributes given at construction (a finite, non-empty matrix with at least
    one column), the estimator is constructed, the diffusion recomputed by
    [run] is the cached ground truth, the scaled difference is [NaN] at the
    dimensions of zero range before line 33 and zero everywhere after it, and
    the error of every node is 0. The imported convolution is assumed to
    return a finite matrix with as many rows as its input. *)
Theorem unperturbed_error_is_zero (data : Graph.t) (raw : fmat) (q : Qc) :
  (∀ na m, all_fin m → all_fin (gcn_propagate na m)) →
  (∀ na m, length (gcn_propagate na m) = length m) →
  Graph.x data = raw → raw ≠ [] → all_fin raw →
  (0 < Graph.num_features data)%nat →
  ∃ est,
    ErrorEstimation_init data raw q = Some est
    ∧ fst (GCNConv_forward (model est) (Graph.x data) (Graph.edge_index data)) = gc est
    ∧ (∀ r j v, r ∈ scaled_difference (gc est) (gc est) (delta est) →
                delta est !! j = Some tzero → r !! j = Some v → v = NaN)
    ∧ Forall (Forall (fun v => v = tzero))
             (zero_where_no_range
                (scaled_difference (gc est) (gc est) (delta est)) (delta est))
    ∧ node_errors est data = replicate (length raw) tzero.
Proof.
  intros Hfin Hlen Hx Hne Hraw Hnf. subst raw.
  unfold ErrorEstimation_init.
  destruct (min_dim0 _) as [alpha|] eqn:Ha;
    [|destruct (Graph.x data); [congruence|discriminate]].
  destruct (max_dim0 _) as [beta|] eqn:Hb;
    [|destruct (Graph.x data); [congruence|discriminate]].
  cbn [mbind option_bind GCNConv_forward cached weight]. eexists. split; [reflexivity|].
  set (gcm := gcn_propagate _ _).
  assert (Hg : all_fin gcm).
  { apply Hfin. by apply matmul_eye_fin. }
  assert (Hd : Forall is_fin (zip_with tsub beta alpha)).
  { apply Forall_zip_with_fin; eauto using is_fin_tsub, min_dim0_fin, max_dim0_fin. }
  unfold node_errors. cbn [model gc delta GCNConv_forward cached weight fst].
  fold gcm.
  split; [reflexivity|].
  split; [intros r j v; by apply scaled_difference_nan|].
  destruct (node_errors_zero gcm (zip_with tsub beta alpha)
              (Graph.num_features data) (Graph.x data) Hg Hd Hnf) as [H1 H2].
  split; [exact H2|].
  rewrite H1. f_equal. unfold gcm. by rewrite Hlen, length_matmul.
Qed.

End ErrorEstimationProperties.

(** The concrete convolution meets the two assumptions made on the imported
    one. *)
Lemma demo_propagate_length na (m : fmat) : length (Demo.propagate na m) = length m.
Proof. unfold Demo.propagate. apply length_imap. Qed.

Lemma demo_propagate_fin na (m : fmat) : all_fin m → all_fin (Demo.propagate na m).
Proof.
  intros Hm. unfold Demo.propagate, all_fin.
  apply Forall_forall. intros r Hr.
  apply list_elem_of_lookup in Hr as [i Hi].
  rewrite list_lookup_imap in Hi.
  apply fmap_Some in Hi as (r0 & _ & ->).
  generalize (map fst (filter (λ e : nat * nat, e.2 = i) na)). intros srcs.
  assert (Hinit : Forall is_fin (replicate (ncols m) tzero)).
  { apply Forall_forall. intros v [-> _]%elem_of_replicate. by exists (Q2Qc 0). }
  revert Hinit. generalize (replicate (ncols m) tzero).
  induction srcs as [|j srcs IH]; intros acc Hacc; simpl; [done|].
  apply IH. apply Forall_zip_with_fin; auto using is_fin_tadd.
  destruct (nth_in_or_default j m []) as [Hin| ->]; [|constructor].
  unfold all_fin in Hm. rewrite Forall_forall in Hm. apply Hm.
  by apply list_elem_of_In.
Qed.

Section ErrorEstimationExamples.
Local Existing Instance Demo.ext.

Lemma unperturbed_error_is_zero_witness :
  ∃ est,
    ErrorEstimation_init Demo.cycle5 Demo.cycle5_x default_max_degree_quantile = Some est
    ∧ node_errors est Demo.cycle5 = replicate 5 tzero.
Proof.
  destruct (unperturbed_error_is_zero
              Demo.cycle5 Demo.cycle5_x default_max_degree_quantile)
    as (est & H1 & _ & _ & _ & H2).
  - intros na m. apply demo_propagate_fin.
  - intros na m. apply demo_propagate_length.
  - reflexivity.
  - discriminate.
  - repeat (constructor; [repeat (constructor; [eexists; reflexivity|]); constructor|]).
    constructor.
  - vm_compute. lia.
  - exists est. split; [exact H1|exact H2].
Defined.

End ErrorEstimationExamples.

Section DegreeBuckets.
Context `{Ext : External}.

Lemma length_node_errors est data :
  (∀ na m, length (gcn_propagate na m) = length m) →
  length (gc est) = length (Graph.x data) →
  length (node_errors est data) = length (Graph.x data).
Proof.
  intros Hlen Hgc. unfold node_errors, GCNConv_forward.
  rewrite length_map. unfold zero_where_no_range. rewrite length_map.
  unfold scaled_difference. rewrite length_zip_with.
  rewrite Hlen, length_matmul. lia.
Qed.

(** C4, as amended. On the cycle of five nodes, whatever the attributes are,
    [run] with the quantile 0.99 reports no degree bucket: the five degrees
    are 2, their 0.99-quantile is 2, and line 41 keeps the nodes whose degree
    is strictly below the quantile. The imported convolution is assumed to
    return as many rows as its input has. *)
Theorem cycle5_reports_no_bucket (xv : fmat) :
  (∀ na m, length (gcn_propagate na m) = length m) →
  length xv = 5%nat →
  estimate (Graph.mk xv Demo.cycle5_edges 5) xv default_max_degree_quantile = Some [].
Proof.
  intros Hlen Hx. unfold estimate, ErrorEstimation_init.
  destruct (min_dim0 xv) as [alpha|] eqn:Ha; [|destruct xv; discriminate].
  destruct (max_dim0 xv) as [beta|] eqn:Hb; [|destruct xv; discriminate].
  cbn [mbind option_bind GCNConv_forward cached weight].
  unfold ErrorEstimation_run.
  match goal with |- context [node_errors ?e ?d] =>
    pose proof (length_node_errors e d Hlen) as He;
    destruct (node_errors e d) as [|e1 [|e2 [|e3 [|e4 [|e5 [|e6 errs]]]]]]
  end;
  cbn [gc Graph.x] in He; rewrite Hlen, length_matmul, Hx in He;
  specialize (He eq_refl); try discriminate He.
  reflexivity.
Qed.

End DegreeBuckets.

Section DegreeBucketsExamples.
Local Existing Instance Demo.ext.

Lemma cycle5_reports_no_bucket_witness :
  estimate Demo.cycle5 Demo.cycle5_x default_max_degree_quantile = Some [].
Proof.
  apply (cycle5_reports_no_bucket Demo.cycle5_x).
  - intros na m. apply demo_propagate_length.
  - reflexivity.
Defined.

(** C4 as stated fails: with the attributes unperturbed, the report on the
    cycle of five nodes is empty, not the single bucket of degree 2. *)
Lemma cycle5_single_bucket_counterexample :
  estimate Demo.cycle5 (Graph.x Demo.cycle5) default_max_degree_quantile = Some []
  ∧ estimate Demo.cycle5 (Graph.x Demo.cycle5) default_max_degree_quantile
    ≠ Some [(2%nat, tzero, tzero)]
  ∧ degree (fst (Graph.edge_index Demo.cycle5)) 5 = [2; 2; 2; 2; 2]%nat
  ∧ tltb (Fin (Qc_of_nat 2))
         (quantile default_max_degree_quantile
                   (degree (fst (Graph.edge_index Demo.cycle5)) 5))
    = false.
Proof.
  assert (H : estimate Demo.cycle5 (Graph.x Demo.cycle5) default_max_degree_quantile
              = Some [])
    by (vm_compute; reflexivity).
  split; [exact H|]. split; [rewrite H; discriminate|].
  split; vm_compute; reflexivity.
Qed.

End DegreeBucketsExamples.

(** ** Normalize *)

Section NormalizeProperties.














End NormalizeProperties.

Section NormalizeExamples.



(** The constant third column of the example is dropped; two columns stay. *)
Example Normalize_drops_constant_column :
  ∃ m, Normalize_call (Normalize_init F64.zero F64.one) Demo.x32 = Some (T2 m)
       ∧ Forall (fun r => length r = 2%nat) m.
Proof. eexists. split; [vm_compute; reflexivity|]. repeat constructor. Qed.

(** With a single column of non-zero range the result is a vector. *)
Example Normalize_single_column :
  ∃ v, Normalize_call (Normalize_init F64.zero F64.one)
         [[Demo.sz 1; Demo.sz 5]; [Demo.sz 3; Demo.sz 5]] = Some (T1 v)
       ∧ length v = 2%nat.
Proof. eexists. split; vm_compute; reflexivity. Qed.

End NormalizeExamples.

(** ** Masks *)

Section MaskProperties.
Context {A : Type}.

Lemma count_true_cons b m :
  count_true (b :: m) = ((if b then 1 else 0) + count_true m)%nat.
Proof.
  unfold count_true. rewrite filter_cons. destruct b; by case_decide.
Qed.

Lemma count_true_zeros n : count_true (zeros_bool n) = 0%nat.
Proof.
  induction n; [done|]. unfold zeros_bool in *. cbn [replicate].
  by rewrite count_true_cons, IHn.
Qed.

Lemma count_true_insert (v : list bool) i :
  v !! i = Some false → count_true (<[i := true]> v) = S (count_true v).
Proof.
  revert i. induction v as [|b v IH]; intros [|i] Hi; simpl in Hi; try done.
  - injection Hi as ->. cbn [insert list_insert]. by rewrite !count_true_cons.
  - cbn [insert list_insert]. fold (@insert nat bool (list bool) _ i true v).
    rewrite !count_true_cons, IH by done. lia.
Qed.

Lemma length_index_fill (idx : list nat) (c : A) (v : list A) :
  length (index_fill idx c v) = length v.
Proof.
  unfold index_fill. revert v. induction idx as [|i idx IH]; intros v; simpl; [done|].
  by rewrite IH, length_insert.
Qed.

Lemma length_scatter_by (mask : list bool) (vals v : list A) :
  length (scatter_by mask vals v) = length v.
Proof.
  revert vals v. induction mask as [|b mask IH]; intros vals [|a v]; simpl; try done.
  destruct b; [destruct vals|]; simpl; by rewrite IH.
Qed.

(** A masked assignment leaves the positions outside the mask alone. *)
Lemma scatter_by_outside (mask : list bool) (vals v : list A) i :
  mask !! i = Some false → scatter_by mask vals v !! i = v !! i.
Proof.
  revert vals v i. induction mask as [|b mask IH]; intros vals [|a v] [|i] Hi;
    simpl in *; try done.
  - injection Hi as ->. done.
  - destruct b; [destruct vals|]; simpl; by apply IH.
Qed.

End MaskProperties.

Lemma index_fill_true (idx : list nat) (v : list bool) k :
  index_fill idx true v !! k = Some true
  ↔ (k ∈ idx ∧ (k < length v)%nat) ∨ v !! k = Some true.
Proof.
  unfold index_fill. revert v. induction idx as [|i idx IH]; intros v; simpl.
  - split; [by right|]. intros [[H _]|H]; [by apply elem_of_nil in H|done].
  - rewrite IH, length_insert. split.
    + intros [[Hk Hlt]|Hk].
      * left. split; [by right|done].
      * destruct (decide (i = k)) as [->|Hne].
        -- left. split; [by left|]. by apply lookup_lt_Some in Hk; rewrite length_insert in Hk.
        -- rewrite list_lookup_insert_ne in Hk by done. by right.
    + intros [[Hk Hlt]|Hk].
      * apply elem_of_cons in Hk as [->|Hk]; [|by left].
        right. by apply list_lookup_insert_eq.
      * destruct (decide (i = k)) as [->|Hne].
        -- right. apply list_lookup_insert_eq. by apply lookup_lt_Some in Hk.
        -- right. by rewrite list_lookup_insert_ne.
Qed.

Lemma index_fill_zeros_true (idx : list nat) n k :
  index_fill idx true (zeros_bool n) !! k = Some true ↔ k ∈ idx ∧ (k < n)%nat.
Proof.
  rewrite index_fill_true. unfold zeros_bool. rewrite length_replicate.
  split; [|by left]. intros [H|H]; [done|].
  by apply lookup_replicate in H as [? _].
Qed.

Lemma count_true_index_fill (idx : list nat) (v : list bool) :
  NoDup idx → (∀ i, i ∈ idx → v !! i = Some false) →
  count_true (index_fill idx true v) = (count_true v + length idx)%nat.
Proof.
  unfold index_fill. intros Hnd. revert v.
  induction Hnd as [|i idx Hi Hnd IH]; intros v Hv; simpl; [lia|].
  rewrite IH.
  - rewrite count_true_insert by (apply Hv; by left). lia.
  - intros j Hj. rewrite list_lookup_insert_ne by (intros ->; done).
    apply Hv. by right.
Qed.

Lemma count_true_index_fill_zeros (idx : list nat) n :
  NoDup idx → (∀ i, i ∈ idx → (i < n)%nat) →
  count_true (index_fill idx true (zeros_bool n)) = length idx.
Proof.
  intros Hnd Hlt. rewrite count_true_index_fill; [by rewrite count_true_zeros|done|].
  intros i Hi. unfold zeros_bool. apply lookup_replicate. split; [done|]. by apply Hlt.
Qed.

(** A position written by a masked assignment into zeros is selected by the
    mask and receives the value of its rank. *)
Lemma scatter_by_zeros_true (mask vals : list bool) n i :
  scatter_by mask vals (zeros_bool n) !! i = Some true →
  mask !! i = Some true ∧ vals !! mask_rank mask i = Some true.
Proof.
  unfold zeros_bool, mask_rank.
  revert vals n i. induction mask as [|b mask IH]; intros vals [|n] [|i] H;
    cbn [scatter_by replicate] in H; try done.
  all: try (by apply (lookup_replicate_1 (S n)) in H as [? _]).
  - destruct b; [destruct vals as [|c vals]|]; simpl in H; done.
  - destruct b; [destruct vals as [|c vals]|]; simpl in H.
    + apply (IH [] n i) in H as [_ H]. by rewrite lookup_nil in H.
    + apply IH in H as [H1 H2]. split; [done|].
      cbn [take]. by rewrite count_true_cons.
    + apply IH in H as [H1 H2]. split; [done|].
      cbn [take]. by rewrite count_true_cons.
Qed.

Lemma count_true_scatter_by (mask vals : list bool) :
  length vals = count_true mask →
  count_true (scatter_by mask vals (zeros_bool (length mask))) = count_true vals.
Proof.
  unfold zeros_bool.
  revert vals. induction mask as [|b mask IH]; intros vals Hl.
  - destruct vals; [done|]. by rewrite count_true_cons in Hl || simpl in Hl.
  - rewrite count_true_cons in Hl. cbn [length replicate scatter_by].
    destruct b.
    + destruct vals as [|c vals]; [simpl in Hl; lia|].
      rewrite !count_true_cons. rewrite IH; [done|]. simpl in Hl. lia.
    + rewrite count_true_cons. simpl. apply IH. simpl in Hl. lia.
Qed.

(** ** NodeSplit *)

Section SliceProperties.
Context {A : Type}.

Lemma py_slice_nonneg (l : list A) (a b : Z) :
  (0 ≤ a)%Z → (0 ≤ b)%Z →
  py_slice l a b
  = segment l (Z.to_nat (Z.min a (Z.of_nat (length l))))
              (Z.to_nat (Z.min b (Z.of_nat (length l)))).
Proof.
  intros Ha Hb. unfold py_slice, py_bound, segment.
  destruct (Z.ltb_spec a 0); [lia|]. destruct (Z.ltb_spec b 0); [lia|].
  f_equal. lia.
Qed.

Lemma segment_lookup (l : list A) p q k x :
  segment l p q !! k = Some x ↔ (k < q - p)%nat ∧ l !! (p + k)%nat = Some x.
Proof.
  unfold segment. rewrite lookup_take_Some, lookup_drop. tauto.
Qed.

Lemma segment_elem (l : list A) p q x :
  x ∈ segment l p q ↔ ∃ i, (p ≤ i < q)%nat ∧ l !! i = Some x.
Proof.
  rewrite list_elem_of_lookup. split.
  - intros [k [Hk Hx]%segment_lookup]. exists (p + k)%nat. split; [lia|done].
  - intros (i & Hi & Hx). exists (i - p)%nat. apply segment_lookup.
    split; [lia|]. by replace (p + (i - p))%nat with i by lia.
Qed.

Lemma length_segment (l : list A) p q :
  (q ≤ length l)%nat → length (segment l p q) = (q - p)%nat.
Proof. intros Hq. unfold segment. rewrite length_take, length_drop. lia. Qed.

Lemma NoDup_segment (l : list A) p q : NoDup l → NoDup (segment l p q).
Proof.
  intros Hl. unfold segment.
  eapply sublist_NoDup; [|apply sublist_take].
  eapply sublist_NoDup; [done|apply sublist_drop].
Qed.

Lemma segment_disjoint (l : list A) p q r s x :
  NoDup l → (q ≤ r)%nat → x ∈ segment l p q → x ∈ segment l r s → False.
Proof.
  intros Hl Hqr (i & Hi & Hx)%segment_elem (j & Hj & Hy)%segment_elem.
  pose proof (NoDup_lookup l i j x Hl Hx Hy). lia.
Qed.

End SliceProperties.

Lemma Qc_of_nat_nonneg n : (Q2Qc 0 ≤ Qc_of_nat n)%Qc.
Proof.
  unfold Qcle, Qc_of_nat. change (this (Q2Qc 0)) with 0%Q. cbn [this Q2Qc].
  rewrite Qred_correct. unfold Qle. cbn [Qnum Qden inject_Z]. lia.
Qed.

Lemma Qcmult_nonneg (a b : Qc) : (Q2Qc 0 ≤ a)%Qc → (Q2Qc 0 ≤ b)%Qc → (Q2Qc 0 ≤ a * b)%Qc.
Proof.
  unfold Qcle, Qcmult. change (this (Q2Qc 0)) with 0%Q. cbn [this Q2Qc].
  rewrite !Qred_correct. intros Ha Hb. by apply Qmult_le_0_compat.
Qed.

(** *** The integer part of a product of floats *)

(** Rounding keeps the sign. *)
Lemma binary_round_aux_sign prec emax sx mx ex lx :
  match binary_round_aux prec emax sx mx ex lx with
  | S754_zero s | S754_infinity s | S754_finite s _ _ => s = sx
  | S754_nan => True
  end.
Proof.
  unfold binary_round_aux.
  destruct (shr_fexp prec emax mx ex lx) as [mrs' e'].
  destruct (shr_fexp prec emax _ e' loc_Exact) as [mrs'' e''].
  destruct (shr_m mrs''); [done| |done].
  by destruct (e'' <=? emax - prec)%Z.
Qed.

Lemma binary_round_sign prec emax sx mx ex :
  match binary_round prec emax sx mx ex with
  | S754_zero s | S754_infinity s | S754_finite s _ _ => s = sx
  | S754_nan => True
  end.
Proof.
  unfold binary_round. destruct (shl_align mx ex _) as [mz ez].
  apply binary_round_aux_sign.
Qed.

(** A float is not negative: [0 <= x]. *)
Lemma SFleb_zero_sign x :
  SFleb F64.zero x = true →
  match x with
  | S754_zero _ => True
  | S754_infinity s | S754_finite s _ _ => s = false
  | S754_nan => False
  end.
Proof. destruct x as [s|[|]| |[|] m e]; cbn; done. Qed.

Lemma SFltb_SFleb_zero x : SFltb F64.zero x = true → SFleb F64.zero x = true.
Proof. destruct x as [s|[|]| |[|] m e]; cbn; done. Qed.

Lemma trunc_nonneg x z :
  match x with
  | S754_zero _ => True
  | S754_infinity s | S754_finite s _ _ => s = false
  | S754_nan => True
  end →
  trunc x = Some z → (0 ≤ z)%Z.
Proof.
  destruct x as [s|s| |s m e]; cbn [trunc]; try done.
  - by intros _ [= <-].
  - intros -> [= <-]. cbn [cond_Zopp].
    destruct (0 <=? e)%Z eqn:He.
    + apply Z.leb_le in He. apply Z.mul_nonneg_nonneg; [lia|]. by apply Z.pow_nonneg.
    + apply Z.leb_gt in He. apply Z.div_pos; [lia|]. apply Z.pow_pos_nonneg; lia.
Qed.

(** For a ratio that is not negative, [int(r * n)] is not negative. *)
Lemma int_of_ratio_nonneg (r : spec_float) (n : nat) z :
  SFleb F64.zero r = true → int_of_ratio r n = Some z → (0 ≤ z)%Z.
Proof.
  intros Hr%SFleb_zero_sign. unfold int_of_ratio. apply trunc_nonneg.
  assert (Hn : match F64.of_Z (Z.of_nat n) with
               | S754_zero s | S754_infinity s | S754_finite s _ _ => s = false
               | S754_nan => True
               end).
  { unfold F64.of_Z, F64.make, binary_normalize.
    destruct (Z.of_nat n) eqn:E; [done| |lia]. apply binary_round_sign. }
  unfold F64.mul, SFmul.
  destruct r as [s|s| |s m e], (F64.of_Z (Z.of_nat n)) as [s'|s'| |s' m' e'];
    try done; subst; try done.
  pose proof (binary_round_aux_sign F64.prec F64.emax (xorb false false)
                (Z.pos (m * m')) (e + e') loc_Exact) as H.
  by destruct (binary_round_aux _ _ _ _ _ _).
Qed.

Lemma Permutation_seq_facts (perm : list nat) n :
  Permutation perm (seq 0 n) →
  NoDup perm ∧ length perm = n ∧ ∀ i, i ∈ perm → (i < n)%nat.
Proof.
  intros Hp. split; [|split].
  - rewrite Hp. apply NoDup_ListNoDup, seq_NoDup.
  - by rewrite Hp, length_seq.
  - intros i Hi. rewrite Hp in Hi. apply list_elem_of_In, in_seq in Hi. lia.
Qed.

Lemma scattered_mask (nwc : list bool) (idx : list nat) N :
  length nwc = N → NoDup idx → (∀ i, i ∈ idx → (i < count_true nwc)%nat) →
  ∃ m, masked_assign nwc (index_fill idx true (zeros_bool (count_true nwc)))
                     (zeros_bool N) = Some m
       ∧ length m = N
       ∧ count_true m = length idx
       ∧ ∀ i, m !! i = Some true → nwc !! i = Some true ∧ mask_rank nwc i ∈ idx.
Proof.
  intros Hn Hnd Hlt. unfold masked_assign.
  assert (Hz : length (zeros_bool N) = N) by apply length_replicate.
  rewrite decide_True by lia.
  rewrite decide_True
    by (rewrite length_index_fill; apply length_replicate).
  eexists. split; [reflexivity|]. split; [by rewrite length_scatter_by|].
  split.
  - rewrite <- Hn, count_true_scatter_by
      by (rewrite length_index_fill; apply length_replicate).
    by apply count_true_index_fill_zeros.
  - intros i [H1 H2]%scatter_by_zeros_true. split; [done|].
    by apply index_fill_zeros_true in H2 as [? _].
Qed.

Lemma length_nodes_with_class N labels nwc :
  (∀ yv, labels = y_tensor yv → length yv = N) →
  nodes_with_class N labels = Some nwc → length nwc = N.
Proof.
  intros Hl. unfold nodes_with_class. destruct labels as [| |yv]; [|done|]; intros [= <-].
  - apply length_replicate.
  - case_decide; [|apply length_replicate]. rewrite length_map. by apply Hl.
Qed.

(** The eligible nodes are the nodes whose label is not the sentinel. *)
Lemma nodes_with_class_labelled N yv nwc i c :
  nodes_with_class N (y_tensor yv) = Some nwc →
  nwc !! i = Some true → yv !! i = Some c → c ≠ (-1)%Z.
Proof.
  unfold nodes_with_class. intros [= <-]. case_decide as Hin.
  - intros H Hc. rewrite list_lookup_fmap, Hc in H. simpl in H.
    injection H as H. apply negb_true_iff, Z.eqb_neq in H. done.
  - intros _ Hc ->. apply Hin. by eapply list_elem_of_lookup_2.
Qed.

Lemma count_nodes_with_class N yv nwc :
  length yv = N →
  nodes_with_class N (y_tensor yv) = Some nwc →
  count_true nwc = length (filter (fun c => c ≠ (-1)%Z) yv).
Proof.
  intros Hl. unfold nodes_with_class. intros [= <-]. case_decide as Hin.
  - clear. induction yv as [|c yv IH]; [done|].
    cbn [map]. rewrite count_true_cons, filter_cons, IH.
    destruct (Z.eqb_spec c (-1)); case_decide; simpl; congruence.
  - subst N. clear -Hin. induction yv as [|c yv IH]; [done|].
    cbn [length replicate]. rewrite count_true_cons, filter_cons.
    rewrite decide_True by (intros ->; apply Hin; by left).
    simpl. f_equal. apply IH. intros H. apply Hin. by right.
Qed.

Section NodeSplitProperties.
Context `{Ext : External}.

Lemma NodeSplit_init_ratios tr va te rs self :
  NodeSplit_init tr va te rs = Some self →
  SFltb F64.zero (train_ratio self) = true ∧ val_ratio self = va ∧ test_ratio self = te.
Proof.
  unfold NodeSplit_init. destruct (SFltb _ _) eqn:H; [|done].
  intros [= <-]. done.
Qed.

(** C7, as amended. The ratios are Python floats and the dataset's [y] is a
    tensor or absent. For a split constructed with ratios of validation and
    test that are not negative (the ratio of training is positive by the
    assertion of the constructor) and three products [ratio * n] that are
    finite, the call returns three masks of length [N]; they are pairwise
    disjoint; every node in a mask is eligible, that is, its label is not the
    sentinel; with [n] the number of eligible nodes and [nt], [nv], [ne] the
    three values of [int(ratio * n)] (the product rounded to double precision,
    then truncated), the train mask has [min(nt, n)] nodes, the val mask [nv]
    nodes or as many as train leaves, the test mask [ne] nodes or as many as
    train and val leave. The three sizes are [nt], [nv] and [ne] whenever these
    add up to at most [n]. *)
Theorem NodeSplit_masks (tr : option spec_float) (va te : spec_float) (rs : option Z)
    (self : NodeSplit) (g : Gen) (N : nat) (labels : y_attr) (nwc : list bool)
    (nt nv ne : Z) :
  (∀ g0 n, Permutation (fst (torch_randperm g0 n)) (seq 0 n)) →
  NodeSplit_init tr va te rs = Some self →
  SFleb F64.zero va = true → SFleb F64.zero te = true →
  (∀ yv, labels = y_tensor yv → length yv = N) →
  nodes_with_class N labels = Some nwc →
  int_of_ratio (train_ratio self) (count_true nwc) = Some nt →
  int_of_ratio va (count_true nwc) = Some nv →
  int_of_ratio te (count_true nwc) = Some ne →
  ∃ masks self' g',
    NodeSplit_call self g N labels = Some (masks, self', g')
    ∧ let n := count_true nwc in
      (length (m_train masks) = N ∧ length (m_val masks) = N
       ∧ length (m_test masks) = N)
      ∧ (∀ i, ¬ (m_train masks !! i = Some true ∧ m_val masks !! i = Some true))
      ∧ (∀ i, ¬ (m_train masks !! i = Some true ∧ m_test masks !! i = Some true))
      ∧ (∀ i, ¬ (m_val masks !! i = Some true ∧ m_test masks !! i = Some true))
      ∧ (∀ i, m_train masks !! i = Some true ∨ m_val masks !! i = Some true
              ∨ m_test masks !! i = Some true →
              nwc !! i = Some true
              ∧ ∀ yv c, labels = y_tensor yv → yv !! i = Some c → c ≠ (-1)%Z)
      ∧ (∀ yv, labels = y_tensor yv → n = length (filter (fun c => c ≠ (-1)%Z) yv))
      ∧ Z.of_nat (count_true (m_train masks)) = Z.min nt (Z.of_nat n)
      ∧ Z.of_nat (count_true (m_val masks))
        = Z.min nv (Z.of_nat n - Z.of_nat (count_true (m_train masks)))
      ∧ Z.of_nat (count_true (m_test masks))
        = Z.min ne (Z.of_nat n - Z.of_nat (count_true (m_train masks))
                    - Z.of_nat (count_true (m_val masks)))
      ∧ ((nt + nv + ne ≤ Z.of_nat n)%Z →
         Z.of_nat (count_true (m_train masks)) = nt
         ∧ Z.of_nat (count_true (m_val masks)) = nv
         ∧ Z.of_nat (count_true (m_test masks)) = ne).
Proof.
  intros Hperm Hinit Hva Hte Hlab Hnwc Ent Env Ene.
  destruct (NodeSplit_init_ratios _ _ _ _ _ Hinit) as (Htr & Hv & Ht).
  apply SFltb_SFleb_zero in Htr.
  unfold NodeSplit_call. rewrite Hnwc. cbn [mbind option_bind].
  rewrite Hv, Ht, Ent, Env, Ene. cbn [mbind option_bind].
  set (n := count_true nwc) in *.
  pose proof (int_of_ratio_nonneg _ _ _ Htr Ent) as Hnt.
  pose proof (int_of_ratio_nonneg _ _ _ Hva Env) as Hnv.
  pose proof (int_of_ratio_nonneg _ _ _ Hte Ene) as Hne.
  assert (Hlen : length nwc = N) by by eapply length_nodes_with_class.
  destruct (rng self) as [r|];
    [destruct (torch_randperm r n) as [perm r'] eqn:E; pose proof (Hperm r n) as Hp
    |destruct (torch_randperm g n) as [perm g1] eqn:E; pose proof (Hperm g n) as Hp].
  all: rewrite E in Hp; cbn [fst] in Hp.
  all: destruct (Permutation_seq_facts perm n Hp) as (Hnd & Hpl & Hlt).
  all: rewrite !py_slice_nonneg by lia.
  all: rewrite Hpl.
  all: set (p0 := Z.to_nat (Z.min 0 (Z.of_nat n))).
  all: set (p1 := Z.to_nat (Z.min nt (Z.of_nat n))).
  all: set (p2 := Z.to_nat (Z.min (nt + nv) (Z.of_nat n))).
  all: set (p3 := Z.to_nat (Z.min (nt + nv + ne) (Z.of_nat n))).
  all: assert (Hin : ∀ p q i, i ∈ segment perm p q → (i < n)%nat)
         by (intros p q i (j & _ & Hj)%segment_elem; apply Hlt;
             by eapply list_elem_of_lookup_2).
  all: destruct (scattered_mask nwc (segment perm p1 p2) N Hlen
                   (NoDup_segment perm p1 p2 Hnd) (Hin p1 p2))
         as (mv & Hmv & Hlv & Hcv & Hiv);
       change (count_true nwc) with n in Hmv; rewrite Hmv.
  all: destruct (scattered_mask nwc (segment perm p2 p3) N Hlen
                   (NoDup_segment perm p2 p3 Hnd) (Hin p2 p3))
         as (me & Hme & Hle & Hce & Hie);
       change (count_true nwc) with n in Hme; rewrite Hme.
  all: destruct (scattered_mask nwc (segment perm p0 p1) N Hlen
                   (NoDup_segment perm p0 p1 Hnd) (Hin p0 p1))
         as (mt & Hmt & Hlt' & Hct & Hit);
       change (count_true nwc) with n in Hmt; rewrite Hmt.
  all: cbn [mbind option_bind]; do 3 eexists; (split; [reflexivity|]).
  all: cbn [m_train m_val m_test]; cbv zeta.
  all: rewrite length_segment in Hcv, Hce, Hct by lia.
  all: repeat split; try done; try lia.
  all: try (intros i [[_ H1]%Hit [_ H2]%Hiv];
            eapply (segment_disjoint perm p0 p1 p1 p2); eauto; lia).
  all: try (intros i [[_ H1]%Hit [_ H2]%Hie];
            eapply (segment_disjoint perm p0 p1 p2 p3); eauto; lia).
  all: try (intros i [[_ H1]%Hiv [_ H2]%Hie];
            eapply (segment_disjoint perm p1 p2 p2 p3); eauto; lia).
  all: try (intros yv c -> Hc; eapply nodes_with_class_labelled; [exact Hnwc| |exact Hc];
            destruct H as [[H _]%Hit|[[H _]%Hiv|[H _]%Hie]]; exact H).
  all: try (intros yv ->; eapply count_nodes_with_class; [by apply Hlab|exact Hnwc]).
  all: destruct H as [[H _]%Hit|[[H _]%Hiv|[H _]%Hie]]; exact H.
Qed.

End NodeSplitProperties.

Lemma demo_randperm_perm g n : Permutation (fst (Demo.randperm g n)) (seq 0 n).
Proof.
  unfold Demo.randperm. cbn [fst]. destruct (Nat.even g); [done|].
  symmetry. apply Permutation_rev.
Qed.

Section NodeSplitExamples.
Local Existing Instance Demo.ext.

Lemma NodeSplit_masks_witness :
  ∃ masks self' g',
    NodeSplit_call Demo.default_split 0%nat 10 (y_tensor Demo.labels10)
    = Some (masks, self', g')
    ∧ (∀ i, ¬ (m_train masks !! i = Some true ∧ m_val masks !! i = Some true))
    ∧ Z.of_nat (count_true (m_train masks)) = 4%Z
    ∧ Z.of_nat (count_true (m_val masks)) = 2%Z
    ∧ Z.of_nat (count_true (m_test masks)) = 2%Z.
Proof.
  destruct (NodeSplit_masks None Demo.f0_25 Demo.f0_25 (Some 7%Z)
              Demo.default_split 0%nat 10 (y_tensor Demo.labels10)
              [true; true; false; true; true; true; false; true; true; true] 4 2 2)
    as (masks & self' & g' & Hcall & _ & Hd & _ & _ & _ & _ & _ & _ & _ & Hexact).
  - intros g0 n. apply demo_randperm_perm.
  - vm_compute. reflexivity.
  - reflexivity.
  - reflexivity.
  - intros yv [= <-]. reflexivity.
  - reflexivity.
  - vm_compute. reflexivity.
  - vm_compute. reflexivity.
  - vm_compute. reflexivity.
  - exists masks, self', g'. split; [exact Hcall|]. split; [exact Hd|].
    apply Hexact. vm_compute. discriminate.
Defined.

(** C7 as stated fails, in two ways. With ratios 0.8, 0.5 and 0.5 on ten
    labelled nodes the masks have 8, 2 and 0 nodes, while [⌊0.5·10⌋ = 5]: a
    slice stops where the permutation ends. With ratios 0.29, 0.25 and 0.46 on
    a hundred nodes the masks have 28, 25 and 46 nodes, while
    [⌊0.29·100⌋ = 29]: the product of the floats is 28.999999999999996, and
    one node is left without a mask although the ratios add up to 1. *)
Lemma NodeSplit_exact_sizes_counterexample :
  NodeSplit_init (Some Demo.f0_8) Demo.f0_5 Demo.f0_5 None = Some Demo.greedy_split
  ∧ Demo.sizes (NodeSplit_call Demo.greedy_split 0%nat 10 (y_tensor Demo.labelled10))
    = Some (8, 2, 0)%nat
  ∧ int_of_ratio (val_ratio Demo.greedy_split) 10 = Some 5%Z
  ∧ int_of_ratio (test_ratio Demo.greedy_split) 10 = Some 5%Z
  ∧ NodeSplit_init (Some Demo.f0_29) Demo.f0_25 Demo.f0_46 None = Some Demo.decimal_split
  ∧ Demo.sizes (NodeSplit_call Demo.decimal_split 0%nat 100 y_absent)
    = Some (28, 25, 46)%nat
  ∧ F64.mul Demo.f0_29 (F64.of_Z 100) = F64.make 8162774324609023 (-48)
  ∧ SFltb (F64.mul Demo.f0_29 (F64.of_Z 100)) (F64.of_Z 29) = true.
Proof. repeat split; vm_compute; reflexivity. Qed.

(** A negative ratio passes the constructor; the slices then overlap: here
    every test node is also a training node. *)
Example NodeSplit_negative_ratio_overlap :
  NodeSplit_init None (SFopp Demo.f0_2) Demo.f0_2 None = Some Demo.negative_split
  ∧ (fun r => (m_train (fst (fst r)), m_test (fst (fst r))))
      <$> NodeSplit_call Demo.negative_split 0%nat 10 (y_tensor Demo.labelled10)
    = Some ([true; true; true; true; true; true; true; true; true; true],
            [false; false; false; false; false; false; false; false; true; true]).
Proof. split; vm_compute; reflexivity. Qed.

(** On a dataset whose [y] is [None] the call raises. *)
Example NodeSplit_call_on_None :
  NodeSplit_call Demo.default_split 0%nat 10 y_none = None.
Proof. reflexivity. Qed.

End NodeSplitExamples.

(** ** The store *)

Lemma alloc_float_lookup σ m l σ' :
  alloc_float σ m = (l, σ') →
  floats σ' !! l = Some m
  ∧ longs σ' = longs σ
  ∧ ∀ l', is_Some (floats σ !! l') → l' ≠ l ∧ floats σ' !! l' = floats σ !! l'.
Proof.
  unfold alloc_float. intros [= <- <-]. cbn [floats longs].
  split; [apply lookup_insert_eq|]. split; [done|].
  intros l' Hl'.
  assert (l' ≠ fresh (dom (floats σ))) as Hne.
  { intros ->. apply elem_of_dom in Hl'. by apply is_fresh in Hl'. }
  split; [done|]. by rewrite lookup_insert_ne.
Qed.

Lemma alloc_long_lookup σ v l σ' :
  alloc_long σ v = (l, σ') →
  longs σ' !! l = Some v
  ∧ floats σ' = floats σ
  ∧ ∀ l', is_Some (longs σ !! l') → l' ≠ l ∧ longs σ' !! l' = longs σ !! l'.
Proof.
  unfold alloc_long. intros [= <- <-]. cbn [floats longs].
  split; [apply lookup_insert_eq|]. split; [done|].
  intros l' Hl'.
  assert (l' ≠ fresh (dom (longs σ))) as Hne.
  { intros ->. apply elem_of_dom in Hl'. by apply is_fresh in Hl'. }
  split; [done|]. by rewrite lookup_insert_ne.
Qed.

(** ** FeaturePerturbation *)

Section FeaturePerturbationProperties.
Context `{Ext : External}.

(** After lines 57-60 the current attributes and the backup are the
    pristine tensor. *)
Lemma backup_or_restore_x_pristine self σ data l0 x0 r :
  pristine_at self σ data l0 x0 r →
  Data.x (backup_or_restore_x data) = l0
  ∧ Data.x_raw (backup_or_restore_x data) = Some l0.
Proof.
  intros (_ & [Hraw|[Hraw Hx]] & _); unfold backup_or_restore_x; rewrite Hraw;
    cbn [Data.set_x Data.set_x_raw Data.x Data.x_raw]; split; congruence.
Qed.

Lemma freeze_input_range_pristine self σ data l0 x0 r :
  pristine_at self σ data l0 x0 r →
  ∃ self1, freeze_input_range self σ (backup_or_restore_x data) = Some self1
           ∧ input_range self1 = Some r
           ∧ mechanism_x self1 = mechanism_x self
           ∧ reduce_dim self1 = reduce_dim self
           ∧ epsilon_x self1 = epsilon_x self.
Proof.
  intros Hinv. destruct (backup_or_restore_x_pristine _ _ _ _ _ _ Hinv) as [Hx _].
  destruct Hinv as (Hl0 & _ & [Hr|(Hr & Hlo & Hhi)]); unfold freeze_input_range; rewrite Hr.
  - by exists self.
  - rewrite Hx, Hl0. cbn [mbind option_bind]. rewrite Hlo, Hhi. cbn [mbind option_bind].
    eexists. split; [reflexivity|]. by destruct r.
Qed.

(** Lines 65-66 leave the pristine tensor alone and make the projection of
    the pristine attributes the current attributes. *)
Lemma project_pristine self σ g data l0 x0 :
  floats σ !! l0 = Some x0 → Data.x data = l0 → Data.x_raw data = Some l0 →
  ∃ data' σ',
    project self σ g data
    = Some (data', σ', snd (projected (reduce_dim self) x0 g))
    ∧ floats σ' !! Data.x data' = Some (fst (projected (reduce_dim self) x0 g))
    ∧ floats σ' !! l0 = Some x0
    ∧ Data.x_raw data' = Some l0.
Proof.
  intros Hl0 Hx Hraw. unfold project, projected.
  destruct (reduce_dim self) as [[|k]|].
  - exists data, σ. by rewrite Hx.
  - unfold num_features, RandomizedProjection_init, RandomizedProjection_call.
    rewrite Hx, Hl0. cbn [mbind option_bind].
    destruct (torch_rand g (ncols x0) (S k)) as [m g'] eqn:Hr.
    cbn [w].
    destruct (alloc_float σ (matmul x0 m)) as [l σ'] eqn:Ha.
    apply alloc_float_lookup in Ha as (Hl & _ & Hold).
    destruct (Hold l0) as [Hne Hl0']; [by eexists|].
    exists (Data.set_x data l), σ'. cbn [fst snd Data.set_x Data.x Data.x_raw].
    by rewrite Hl, Hl0', Hl0.
  - exists data, σ. by rewrite Hx.
Qed.

(** One invocation under the invariant: it succeeds, hands the (projected)
    pristine attributes and the frozen range to the mechanism, and keeps the
    invariant. *)
Lemma FeaturePerturbation_call_pristine self σ g data l0 x0 r eps mech :
  pristine_at self σ data l0 x0 r →
  epsilon_x self = Some eps →
  supported_feature_mechanisms (mechanism_x self) = Some mech →
  ∃ self' data' σ',
    FeaturePerturbation_call self σ g data
    = Some (self', data', σ', snd (perturb_pristine mech eps (reduce_dim self) r x0 g))
    ∧ floats σ' !! Data.x data'
      = Some (fst (perturb_pristine mech eps (reduce_dim self) r x0 g))
    ∧ Data.x_raw data' = Some l0
    ∧ floats σ' !! l0 = Some x0
    ∧ input_range self' = Some r
    ∧ mechanism_x self' = mechanism_x self
    ∧ reduce_dim self' = reduce_dim self
    ∧ epsilon_x self' = epsilon_x self.
Proof.
  intros Hinv Heps Hmech.
  destruct (backup_or_restore_x_pristine _ _ _ _ _ _ Hinv) as [Hx Hraw].
  destruct (freeze_input_range_pristine _ _ _ _ _ _ Hinv)
    as (self1 & Hf & Hr1 & Hm1 & Hd1 & He1).
  destruct (project_pristine self1 σ g (backup_or_restore_x data) l0 x0
              (proj1 Hinv) Hx Hraw) as (data2 & σ2 & Hp & Hx2 & Hl2 & Hraw2).
  unfold FeaturePerturbation_call, FeaturePerturbation_prepare. rewrite Heps.
  rewrite Hf. cbn [mbind option_bind]. rewrite Hp. cbn [mbind option_bind].
  rewrite Hm1, Hmech, Hr1. cbn [mbind option_bind]. rewrite Hx2. cbn [mbind option_bind].
  unfold perturb_pristine. rewrite <- Hd1.
  destruct (projected (reduce_dim self1) x0 g) as [inp g1]. cbn [fst snd].
  destruct (mech eps r g1 inp) as [out g3].
  destruct (alloc_float σ2 out) as [l σ3] eqn:Ha.
  apply alloc_float_lookup in Ha as (Hl & _ & Hold).
  destruct (Hold l0) as [Hne Hl0']; [by eexists|].
  exists self1, (Data.set_x data2 l), σ3. cbn [fst snd Data.set_x Data.x Data.x_raw].
  rewrite Hl0', Hl2. repeat split; try done. congruence.
Qed.

(** Any number of invocations in a row: the last one applies the mechanism
    to the pristine attributes, from the generator the previous ones left. *)
Lemma FeaturePerturbation_calls_pristine k self σ g data l0 x0 r eps mech :
  pristine_at self σ data l0 x0 r →
  epsilon_x self = Some eps →
  supported_feature_mechanisms (mechanism_x self) = Some mech →
  let gk := generator_after k mech eps (reduce_dim self) r x0 g in
  ∃ self' data' σ',
    FeaturePerturbation_calls (S k) self σ g data
    = Some (self', data', σ', snd (perturb_pristine mech eps (reduce_dim self) r x0 gk))
    ∧ floats σ' !! Data.x data'
      = Some (fst (perturb_pristine mech eps (reduce_dim self) r x0 gk))
    ∧ pristine_at self' σ' data' l0 x0 r
    ∧ Data.x_raw data' = Some l0
    ∧ input_range self' = Some r
    ∧ mechanism_x self' = mechanism_x self
    ∧ reduce_dim self' = reduce_dim self
    ∧ epsilon_x self' = epsilon_x self.
Proof.
  revert self σ g data. induction k as [|k IH]; intros self σ g data Hinv Heps Hmech.
  - destruct (FeaturePerturbation_call_pristine self σ g data l0 x0 r eps mech)
      as (self' & data' & σ' & Hc & Hx & Hraw & Hl0 & Hr & Hm & Hd & He); try done.
    exists self', data', σ'. cbn [FeaturePerturbation_calls generator_after].
    rewrite Hc. cbn [mbind option_bind].
    repeat split; try done; by left.
  - destruct (FeaturePerturbation_call_pristine self σ g data l0 x0 r eps mech)
      as (self1 & data1 & σ1 & Hc & Hx & Hraw & Hl0 & Hr & Hm & Hd & He); try done.
    assert (Hinv1 : pristine_at self1 σ1 data1 l0 x0 r) by (repeat split; try done; by left).
    destruct (IH self1 σ1 (snd (perturb_pristine mech eps (reduce_dim self) r x0 g)) data1)
      as (self' & data' & σ' & Hc' & Hx' & Hinv' & Hraw' & Hr' & Hm' & Hd' & He');
      try congruence.
    exists self', data', σ'.
    change (FeaturePerturbation_calls (S (S k)) self σ g data)
      with ('(s1, d1, σ1, g1) ← FeaturePerturbation_call self σ g data;
            FeaturePerturbation_calls (S k) s1 σ1 g1 d1).
    rewrite Hc. cbn [mbind option_bind generator_after].
    rewrite Hd in *.
    split; [exact Hc'|]. split; [exact Hx'|]. split; [exact Hinv'|].
    repeat split; congruence.
Qed.


Lemma generator_after_S k mech eps rd r x0 g :
  generator_after (S k) mech eps rd r x0 g
  = snd (perturb_pristine mech eps rd r x0 (generator_after k mech eps rd r x0 g)).
Proof.
  revert g. induction k as [|k IH]; intros g; [done|].
  change (generator_after (S (S k)) mech eps rd r x0 g)
    with (generator_after (S k) mech eps rd r x0 (snd (perturb_pristine mech eps rd r x0 g))).
  by rewrite IH.
Qed.

(** The state after [k] invocations. *)
Lemma FeaturePerturbation_calls_state k self σ g data l0 x0 r eps mech :
  pristine_at self σ data l0 x0 r →
  epsilon_x self = Some eps →
  supported_feature_mechanisms (mechanism_x self) = Some mech →
  ∃ self' data' σ',
    FeaturePerturbation_calls k self σ g data
    = Some (self', data', σ', generator_after k mech eps (reduce_dim self) r x0 g)
    ∧ pristine_at self' σ' data' l0 x0 r
    ∧ mechanism_x self' = mechanism_x self
    ∧ reduce_dim self' = reduce_dim self
    ∧ epsilon_x self' = epsilon_x self
    ∧ ((1 ≤ k)%nat → Data.x_raw data' = Some l0 ∧ input_range self' = Some r).
Proof.
  intros Hinv Heps Hmech. destruct k as [|k].
  - exists self, data, σ. cbn [FeaturePerturbation_calls generator_after].
    split; [done|]. split; [done|]. do 3 (split; [done|]). intros H1. lia.
  - destruct (FeaturePerturbation_calls_pristine k self σ g data l0 x0 r eps mech)
      as (self' & data' & σ' & Hc & _ & Hinv' & Hraw & Hr & Hm & Hd & He); try done.
    exists self', data', σ'. rewrite generator_after_S.
    split; [exact Hc|]. split; [exact Hinv'|]. done.
Qed.

(** What lines 57-66 hand to the mechanism under the invariant. *)
Lemma FeaturePerturbation_prepare_pristine self σ g data l0 x0 r :
  pristine_at self σ data l0 x0 r →
  ∃ self1 data1 σ1,
    FeaturePerturbation_prepare self σ g data
    = Some (self1, data1, σ1, snd (projected (reduce_dim self) x0 g))
    ∧ floats σ1 !! Data.x data1 = Some (fst (projected (reduce_dim self) x0 g))
    ∧ floats σ1 !! l0 = Some x0
    ∧ Data.x_raw data1 = Some l0
    ∧ input_range self1 = Some r.
Proof.
  intros Hinv.
  destruct (backup_or_restore_x_pristine _ _ _ _ _ _ Hinv) as [Hx Hraw].
  destruct (freeze_input_range_pristine _ _ _ _ _ _ Hinv)
    as (self1 & Hf & Hr1 & Hm1 & Hd1 & He1).
  destruct (project_pristine self1 σ g (backup_or_restore_x data) l0 x0
              (proj1 Hinv) Hx Hraw) as (data2 & σ2 & Hp & Hx2 & Hl2 & Hraw2).
  unfold FeaturePerturbation_prepare.
  rewrite Hf. cbn [mbind option_bind]. rewrite Hp. cbn [mbind option_bind].
  rewrite <- Hd1. by exists self1, data2, σ2.
Qed.

(** C1. On a dataset without a backup, an instance with [epsilon_x] set and a
    registered mechanism can be invoked any number of times. After [k]
    invocations the backup, once made, is the tensor that held the attributes
    before the first invocation, with its content [x0] untouched; the next
    invocation hands to the mechanism the pristine [x0] (its projection when
    [reduce_dim] is set), and its result is the mechanism applied to that
    input, whatever the earlier invocations produced. *)
Theorem perturbation_never_compounds (k : nat) self σ g data x0 r eps mech :
  epsilon_x self = Some eps →
  supported_feature_mechanisms (mechanism_x self) = Some mech →
  Data.x_raw data = None →
  floats σ !! Data.x data = Some x0 →
  (input_range self = Some r
   ∨ (input_range self = None ∧ vmin (concat x0) = Some (fst r)
      ∧ vmax (concat x0) = Some (snd r))) →
  let gk := generator_after k mech eps (reduce_dim self) r x0 g in
  ∃ self_k data_k σ_k,
    FeaturePerturbation_calls k self σ g data = Some (self_k, data_k, σ_k, gk)
    ∧ ((1 ≤ k)%nat → Data.x_raw data_k = Some (Data.x data))
    ∧ floats σ_k !! Data.x data = Some x0
    ∧ (∃ s d σ',
         FeaturePerturbation_prepare self_k σ_k gk data_k
         = Some (s, d, σ', snd (projected (reduce_dim self) x0 gk))
         ∧ Data.x_raw d = Some (Data.x data)
         ∧ floats σ' !! Data.x d = Some (fst (projected (reduce_dim self) x0 gk)))
    ∧ (∃ s d σ',
         FeaturePerturbation_call self_k σ_k gk data_k
         = Some (s, d, σ', snd (perturb_pristine mech eps (reduce_dim self) r x0 gk))
         ∧ floats σ' !! Data.x d
           = Some (fst (perturb_pristine mech eps (reduce_dim self) r x0 gk))
         ∧ floats σ' !! Data.x data = Some x0)
    ∧ (reduce_dim self = None → fst (projected (reduce_dim self) x0 gk) = x0).
Proof.
  intros Heps Hmech Hraw Hx Hrange gk.
  assert (Hinv : pristine_at self σ data (Data.x data) x0 r).
  { split; [done|]. split; [by right|done]. }
  destruct (FeaturePerturbation_calls_state k self σ g data (Data.x data) x0 r eps mech)
    as (self_k & data_k & σ_k & Hc & Hinv_k & Hm & Hd & He & Hk); try done.
  exists self_k, data_k, σ_k. split; [exact Hc|].
  split; [intros H1; by apply Hk|]. split; [apply Hinv_k|].
  split; [|split].
  - destruct (FeaturePerturbation_prepare_pristine self_k σ_k gk data_k _ _ _ Hinv_k)
      as (s & d & σ' & Hp & Hxd & _ & Hrd & _).
    rewrite Hd in Hp, Hxd. by exists s, d, σ'.
  - destruct (FeaturePerturbation_call_pristine self_k σ_k gk data_k _ _ _ eps mech Hinv_k)
      as (s & d & σ' & Hcall & Hxd & _ & Hl0 & _); [congruence..|].
    rewrite Hd in Hcall, Hxd. by exists s, d, σ'.
  - by intros ->.
Qed.

(** C9. For an instance constructed without a range, the range is computed
    at the first invocation as the (min, max) of the pristine attributes
    [x0]; from then on the instance holds it, and every invocation, the first
    included, calls the mechanism with exactly that range and leaves [x0],
    from which it was computed, untouched. *)
Theorem input_range_is_frozen (k : nat) self σ g data x0 lo hi eps mech :
  epsilon_x self = Some eps →
  supported_feature_mechanisms (mechanism_x self) = Some mech →
  input_range self = None →
  Data.x_raw data = None →
  floats σ !! Data.x data = Some x0 →
  vmin (concat x0) = Some lo → vmax (concat x0) = Some hi →
  let gk := generator_after k mech eps (reduce_dim self) (lo, hi) x0 g in
  ∃ self_k data_k σ_k,
    FeaturePerturbation_calls k self σ g data = Some (self_k, data_k, σ_k, gk)
    ∧ ((1 ≤ k)%nat → input_range self_k = Some (lo, hi))
    ∧ (∃ s d σ' g',
         FeaturePerturbation_prepare self_k σ_k gk data_k = Some (s, d, σ', g')
         ∧ input_range s = Some (lo, hi))
    ∧ (∃ s d σ' g',
         FeaturePerturbation_call self_k σ_k gk data_k = Some (s, d, σ', g')
         ∧ input_range s = Some (lo, hi)
         ∧ floats σ' !! Data.x d
           = Some (fst (mech eps (lo, hi)
                          (snd (projected (reduce_dim self) x0 gk))
                          (fst (projected (reduce_dim self) x0 gk)))))
    ∧ floats σ_k !! Data.x data = Some x0.
Proof.
  intros Heps Hmech Hnone Hraw Hx Hlo Hhi gk.
  assert (Hinv : pristine_at self σ data (Data.x data) x0 (lo, hi)).
  { split; [done|]. split; [by right|]. by right. }
  destruct (FeaturePerturbation_calls_state k self σ g data (Data.x data) x0 (lo, hi)
              eps mech) as (self_k & data_k & σ_k & Hc & Hinv_k & Hm & Hd & He & Hk);
    try done.
  exists self_k, data_k, σ_k. split; [exact Hc|].
  split; [intros H1; by apply Hk|].
  split; [|split; [|apply Hinv_k]].
  - destruct (FeaturePerturbation_prepare_pristine self_k σ_k gk data_k _ _ _ Hinv_k)
      as (s & d & σ' & Hp & _ & _ & _ & Hr).
    by exists s, d, σ', (snd (projected (reduce_dim self_k) x0 gk)).
  - destruct (FeaturePerturbation_call_pristine self_k σ_k gk data_k _ _ _ eps mech Hinv_k)
      as (s & d & σ' & Hcall & Hxd & _ & _ & Hr & _); [congruence..|].
    rewrite Hd in Hcall, Hxd. eexists s, d, σ', _. split; [exact Hcall|].
    split; [exact Hr|]. rewrite Hxd. unfold perturb_pristine.
    by destruct (projected (reduce_dim self) x0 gk).
Qed.

(** C2, as amended. With [reduce_dim] set, every invocation constructs a new
    projection, whose matrix is the draw of [torch.rand] from the generator
    as the earlier invocations left it: the attributes handed to the
    mechanism by the invocation after [k] others are the pristine [x0] times
    that draw. A projection, once constructed, keeps its matrix: applied to
    the same attributes it gives the same product every time. *)
Theorem projection_is_drawn_per_invocation (k m : nat) self σ g data x0 r eps mech :
  epsilon_x self = Some eps →
  supported_feature_mechanisms (mechanism_x self) = Some mech →
  reduce_dim self = Some (S m) →
  Data.x_raw data = None →
  floats σ !! Data.x data = Some x0 →
  (input_range self = Some r
   ∨ (input_range self = None ∧ vmin (concat x0) = Some (fst r)
      ∧ vmax (concat x0) = Some (snd r))) →
  let gk := generator_after k mech eps (reduce_dim self) r x0 g in
  (∃ self_k data_k σ_k s d σ',
     FeaturePerturbation_calls k self σ g data = Some (self_k, data_k, σ_k, gk)
     ∧ FeaturePerturbation_prepare self_k σ_k gk data_k
       = Some (s, d, σ', snd (torch_rand gk (ncols x0) (S m)))
     ∧ floats σ' !! Data.x d
       = Some (matmul x0 (fst (torch_rand gk (ncols x0) (S m)))))
  ∧ (∀ rp σ1 d1 σ2 d2 xv,
       floats σ1 !! Data.x d1 = Some xv → floats σ2 !! Data.x d2 = Some xv →
       ∃ d1' σ1' d2' σ2',
         RandomizedProjection_call rp σ1 d1 = Some (d1', σ1')
         ∧ RandomizedProjection_call rp σ2 d2 = Some (d2', σ2')
         ∧ floats σ1' !! Data.x d1' = Some (matmul xv (w rp))
         ∧ floats σ2' !! Data.x d2' = Some (matmul xv (w rp))).
Proof.
  intros Heps Hmech Hrd Hraw Hx Hrange gk. split.
  - assert (Hinv : pristine_at self σ data (Data.x data) x0 r).
    { split; [done|]. split; [by right|done]. }
    destruct (FeaturePerturbation_calls_state k self σ g data (Data.x data) x0 r eps mech)
      as (self_k & data_k & σ_k & Hc & Hinv_k & Hm & Hd & He & Hk); try done.
    destruct (FeaturePerturbation_prepare_pristine self_k σ_k gk data_k _ _ _ Hinv_k)
      as (s & d & σ' & Hp & Hxd & _ & _ & _).
    exists self_k, data_k, σ_k, s, d, σ'. split; [exact Hc|].
    rewrite Hd, Hrd in Hp, Hxd. unfold projected in Hp, Hxd.
    destruct (torch_rand gk (ncols x0) (S m)) as [wk g']. done.
  - intros rp σ1 d1 σ2 d2 xv H1 H2. unfold RandomizedProjection_call.
    rewrite H1, H2. cbn [mbind option_bind].
    destruct (alloc_float σ1 _) as [l1 σ1'] eqn:Ha1.
    destruct (alloc_float σ2 _) as [l2 σ2'] eqn:Ha2.
    apply alloc_float_lookup in Ha1 as (Hl1 & _). apply alloc_float_lookup in Ha2 as (Hl2 & _).
    by exists (Data.set_x d1 l1), σ1', (Data.set_x d2 l2), σ2'.
Qed.

End FeaturePerturbationProperties.

Section FeaturePerturbationExamples.
Local Existing Instance Demo.ext.

Lemma perturbation_never_compounds_witness :
  ∃ self_k data_k σ_k g_k,
    FeaturePerturbation_calls 2 Demo.fp_plain Demo.store0 0%nat Demo.data0
    = Some (self_k, data_k, σ_k, g_k)
    ∧ Data.x_raw data_k = Some (Data.x Demo.data0)
    ∧ floats σ_k !! Data.x Demo.data0 = Some Demo.x0
    ∧ ∃ s d σ' g',
        FeaturePerturbation_prepare self_k σ_k g_k data_k = Some (s, d, σ', g')
        ∧ floats σ' !! Data.x d = Some Demo.x0.
Proof.
  destruct (perturbation_never_compounds (Ext := Demo.ext) 2 Demo.fp_plain Demo.store0 0%nat Demo.data0
              Demo.x0 (Demo.qz 0, Demo.qz 6) (Q2Qc 1) Demo.shift_mechanism)
    as (self_k & data_k & σ_k & Hc & Hraw & Hx0 & (s & d & σ' & Hp & _ & Hin) & _ & Hid).
  - reflexivity.
  - reflexivity.
  - reflexivity.
  - reflexivity.
  - right. repeat split; reflexivity.
  - eexists self_k, data_k, σ_k, _. split; [exact Hc|].
    split; [apply Hraw; lia|]. split; [exact Hx0|].
    eexists s, d, σ', _. split; [exact Hp|].
    rewrite Hin. reflexivity.
Defined.

Lemma input_range_is_frozen_witness :
  ∃ self_k data_k σ_k g_k,
    FeaturePerturbation_calls 3 Demo.fp Demo.store0 0%nat Demo.data0
    = Some (self_k, data_k, σ_k, g_k)
    ∧ input_range self_k = Some (Demo.qz 0, Demo.qz 6).
Proof.
  destruct (input_range_is_frozen (Ext := Demo.ext) 3 Demo.fp Demo.store0 0%nat Demo.data0
              Demo.x0 (Demo.qz 0) (Demo.qz 6) (Q2Qc 1) Demo.shift_mechanism)
    as (self_k & data_k & σ_k & Hc & Hr & _); try reflexivity.
  eexists self_k, data_k, σ_k, _. split; [exact Hc|]. apply Hr. lia.
Defined.

Lemma projection_is_drawn_per_invocation_witness :
  ∃ self_k data_k σ_k g_k s d σ' g',
    FeaturePerturbation_calls 1 Demo.fp Demo.store0 0%nat Demo.data0
    = Some (self_k, data_k, σ_k, g_k)
    ∧ FeaturePerturbation_prepare self_k σ_k g_k data_k = Some (s, d, σ', g')
    ∧ floats σ' !! Data.x d = Some (matmul Demo.x0 (fst (Demo.rand g_k 3 2))).
Proof.
  destruct (projection_is_drawn_per_invocation (Ext := Demo.ext) 1 1 Demo.fp Demo.store0 0%nat Demo.data0
              Demo.x0 (Demo.qz 0, Demo.qz 6) (Q2Qc 1) Demo.shift_mechanism)
    as [(self_k & data_k & σ_k & s & d & σ' & Hc & Hp & Hx) _]; try reflexivity.
  - right. repeat split; reflexivity.
  - eexists self_k, data_k, σ_k, _, s, d, σ', _.
    split; [exact Hc|]. split; [exact Hp|]. exact Hx.
Defined.

(** C2 as stated fails: on the same instance and the same pristine
    attributes, the first and the second invocation hand different projected
    attributes to the mechanism, because each draws its own matrix. *)
Lemma projection_fixed_counterexample :
  Demo.first_input ≠ Demo.second_input
  ∧ Demo.first_input = Some (matmul Demo.x0 (fst (Demo.rand 0 3 2)))
  ∧ Demo.second_input = Some (matmul Demo.x0 (fst (Demo.rand 7 3 2)))
  ∧ fst (Demo.rand 0 3 2) ≠ fst (Demo.rand 7 3 2).
Proof.
  split; [vm_compute; discriminate|].
  split; [vm_compute; reflexivity|].
  split; [vm_compute; reflexivity|].
  vm_compute; discriminate.
Qed.

End FeaturePerturbationExamples.

(** ** LabelPerturbation *)

Section LabelPerturbationProperties.
Context `{Ext : External}.

Lemma mask_or_false a b m i :
  mask_or a b = Some m → a !! i = Some false → b !! i = Some false →
  m !! i = Some false.
Proof.
  unfold mask_or. case_decide; [|done]. intros [= <-] Ha Hb.
  rewrite lookup_zip_with, Ha. cbn [mbind option_bind]. by rewrite Hb.
Qed.

Lemma masked_assign_outside {A} (mask : list bool) (vals v v' : list A) i :
  masked_assign mask vals v = Some v' → mask !! i = Some false → v' !! i = v !! i.
Proof.
  unfold masked_assign. case_decide; [|done].
  case_decide; [intros [= <-]; by apply scatter_by_outside|].
  destruct vals as [|c [|? ?]]; try done.
  intros [= <-]. by apply scatter_by_outside.
Qed.

(** Lines 92-95: the labels after the backup or the restore are the pristine
    labels, in a tensor that is not the backup. *)
Lemma backup_or_restore_y_pristine σ data y0 tm vm data1 σ1 :
  labels_pristine σ data y0 tm vm →
  backup_or_restore_y σ data = Some (data1, σ1) →
  Data.train_mask data1 = tm ∧ Data.val_mask data1 = vm
  ∧ Data.adj_t data1 = Data.adj_t data ∧ Data.num_classes data1 = Data.num_classes data
  ∧ longs σ1 !! Data.y data1 = Some y0
  ∧ ∃ lr, Data.y_raw data1 = Some lr ∧ lr ≠ Data.y data1 ∧ longs σ1 !! lr = Some y0.
Proof.
  intros (Htm & Hvm & _ & [[Hraw Hy]|(lr & Hraw & Hne & Hlr)]);
    unfold backup_or_restore_y; rewrite Hraw.
  - rewrite Hy. cbn [mbind option_bind].
    destruct (alloc_long σ y0) as [l σ'] eqn:Ha. intros [= <- <-].
    apply alloc_long_lookup in Ha as (Hl & _ & Hold).
    destruct (Hold (Data.y data)) as [Hne Hy']; [by eexists|].
    cbn [Data.set_y_raw Data.train_mask Data.val_mask Data.adj_t Data.num_classes
         Data.y Data.y_raw].
    repeat split; try done; [congruence|]. exists l. split; [done|]. split; [congruence|done].
  - rewrite Hlr. cbn [mbind option_bind].
    destruct (alloc_long σ y0) as [l σ'] eqn:Ha. intros [= <- <-].
    apply alloc_long_lookup in Ha as (Hl & _ & Hold).
    destruct (Hold lr) as [Hne' Hlr']; [by eexists|].
    cbn [Data.set_y Data.train_mask Data.val_mask Data.adj_t Data.num_classes
         Data.y Data.y_raw].
    repeat split; try done. exists lr. split; [done|]. split; [done|congruence].
Qed.

(** One invocation under the invariant: the labels it leaves agree with the
    pristine labels, hence with the labels before it, outside the masks; the
    backup holds the pristine labels. *)
Lemma LabelPerturbation_call_pristine self σ g data y0 tm vm data' σ' g' yb :
  is_Some (epsilon_y self) →
  labels_pristine σ data y0 tm vm →
  longs σ !! Data.y data = Some yb →
  LabelPerturbation_call self σ g data = Some (data', σ', g') →
  labels_pristine σ' data' y0 tm vm
  ∧ (∃ lr, Data.y_raw data' = Some lr ∧ lr ≠ Data.y data' ∧ longs σ' !! lr = Some y0)
  ∧ ∃ ya, longs σ' !! Data.y data' = Some ya
          ∧ ∀ i, tm !! i = Some false → vm !! i = Some false →
                 ya !! i = y0 !! i ∧ ya !! i = yb !! i.
Proof.
  intros [eps Heps] Hinv Hyb. unfold LabelPerturbation_call. rewrite Heps.
  destruct (backup_or_restore_y σ data) as [[data1 σ1]|] eqn:Hb; [|done].
  destruct (backup_or_restore_y_pristine _ _ _ _ _ _ _ Hinv Hb)
    as (Htm & Hvm & _ & _ & Hy1 & lr & Hraw & Hne & Hlr).
  cbn [mbind option_bind]. rewrite Htm, Hvm.
  destruct (mask_or tm vm) as [pm|] eqn:Hpm; [|done].
  cbn [mbind option_bind]. rewrite Hy1. cbn [mbind option_bind].
  destruct (masked_select pm y0) as [ysel|]; [|done]. cbn [mbind option_bind].
  destruct (perturb _ _ _ _ _ _) as [[labels g1]|]; [|done]. cbn [mbind option_bind].
  destruct (masked_assign pm labels y0) as [ynew|] eqn:Hnew; [|done].
  cbn [mbind option_bind]. intros [= <- <- <-].
  assert (Hy' : longs (write_long σ1 (Data.y data1) ynew) !! Data.y data1 = Some ynew)
    by apply lookup_insert_eq.
  assert (Hlr' : longs (write_long σ1 (Data.y data1) ynew) !! lr = Some y0).
  { unfold write_long. cbn [longs]. rewrite lookup_insert_ne by done. done. }
  assert (Hout : ∀ i, tm !! i = Some false → vm !! i = Some false → ynew !! i = y0 !! i).
  { intros i Ht Hv. eapply masked_assign_outside; [exact Hnew|].
    by eapply mask_or_false. }
  split; [|split].
  - split; [done|]. split; [done|]. split; [by exists ynew|].
    right. by exists lr.
  - by exists lr.
  - exists ynew. split; [done|]. intros i Ht Hv. split; [by apply Hout|].
    rewrite Hout by done. destruct Hinv as (_ & _ & (yc & Hyc & Hagree) & _).
    rewrite Hyb in Hyc. injection Hyc as <-. symmetry. by apply Hagree.
Qed.

(** The invariant holds after any number of invocations. *)
Lemma LabelPerturbation_calls_pristine n self σ g data y0 tm vm data' σ' g' :
  is_Some (epsilon_y self) →
  labels_pristine σ data y0 tm vm →
  LabelPerturbation_calls n self σ g data = Some (data', σ', g') →
  labels_pristine σ' data' y0 tm vm
  ∧ ((1 ≤ n)%nat →
     ∃ lr, Data.y_raw data' = Some lr ∧ lr ≠ Data.y data' ∧ longs σ' !! lr = Some y0).
Proof.
  intros Heps. revert σ g data. induction n as [|n IH]; intros σ g data Hinv.
  - intros [= <- <- <-]. split; [done|]. intros H1. lia.
  - cbn [LabelPerturbation_calls].
    destruct (LabelPerturbation_call self σ g data) as [[[data1 σ1] g1]|] eqn:Hc; [|done].
    cbn [mbind option_bind]. intros Hcs.
    pose proof Hinv as (Htm & Hvm & (yc & Hyc & Hagree) & Hraw).
    destruct (LabelPerturbation_call_pristine self σ g data y0 tm vm data1 σ1 g1 yc)
      as (Hinv1 & Hlr1 & _); try done.
    destruct (IH σ1 g1 data1 Hinv1 Hcs) as [Hinv' Hlr'].
    split; [done|]. intros _. destruct n as [|n]; [|apply Hlr'; lia].
    by injection Hcs as <- <- <-.
Qed.


Lemma labels_pristine_initially σ data y0 :
  Data.y_raw data = None → longs σ !! Data.y data = Some y0 →
  labels_pristine σ data y0 (Data.train_mask data) (Data.val_mask data).
Proof.
  intros Hraw Hy. split; [done|]. split; [done|]. split; [by exists y0|]. by left.
Qed.

(** C6. Start from a dataset without a backup whose labels are [y0] and
    invoke an instance with [epsilon_y] set any number of times. Every further
    invocation leaves the masks as they are and, at every index that is
    neither in train nor in val (the test indices among them), the label after
    it is the label before it, which is the pristine label. *)
Theorem labels_outside_masks_unchanged (n : nat) self σ g data y0
    data_n σ_n g_n data' σ' g' :
  is_Some (epsilon_y self) →
  Data.y_raw data = None →
  longs σ !! Data.y data = Some y0 →
  LabelPerturbation_calls n self σ g data = Some (data_n, σ_n, g_n) →
  LabelPerturbation_call self σ_n g_n data_n = Some (data', σ', g') →
  ∃ yb ya,
    longs σ_n !! Data.y data_n = Some yb
    ∧ longs σ' !! Data.y data' = Some ya
    ∧ Data.train_mask data' = Data.train_mask data
    ∧ Data.val_mask data' = Data.val_mask data
    ∧ ∀ i, Data.train_mask data !! i = Some false →
           Data.val_mask data !! i = Some false →
           ya !! i = yb !! i ∧ ya !! i = y0 !! i.
Proof.
  intros Heps Hraw Hy Hcalls Hcall.
  pose proof (labels_pristine_initially σ data y0 Hraw Hy) as Hinv.
  destruct (LabelPerturbation_calls_pristine n self σ g data y0 _ _ data_n σ_n g_n
              Heps Hinv Hcalls) as [Hinv_n _].
  pose proof Hinv_n as (_ & _ & (yb & Hyb & _) & _).
  destruct (LabelPerturbation_call_pristine self σ_n g_n data_n y0 _ _ data' σ' g' yb
              Heps Hinv_n Hyb Hcall) as ((Htm & Hvm & _) & _ & ya & Hya & Hout).
  exists yb, ya. repeat split; try done; by apply Hout.
Qed.

(** C10. Under the same conditions, after any number of invocations the
    backup, once made, is a tensor other than the current labels and holds
    the labels [y0] present before the first invocation; lines 92-95 of the
    next invocation succeed and make [y0] the current labels, in a tensor
    other than the backup, so that no write into the current labels reaches
    the backup. *)
Theorem label_backup_is_independent (n : nat) self σ g data y0 data_n σ_n g_n :
  is_Some (epsilon_y self) →
  Data.y_raw data = None →
  longs σ !! Data.y data = Some y0 →
  LabelPerturbation_calls n self σ g data = Some (data_n, σ_n, g_n) →
  ((1 ≤ n)%nat →
   ∃ lr, Data.y_raw data_n = Some lr ∧ lr ≠ Data.y data_n
         ∧ longs σ_n !! lr = Some y0)
  ∧ ∃ d σ1 lr,
      backup_or_restore_y σ_n data_n = Some (d, σ1)
      ∧ longs σ1 !! Data.y d = Some y0
      ∧ Data.y_raw d = Some lr ∧ lr ≠ Data.y d
      ∧ longs σ1 !! lr = Some y0
      ∧ ∀ v, longs (write_long σ1 (Data.y d) v) !! lr = Some y0.
Proof.
  intros Heps Hraw Hy Hcalls.
  pose proof (labels_pristine_initially σ data y0 Hraw Hy) as Hinv.
  destruct (LabelPerturbation_calls_pristine n self σ g data y0 _ _ data_n σ_n g_n
              Heps Hinv Hcalls) as [Hinv_n Hlr].
  split; [exact Hlr|].
  assert (∃ d σ1, backup_or_restore_y σ_n data_n = Some (d, σ1)) as (d & σ1 & Hb).
  { destruct Hinv_n as (_ & _ & _ & [[Hr Hyn]|(lr & Hr & _ & Hl)]);
      unfold backup_or_restore_y; rewrite Hr.
    - rewrite Hyn. cbn [mbind option_bind]. destruct (alloc_long σ_n y0). by eexists _, _.
    - rewrite Hl. cbn [mbind option_bind]. destruct (alloc_long σ_n y0). by eexists _, _. }
  destruct (backup_or_restore_y_pristine _ _ _ _ _ _ _ Hinv_n Hb)
    as (_ & _ & _ & _ & Hy1 & lr & Hraw1 & Hne & Hlr1).
  exists d, σ1, lr. repeat split; try done.
  intros v. unfold write_long. cbn [longs]. by rewrite lookup_insert_ne.
Qed.

End LabelPerturbationProperties.

Section LabelPerturbationExamples.
Local Existing Instance Demo.ext.

Lemma labels_outside_masks_unchanged_witness :
  ∃ data_n σ_n g_n data' σ' g' yb ya,
    LabelPerturbation_calls 2 Demo.lp Demo.store0 0%nat Demo.data0
    = Some (data_n, σ_n, g_n)
    ∧ LabelPerturbation_call Demo.lp σ_n g_n data_n = Some (data', σ', g')
    ∧ longs σ_n !! Data.y data_n = Some yb
    ∧ longs σ' !! Data.y data' = Some ya
    ∧ ya !! 3%nat = yb !! 3%nat ∧ ya !! 3%nat = Demo.y0 !! 3%nat.
Proof.
  destruct (LabelPerturbation_calls (Ext := Demo.ext) 2 Demo.lp Demo.store0 0%nat
              Demo.data0)
    as [[[data_n σ_n] g_n]|] eqn:E; [|vm_compute in E; discriminate E].
  destruct (LabelPerturbation_call (Ext := Demo.ext) Demo.lp σ_n g_n data_n)
    as [[[data' σ'] g']|] eqn:E'.
  - destruct (labels_outside_masks_unchanged (Ext := Demo.ext) 2 Demo.lp Demo.store0
                0%nat Demo.data0 Demo.y0 data_n σ_n g_n data' σ' g')
      as (yb & ya & Hyb & Hya & _ & _ & Hout).
    + by eexists.
    + reflexivity.
    + reflexivity.
    + exact E.
    + exact E'.
    + exists data_n, σ_n, g_n, data', σ', g', yb, ya.
      repeat split; try done; by apply Hout.
  - vm_compute in E. injection E as <- <- <-. vm_compute in E'. discriminate E'.
Defined.

Lemma label_backup_is_independent_witness :
  ∃ data_n σ_n g_n lr,
    LabelPerturbation_calls 2 Demo.lp Demo.store0 0%nat Demo.data0
    = Some (data_n, σ_n, g_n)
    ∧ Data.y_raw data_n = Some lr ∧ lr ≠ Data.y data_n
    ∧ longs σ_n !! lr = Some Demo.y0.
Proof.
  destruct (LabelPerturbation_calls (Ext := Demo.ext) 2 Demo.lp Demo.store0 0%nat
              Demo.data0)
    as [[[data_n σ_n] g_n]|] eqn:E; [|vm_compute in E; discriminate E].
  destruct (label_backup_is_independent (Ext := Demo.ext) 2 Demo.lp Demo.store0
              0%nat Demo.data0 Demo.y0 data_n σ_n g_n) as [Hlr _].
  - by eexists.
  - reflexivity.
  - reflexivity.
  - exact E.
  - destruct Hlr as (lr & H1 & H2 & H3); [lia|].
    by exists data_n, σ_n, g_n, lr.
Defined.

(** The entry of [D_inv] for a node of degree zero is an infinity: the
    division is carried out. *)
Lemma inverse_degree_of_zero (deg : fvec) i :
  deg !! i = Some tzero → inverse_degree deg !! i = Some PInf.
Proof.
  intros H. unfold inverse_degree.
  change (map (tdiv tone) deg) with (tdiv tone <$> deg).
  by rewrite list_lookup_fmap, H.
Qed.

(** C3 on the example: node 2 has no neighbour among the training and
    validation nodes; its degree in the induced graph is 0, the entry of
    [D_inv] for it is [1 / 0], an infinity, nothing guarding the division;
    one round of propagation turns its row into [NaN], and the label decoded
    for it is class 0 whatever the mechanism answered. *)
Lemma isolated_node_divides_by_zero :
  let pm := [true; true; true; false] in
  let adj := sp_index (Data.adj_t Demo.data0) pm in
  mask_or (Data.train_mask Demo.data0) (Data.val_mask Demo.data0) = Some pm
  ∧ sp_sum_dim1 adj = [tone; tone; tzero]
  ∧ inverse_degree (sp_sum_dim1 adj) = [tone; tone; PInf]
  ∧ propagate_steps (lp_step Demo.lp) adj (sp_diag (inverse_degree (sp_sum_dim1 adj)))
                    [[tone; tzero]; [tzero; tone]; [tzero; tone]]
    = Some [[tzero; tone]; [tone; tzero]; [NaN; NaN]]
  ∧ fst <$> perturb Demo.lp (Q2Qc 1) 0%nat adj [0; 1; 1]%Z 2 = Some [1; 0; 0]%Z.
Proof. cbv zeta. repeat split; compute_done. Qed.

End LabelPerturbationExamples.

(** * Further properties of the transforms *)

(** ** FeaturePerturbation: what a call leaves alone *)

Section FeaturePerturbationFrame.
Context `{Ext : External}.

Lemma project_frame self σ g data data' σ' g' :
  project self σ g data = Some (data', σ', g') →
  longs σ' = longs σ
  ∧ (∀ l m, floats σ !! l = Some m → floats σ' !! l = Some m)
  ∧ Data.x_raw data' = Data.x_raw data
  ∧ Data.y data' = Data.y data ∧ Data.y_raw data' = Data.y_raw data
  ∧ Data.train_mask data' = Data.train_mask data
  ∧ Data.val_mask data' = Data.val_mask data
  ∧ Data.adj_t data' = Data.adj_t data
  ∧ Data.num_classes data' = Data.num_classes data.
Proof.
  unfold project. destruct (reduce_dim self) as [[|k]|]; try (intros [= <- <- <-]; done).
  destruct (num_features σ data) as [d|]; [|done]. cbn [mbind option_bind].
  unfold RandomizedProjection_init, RandomizedProjection_call.
  destruct (torch_rand g d (S k)) as [m g1].
  destruct (floats σ !! Data.x data) as [xv|]; [|done]. cbn [mbind option_bind].
  destruct (alloc_float σ _) as [l σ1] eqn:Ha. cbn [mbind option_bind].
  intros [= <- <- <-]. apply alloc_float_lookup in Ha as (_ & Hlongs & Hold).
  split; [done|]. split; [|done].
  intros l' m' Hl'. destruct (Hold l') as [_ ->]; [by eexists|done].
Qed.

(** What a successful invocation leaves as it was. *)
Lemma FeaturePerturbation_call_unchanged self σ g data self' data' σ' g' :
  FeaturePerturbation_call self σ g data = Some (self', data', σ', g') →
  longs σ' = longs σ
  ∧ (∀ l m, floats σ !! l = Some m → floats σ' !! l = Some m)
  ∧ Data.y data' = Data.y data ∧ Data.y_raw data' = Data.y_raw data
  ∧ Data.train_mask data' = Data.train_mask data
  ∧ Data.val_mask data' = Data.val_mask data
  ∧ Data.adj_t data' = Data.adj_t data
  ∧ Data.num_classes data' = Data.num_classes data
  ∧ mechanism_x self' = mechanism_x self
  ∧ reduce_dim self' = reduce_dim self
  ∧ epsilon_x self' = epsilon_x self.
Proof.
  unfold FeaturePerturbation_call.
  destruct (epsilon_x self) as [eps|] eqn:Heps; [|intros [= <- <- <- <-]; done].
  unfold FeaturePerturbation_prepare.
  destruct (freeze_input_range self σ (backup_or_restore_x data)) as [self1|] eqn:Hf; [|done].
  cbn [mbind option_bind].
  destruct (project self1 σ g (backup_or_restore_x data)) as [[[data2 σ2] g2]|] eqn:Hp;
    [|done].
  cbn [mbind option_bind].
  destruct (supported_feature_mechanisms (mechanism_x self1)) as [mech|]; [|done].
  cbn [mbind option_bind].
  destruct (input_range self1) as [r|]; [|done]. cbn [mbind option_bind].
  destruct (floats σ2 !! Data.x data2) as [xv|]; [|done]. cbn [mbind option_bind].
  destruct (mech eps r g2 xv) as [out g3].
  destruct (alloc_float σ2 out) as [l σ3] eqn:Ha. intros [= <- <- <- <-].
  apply alloc_float_lookup in Ha as (_ & Hlongs & Hold).
  apply project_frame in Hp as (Hl2 & Hf2 & _ & Hy & Hyr & Htm & Hvm & Hadj & Hnc).
  assert (Hself : mechanism_x self1 = mechanism_x self ∧ reduce_dim self1 = reduce_dim self
                  ∧ epsilon_x self1 = epsilon_x self).
  { unfold freeze_input_range in Hf. destruct (input_range self).
    - by injection Hf as <-.
    - destruct (floats σ !! _) as [xv0|]; [|done]. cbn [mbind option_bind] in Hf.
      destruct (vmin _); [|done]. cbn [mbind option_bind] in Hf.
      destruct (vmax _); [|done]. cbn [mbind option_bind] in Hf.
      by injection Hf as <-. }
  assert (Hb : Data.y (backup_or_restore_x data) = Data.y data
               ∧ Data.y_raw (backup_or_restore_x data) = Data.y_raw data
               ∧ Data.train_mask (backup_or_restore_x data) = Data.train_mask data
               ∧ Data.val_mask (backup_or_restore_x data) = Data.val_mask data
               ∧ Data.adj_t (backup_or_restore_x data) = Data.adj_t data
               ∧ Data.num_classes (backup_or_restore_x data) = Data.num_classes data).
  { unfold backup_or_restore_x. by destruct (Data.x_raw data). }
  destruct Hb as (? & ? & ? & ? & ? & ?). destruct Hself as (? & ? & ?).
  cbn [Data.set_x Data.y Data.y_raw Data.train_mask Data.val_mask Data.adj_t
       Data.num_classes].
  split; [congruence|]. split.
  - intros l' m' Hl'. apply Hf2 in Hl'. destruct (Hold l') as [_ ->]; [by eexists|done].
  - repeat split; congruence.
Qed.

(** X1. A successful invocation writes no tensor that existed before it:
    every attribute tensor of the store keeps its content (the results are
    new tensors), the label tensors are not touched, and the dataset keeps
    its labels, backup of labels, masks, adjacency and number of classes; the
    instance keeps its mechanism, its budget and its [reduce_dim]. *)
Theorem FeaturePerturbation_call_frame self σ g data self' data' σ' g' :
  FeaturePerturbation_call self σ g data = Some (self', data', σ', g') →
  longs σ' = longs σ
  ∧ (∀ l m, floats σ !! l = Some m → floats σ' !! l = Some m)
  ∧ Data.y data' = Data.y data ∧ Data.y_raw data' = Data.y_raw data
  ∧ Data.train_mask data' = Data.train_mask data
  ∧ Data.val_mask data' = Data.val_mask data
  ∧ Data.adj_t data' = Data.adj_t data
  ∧ Data.num_classes data' = Data.num_classes data
  ∧ mechanism_x self' = mechanism_x self
  ∧ reduce_dim self' = reduce_dim self
  ∧ epsilon_x self' = epsilon_x self.
Proof.
  unfold FeaturePerturbation_call.
  destruct (epsilon_x self) as [eps|] eqn:Heps; [|intros [= <- <- <- <-]; done].
  unfold FeaturePerturbation_prepare.
  destruct (freeze_input_range self σ (backup_or_restore_x data)) as [self1|] eqn:Hf; [|done].
  cbn [mbind option_bind].
  destruct (project self1 σ g (backup_or_restore_x data)) as [[[data2 σ2] g2]|] eqn:Hp;
    [|done].
  cbn [mbind option_bind].
  destruct (supported_feature_mechanisms (mechanism_x self1)) as [mech|]; [|done].
  cbn [mbind option_bind].
  destruct (input_range self1) as [r|]; [|done]. cbn [mbind option_bind].
  destruct (floats σ2 !! Data.x data2) as [xv|]; [|done]. cbn [mbind option_bind].
  destruct (mech eps r g2 xv) as [out g3].
  destruct (alloc_float σ2 out) as [l σ3] eqn:Ha. intros [= <- <- <- <-].
  apply alloc_float_lookup in Ha as (_ & Hlongs & Hold).
  apply project_frame in Hp as (Hl2 & Hf2 & _ & Hy & Hyr & Htm & Hvm & Hadj & Hnc).
  assert (Hself : mechanism_x self1 = mechanism_x self ∧ reduce_dim self1 = reduce_dim self
                  ∧ epsilon_x self1 = epsilon_x self).
  { unfold freeze_input_range in Hf. destruct (input_range self).
    - by injection Hf as <-.
    - destruct (floats σ !! _) as [xv0|]; [|done]. cbn [mbind option_bind] in Hf.
      destruct (vmin _); [|done]. cbn [mbind option_bind] in Hf.
      destruct (vmax _); [|done]. cbn [mbind option_bind] in Hf.
      by injection Hf as <-. }
  assert (Hb : Data.y (backup_or_restore_x data) = Data.y data
               ∧ Data.y_raw (backup_or_restore_x data) = Data.y_raw data
               ∧ Data.train_mask (backup_or_restore_x data) = Data.train_mask data
               ∧ Data.val_mask (backup_or_restore_x data) = Data.val_mask data
               ∧ Data.adj_t (backup_or_restore_x data) = Data.adj_t data
               ∧ Data.num_classes (backup_or_restore_x data) = Data.num_classes data).
  { unfold backup_or_restore_x. by destruct (Data.x_raw data). }
  destruct Hb as (? & ? & ? & ? & ? & ?). destruct Hself as (? & ? & ?).
  cbn [Data.set_x Data.y Data.y_raw Data.train_mask Data.val_mask Data.adj_t
       Data.num_classes].
  split; [congruence|]. split.
  - intros l' m' Hl'. apply Hf2 in Hl'. destruct (Hold l') as [_ ->]; [by eexists|done].
  - repeat split; congruence.
Qed.

(** X2. Once a backup exists, the attributes the dataset currently shows do
    not matter: whatever [data.x] has been rebound to since the last
    invocation (a normalised matrix, another encoding, a dangling reference),
    the next invocation perturbs the backup. *)
Theorem rebound_attributes_are_discarded self σ g data l0 x0 r eps mech (l : loc) :
  epsilon_x self = Some eps →
  supported_feature_mechanisms (mechanism_x self) = Some mech →
  input_range self = Some r →
  Data.x_raw data = Some l0 →
  floats σ !! l0 = Some x0 →
  ∃ self' data' σ',
    FeaturePerturbation_call self σ g (Data.set_x data l)
    = Some (self', data', σ', snd (perturb_pristine mech eps (reduce_dim self) r x0 g))
    ∧ floats σ' !! Data.x data'
      = Some (fst (perturb_pristine mech eps (reduce_dim self) r x0 g))
    ∧ Data.x_raw data' = Some l0.
Proof.
  intros Heps Hmech Hr Hraw Hl0.
  destruct (FeaturePerturbation_call_pristine self σ g (Data.set_x data l) l0 x0 r eps mech)
    as (self' & data' & σ' & Hc & Hx & Hraw' & _); try done.
  - split; [done|]. split; [by left|by left].
  - by exists self', data', σ'.
Qed.

(** X3. The range belongs to the instance, the backup to the dataset: an
    instance that froze its range on a first dataset passes that range, not
    the range of the new attributes, when it is invoked on a second dataset
    that has no backup yet. *)
Theorem range_of_first_dataset_is_reused self σ g dataA xA lo hi eps mech
    self1 dataA' σ1 g1 dataB xB :
  epsilon_x self = Some eps →
  supported_feature_mechanisms (mechanism_x self) = Some mech →
  input_range self = None →
  Data.x_raw dataA = None →
  floats σ !! Data.x dataA = Some xA →
  vmin (concat xA) = Some lo → vmax (concat xA) = Some hi →
  FeaturePerturbation_call self σ g dataA = Some (self1, dataA', σ1, g1) →
  Data.x_raw dataB = None →
  floats σ1 !! Data.x dataB = Some xB →
  input_range self1 = Some (lo, hi)
  ∧ ∃ self2 dataB' σ2,
      FeaturePerturbation_call self1 σ1 g1 dataB
      = Some (self2, dataB', σ2,
              snd (perturb_pristine mech eps (reduce_dim self) (lo, hi) xB g1))
      ∧ floats σ2 !! Data.x dataB'
        = Some (fst (perturb_pristine mech eps (reduce_dim self) (lo, hi) xB g1))
      ∧ input_range self2 = Some (lo, hi).
Proof.
  intros Heps Hmech Hnone HrawA HxA Hlo Hhi HcA HrawB HxB.
  destruct (FeaturePerturbation_call_pristine self σ g dataA (Data.x dataA) xA (lo, hi)
              eps mech) as (s & d & σ' & Hc & _ & _ & _ & Hr & Hm & Hd & He); try done.
  { split; [done|]. split; [by right|by right]. }
  rewrite Hc in HcA. injection HcA as <- <- <- <-.
  split; [done|].
  destruct (FeaturePerturbation_call_pristine s σ'
              (snd (perturb_pristine mech eps (reduce_dim self) (lo, hi) xA g))
              dataB (Data.x dataB) xB (lo, hi) eps mech)
    as (self2 & dataB' & σ2 & Hc2 & Hx2 & _ & _ & Hr2 & _); try congruence.
  { split; [done|]. split; [by right|by left]. }
  rewrite Hd in Hc2, Hx2. by exists self2, dataB', σ2.
Qed.

(** X4. A range given to the constructor is the range of every invocation:
    it is never recomputed, whatever the attributes are (they may lie outside
    it, and the matrix may be empty). *)
Theorem supplied_range_is_kept (k : nat) mname eps rd r σ g data x0 mech :
  supported_feature_mechanisms mname = Some mech →
  Data.x_raw data = None →
  floats σ !! Data.x data = Some x0 →
  let self := FeaturePerturbation_init mname (Some eps) rd (Some r) in
  let gk := generator_after k mech eps rd r x0 g in
  ∃ self_k data_k σ_k,
    FeaturePerturbation_calls k self σ g data = Some (self_k, data_k, σ_k, gk)
    ∧ input_range self_k = Some r
    ∧ ∃ s d σ',
        FeaturePerturbation_call self_k σ_k gk data_k
        = Some (s, d, σ', snd (perturb_pristine mech eps rd r x0 gk))
        ∧ input_range s = Some r
        ∧ floats σ' !! Data.x d = Some (fst (perturb_pristine mech eps rd r x0 gk)).
Proof.
  intros Hmech Hraw Hx self gk.
  assert (Hinv : pristine_at self σ data (Data.x data) x0 r).
  { split; [done|]. split; [by right|by left]. }
  destruct (FeaturePerturbation_calls_state k self σ g data (Data.x data) x0 r eps mech)
    as (self_k & data_k & σ_k & Hc & Hinv_k & Hm & Hd & He & Hk); try done.
  exists self_k, data_k, σ_k. split; [exact Hc|].
  assert (Hrk : input_range self_k = Some r).
  { destruct k as [|k]; [|apply Hk; lia].
    cbn [FeaturePerturbation_calls] in Hc. by injection Hc as <- <- <-. }
  split; [exact Hrk|].
  destruct (FeaturePerturbation_call_pristine self_k σ_k gk data_k _ _ _ eps mech Hinv_k)
    as (s & d & σ' & Hcall & Hxd & _ & _ & Hr & _);
    [by rewrite He|by rewrite Hm|].
  rewrite Hd in Hcall, Hxd. by exists s, d, σ'.
Qed.



(** X6. With [reduce_dim = k + 1], attributes of at least one column and a
    generator whose draws have the requested shape, the matrix handed to the
    mechanism has one row per node and [k + 1] columns. *)
Theorem projected_attributes_shape self σ g data l0 x0 r (k : nat) :
  (∀ g0 n m, length (fst (torch_rand g0 n m)) = n
             ∧ Forall (fun row => length row = m) (fst (torch_rand g0 n m))) →
  pristine_at self σ data l0 x0 r →
  reduce_dim self = Some (S k) →
  (0 < ncols x0)%nat →
  ∃ self1 data1 σ1 g1 inp,
    FeaturePerturbation_prepare self σ g data = Some (self1, data1, σ1, g1)
    ∧ floats σ1 !! Data.x data1 = Some inp
    ∧ length inp = length x0
    ∧ Forall (fun row => length row = S k) inp.
Proof.
  intros Hrand Hinv Hrd Hd.
  destruct (FeaturePerturbation_prepare_pristine self σ g data l0 x0 r Hinv)
    as (self1 & data1 & σ1 & Hp & Hx & _).
  eexists self1, data1, σ1, _, _. split; [exact Hp|]. split; [exact Hx|].
  rewrite Hrd. unfold projected.
  destruct (torch_rand g (ncols x0) (S k)) as [m g'] eqn:Hm.
  destruct (Hrand g (ncols x0) (S k)) as [Hlen Hrows]. rewrite Hm in Hlen, Hrows.
  cbn [fst] in *. split; [apply length_matmul|].
  unfold matmul. apply Forall_fmap, Forall_forall. intros row _. cbn.
  unfold columns. rewrite !length_map, length_seq.
  unfold ncols. destruct m as [|row0 m]; [simpl in Hlen; lia|].
  by apply Forall_cons in Hrows as [? _].
Qed.

End FeaturePerturbationFrame.

Lemma demo_rand_shape g n m :
  length (fst (Demo.rand g n m)) = n
  ∧ Forall (fun row => length row = m) (fst (Demo.rand g n m)).
Proof.
  unfold Demo.rand. cbn [fst]. split; [by rewrite length_map, length_seq|].
  apply Forall_fmap, Forall_forall. intros i _. cbn. by rewrite length_map, length_seq.
Qed.

Section FeaturePerturbationFrameExamples.
Local Existing Instance Demo.ext.

Lemma FeaturePerturbation_call_frame_witness :
  ∃ self' data' σ' g',
    FeaturePerturbation_call Demo.fp Demo.store0 0%nat Demo.data0
    = Some (self', data', σ', g')
    ∧ longs σ' = longs Demo.store0
    ∧ floats σ' !! 1%positive = Some Demo.x0.
Proof.
  destruct (FeaturePerturbation_call (Ext := Demo.ext) Demo.fp Demo.store0 0%nat Demo.data0)
    as [[[[self' data'] σ'] g']|] eqn:E; [|vm_compute in E; discriminate E].
  destruct (FeaturePerturbation_call_frame (Ext := Demo.ext) _ _ _ _ _ _ _ _ E)
    as (Hl & Hf & _).
  exists self', data', σ', g'. split; [done|]. split; [exact Hl|].
  apply Hf. reflexivity.
Defined.

Lemma rebound_attributes_are_discarded_witness :
  ∃ self' data' σ' g',
    FeaturePerturbation_call
      (FeaturePerturbation_init "mbm" (Some (Q2Qc 1)) None (Some (Demo.qz 0, Demo.qz 6)))
      Demo.store0 0%nat
      (Data.set_x (Data.set_x_raw Demo.data0 1%positive) 9%positive)
    = Some (self', data', σ', g')
    ∧ Data.x_raw data' = Some 1%positive.
Proof.
  destruct (rebound_attributes_are_discarded (Ext := Demo.ext)
              (FeaturePerturbation_init "mbm" (Some (Q2Qc 1)) None
                 (Some (Demo.qz 0, Demo.qz 6)))
              Demo.store0 0%nat (Data.set_x_raw Demo.data0 1%positive) 1%positive Demo.x0
              (Demo.qz 0, Demo.qz 6) (Q2Qc 1) Demo.shift_mechanism 9%positive)
    as (self' & data' & σ' & Hc & _ & Hraw); try reflexivity.
  eexists self', data', σ', _. split; [exact Hc|exact Hraw].
Defined.

Lemma range_of_first_dataset_is_reused_witness :
  ∃ self1 dataA' σ1 g1,
    FeaturePerturbation_call Demo.fp_plain Demo.store0 0%nat Demo.data0
    = Some (self1, dataA', σ1, g1)
    ∧ input_range self1 = Some (Demo.qz 0, Demo.qz 6).
Proof.
  destruct (FeaturePerturbation_call (Ext := Demo.ext) Demo.fp_plain Demo.store0 0%nat
              Demo.data0)
    as [[[[self1 dataA'] σ1] g1]|] eqn:E; [|vm_compute in E; discriminate E].
  destruct (range_of_first_dataset_is_reused (Ext := Demo.ext) Demo.fp_plain Demo.store0
              0%nat Demo.data0 Demo.x0 (Demo.qz 0) (Demo.qz 6) (Q2Qc 1) Demo.shift_mechanism
              self1 dataA' σ1 g1 Demo.data0 Demo.x0) as [Hr _]; try reflexivity.
  - exact E.
  - destruct (FeaturePerturbation_call_unchanged (Ext := Demo.ext) _ _ _ _ _ _ _ _ E)
      as (_ & Hf & _).
    apply Hf. reflexivity.
  - by exists self1, dataA', σ1, g1.
Defined.

Lemma supplied_range_is_kept_witness :
  ∃ self_k data_k σ_k g_k,
    FeaturePerturbation_calls 2
      (FeaturePerturbation_init "mbm" (Some (Q2Qc 1)) None (Some (Demo.qz 2, Demo.qz 3)))
      Demo.store0 0%nat Demo.data0
    = Some (self_k, data_k, σ_k, g_k)
    ∧ input_range self_k = Some (Demo.qz 2, Demo.qz 3).
Proof.
  destruct (supplied_range_is_kept (Ext := Demo.ext) 2 "mbm" (Q2Qc 1) None
              (Demo.qz 2, Demo.qz 3) Demo.store0 0%nat Demo.data0 Demo.x0
              Demo.shift_mechanism)
    as (self_k & data_k & σ_k & Hc & Hr & _); try reflexivity.
  eexists self_k, data_k, σ_k, _. split; [exact Hc|exact Hr].
Defined.

Lemma projected_attributes_shape_witness :
  ∃ self1 data1 σ1 g1 inp,
    FeaturePerturbation_prepare Demo.fp Demo.store0 0%nat Demo.data0
    = Some (self1, data1, σ1, g1)
    ∧ floats σ1 !! Data.x data1 = Some inp
    ∧ length inp = 4%nat
    ∧ Forall (fun row => length row = 2%nat) inp.
Proof.
  destruct (projected_attributes_shape (Ext := Demo.ext) Demo.fp Demo.store0 0%nat
              Demo.data0 1%positive Demo.x0 (Demo.qz 0, Demo.qz 6) 1)
    as (self1 & data1 & σ1 & g1 & inp & H1 & H2 & H3 & H4).
  - intros g0 n m. apply demo_rand_shape.
  - split; [reflexivity|]. split; [right; split; reflexivity|].
    right. repeat split; reflexivity.
  - reflexivity.
  - vm_compute. lia.
  - by exists self1, data1, σ1, g1, inp.
Defined.

End FeaturePerturbationFrameExamples.

(** ** LabelPerturbation: where the labels are written *)

Section LabelPerturbationFrame.
Context `{Ext : External}.

Lemma backup_or_restore_y_frame σ data data1 σ1 :
  backup_or_restore_y σ data = Some (data1, σ1) →
  floats σ1 = floats σ
  ∧ (∀ l v, longs σ !! l = Some v → longs σ1 !! l = Some v)
  ∧ Data.x data1 = Data.x data ∧ Data.x_raw data1 = Data.x_raw data
  ∧ (Data.y_raw data = None → Data.y data1 = Data.y data)
  ∧ (is_Some (Data.y_raw data) →
     Data.y_raw data1 = Data.y_raw data ∧ longs σ !! Data.y data1 = None).
Proof.
  unfold backup_or_restore_y. destruct (Data.y_raw data) as [lr|] eqn:Hraw.
  - destruct (longs σ !! lr) as [yv|]; [|done]. cbn [mbind option_bind].
    destruct (alloc_long σ yv) as [l σ'] eqn:Ha. intros [= <- <-].
    assert (Hfresh : longs σ !! l = None).
    { unfold alloc_long in Ha. injection Ha as <- _.
      apply not_elem_of_dom, is_fresh. }
    apply alloc_long_lookup in Ha as (_ & Hf & Hold).
    split; [done|]. split.
    + intros l' v Hl'. destruct (Hold l') as [_ ->]; [by eexists|done].
    + cbn [Data.set_y Data.x Data.x_raw Data.y Data.y_raw].
      split; [done|]. split; [done|]. split; [by intros [=]|]. intros _. split; [done|exact Hfresh].
  - destruct (longs σ !! Data.y data) as [yv|]; [|done]. cbn [mbind option_bind].
    destruct (alloc_long σ yv) as [l σ'] eqn:Ha. intros [= <- <-].
    apply alloc_long_lookup in Ha as (_ & Hf & Hold).
    split; [done|]. split.
    + intros l' v Hl'. destruct (Hold l') as [_ ->]; [by eexists|done].
    + cbn [Data.set_y_raw Data.x Data.x_raw Data.y Data.y_raw].
      split; [done|]. split; [done|]. split; [done|]. by intros [? [=]].
Qed.

(** X8. A successful invocation with a budget never touches the attribute
    tensors. On a dataset without a backup it writes the new labels into the
    very tensor the dataset's labels live in, so that every other reference
    to that tensor sees them. On a dataset with a backup it writes them into
    a new tensor, and every label tensor that existed before keeps its
    content. *)
Theorem LabelPerturbation_call_writes self σ g data data' σ' g' :
  is_Some (epsilon_y self) →
  LabelPerturbation_call self σ g data = Some (data', σ', g') →
  floats σ' = floats σ
  ∧ Data.x data' = Data.x data ∧ Data.x_raw data' = Data.x_raw data
  ∧ (Data.y_raw data = None →
     Data.y data' = Data.y data
     ∧ ∀ l v, l ≠ Data.y data → longs σ !! l = Some v → longs σ' !! l = Some v)
  ∧ (is_Some (Data.y_raw data) →
     Data.y_raw data' = Data.y_raw data
     ∧ longs σ !! Data.y data' = None
     ∧ ∀ l v, longs σ !! l = Some v → longs σ' !! l = Some v).
Proof.
  intros [eps Heps]. unfold LabelPerturbation_call. rewrite Heps.
  destruct (backup_or_restore_y σ data) as [[data1 σ1]|] eqn:Hb; [|done].
  cbn [mbind option_bind].
  destruct (mask_or _ _) as [pm|]; [|done]. cbn [mbind option_bind].
  destruct (longs σ1 !! Data.y data1) as [yv|]; [|done]. cbn [mbind option_bind].
  destruct (masked_select pm yv) as [ysel|]; [|done]. cbn [mbind option_bind].
  destruct (perturb _ _ _ _ _ _) as [[labels g1]|]; [|done]. cbn [mbind option_bind].
  destruct (masked_assign pm labels yv) as [ynew|]; [|done]. cbn [mbind option_bind].
  intros [= <- <- <-].
  apply backup_or_restore_y_frame in Hb as (Hf & Hold & Hx & Hxr & Hnone & Hsome).
  unfold write_long. cbn [floats longs].
  split; [done|]. split; [done|]. split; [done|]. split.
  - intros Hraw. specialize (Hnone Hraw). split; [done|].
    intros l v Hne Hl. rewrite lookup_insert_ne by congruence. by apply Hold.
  - intros Hraw. destruct (Hsome Hraw) as [Hr Hfresh]. split; [done|]. split; [done|].
    intros l v Hl. rewrite lookup_insert_ne by (intros <-; congruence). by apply Hold.
Qed.

End LabelPerturbationFrame.

Section LabelPerturbationFrameExamples.
Local Existing Instance Demo.ext.

Lemma LabelPerturbation_call_writes_witness :
  ∃ data' σ' g',
    LabelPerturbation_call Demo.lp Demo.store0 0%nat Demo.data0 = Some (data', σ', g')
    ∧ floats σ' = floats Demo.store0
    ∧ Data.y data' = Data.y Demo.data0.
Proof.
  destruct (LabelPerturbation_call (Ext := Demo.ext) Demo.lp Demo.store0 0%nat Demo.data0)
    as [[[data' σ'] g']|] eqn:E; [|vm_compute in E; discriminate E].
  destruct (LabelPerturbation_call_writes (Ext := Demo.ext) Demo.lp Demo.store0 0%nat
              Demo.data0 data' σ' g') as (Hf & _ & _ & Hnone & _).
  - by eexists.
  - exact E.
  - exists data', σ', g'. split; [done|]. split; [exact Hf|]. by apply Hnone.
Defined.

End LabelPerturbationFrameExamples.

(** ** Decoding: argmax *)

Section ArgmaxProperties.

Lemma argmax_from_range bi b i (l : list tval) :
  (bi < i)%nat → (bi ≤ argmax_from bi b i l < i + length l)%nat
                 ∨ argmax_from bi b i l = bi.
Proof.
  revert bi b i. induction l as [|a l IH]; intros bi b i Hb; cbn [argmax_from].
  - by right.
  - destruct (beats a b).
    + destruct (IH i a (S i)) as [H|H]; [lia| |]; left; cbn [length]; lia.
    + destruct (IH bi b (S i)) as [H|H]; [lia| |]; [left; cbn [length]; lia|by right].
Qed.

(** The scan of the rest [l] of a row, which starts at position [i], with
    the best entry so far [b] at position [bi]: the result holds a largest
    entry [m], and it is the first position to do so. *)
Lemma argmax_from_spec (l : list tval) : ∀ bi (b : Qc) i,
  Forall is_fin l → (bi < i)%nat →
  let c := argmax_from bi (Fin b) i l in
  ∃ m, (c = bi ∧ m = b ∨ (i ≤ c)%nat ∧ l !! (c - i)%nat = Some (Fin m))
       ∧ (b ≤ m)%Qc
       ∧ (c ≠ bi → (b < m)%Qc)
       ∧ ∀ j q, l !! j = Some (Fin q) →
                (q ≤ m)%Qc ∧ ((i + j < c)%nat → (q < m)%Qc).
Proof.
  induction l as [|a l IH]; intros bi b i Hl Hb; cbn [argmax_from].
  - exists b. split; [by left|]. split; [apply Qcle_refl|]. split; [done|].
    intros j q Hj. by rewrite lookup_nil in Hj.
  - apply Forall_cons in Hl as [[qa ->] Hl].
    cbn [beats tltb]. destruct (Qc_ltb b qa) eqn:Hlt.
    + apply Qc_ltb_lt in Hlt.
      destruct (IH i qa (S i) Hl) as (m & Hpos & Hle & Hne & Hall); [lia|].
      exists m. split; [|split; [|split]].
      * right. destruct Hpos as [[-> ->]|[Hc Hlk]].
        -- split; [lia|]. by rewrite Nat.sub_diag.
        -- split; [lia|].
           replace (argmax_from i (Fin qa) (S i) l - i)%nat
             with (S (argmax_from i (Fin qa) (S i) l - S i)) by lia.
           done.
      * apply Qcle_trans with qa; [by apply Qclt_le_weak|done].
      * intros _. by apply Qclt_le_trans with qa.
      * intros [|j] q Hj.
        -- injection Hj as <-. split; [done|]. intros Hc. apply Hne. lia.
        -- destruct (Hall j q Hj) as [H1 H2]. split; [done|].
           intros Hc. apply H2. lia.
    + apply Qc_ltb_ge in Hlt.
      destruct (IH bi b (S i) Hl) as (m & Hpos & Hle & Hne & Hall); [lia|].
      exists m. split; [|split; [|split]].
      * destruct Hpos as [[Hc ->]|[Hc Hlk]]; [by left|right].
        split; [lia|].
        replace (argmax_from bi (Fin b) (S i) l - i)%nat
          with (S (argmax_from bi (Fin b) (S i) l - S i)) by lia.
        done.
      * done.
      * done.
      * intros [|j] q Hj.
        -- injection Hj as <-. split; [by apply Qcle_trans with b|].
           intros Hc. apply Qcle_lt_trans with b; [done|]. apply Hne.
           destruct (argmax_from_range bi (Fin b) (S i) l) as [H|H]; lia.
        -- destruct (Hall j q Hj) as [H1 H2]. split; [done|].
           intros Hc. apply H2. lia.
Qed.

(** The position [argmax] returns holds a largest entry, the first one. *)
Lemma argmax_largest (l : list tval) :
  l ≠ [] → Forall is_fin l →
  ∃ c m, argmax l = Some (Z.of_nat c)
         ∧ l !! c = Some (Fin m)
         ∧ ∀ j q, l !! j = Some (Fin q) → (q ≤ m)%Qc ∧ ((j < c)%nat → (q < m)%Qc).
Proof.
  intros Hne Hl. destruct l as [|a l]; [done|].
  apply Forall_cons in Hl as [[b ->] Hl]. cbn [argmax].
  destruct (argmax_from_spec l 0%nat b 1%nat Hl) as (m & Hpos & Hle & Hlt & Hall); [lia|].
  exists (argmax_from 0 (Fin b) 1 l), m. split; [done|]. split.
  - destruct Hpos as [[-> ->]|[Hc Hlk]]; [done|].
    destruct (argmax_from 0 (Fin b) 1 l) as [|c]; [lia|].
    cbn in Hlk. by rewrite Nat.sub_0_r in Hlk.
  - intros [|j] q Hj.
    + injection Hj as <-. split; [done|]. intros Hc. apply Hlt. lia.
    + cbn in Hj. destruct (Hall j q Hj) as [H1 H2]. split; [done|].
      intros Hc. apply H2. lia.
Qed.

(** X9. Decoding a finite, non-empty row succeeds and returns a position of
    the row that holds a largest entry, and the first such position: every
    entry is at most the entry there, and every entry before it is strictly
    smaller. *)
Theorem argmax_first_largest (l : list tval) :
  l ≠ [] → Forall is_fin l →
  ∃ c m, argmax l = Some (Z.of_nat c)
         ∧ l !! c = Some (Fin m)
         ∧ ∀ j q, l !! j = Some (Fin q) → (q ≤ m)%Qc ∧ ((j < c)%nat → (q < m)%Qc).
Proof.
  intros Hne Hl. destruct l as [|a l]; [done|].
  apply Forall_cons in Hl as [[b ->] Hl]. cbn [argmax].
  destruct (argmax_from_spec l 0%nat b 1%nat Hl) as (m & Hpos & Hle & Hlt & Hall); [lia|].
  exists (argmax_from 0 (Fin b) 1 l), m. split; [done|]. split.
  - destruct Hpos as [[-> ->]|[Hc Hlk]]; [done|].
    destruct (argmax_from 0 (Fin b) 1 l) as [|c]; [lia|].
    cbn in Hlk. by rewrite Nat.sub_0_r in Hlk.
  - intros [|j] q Hj.
    + injection Hj as <-. split; [done|]. intros Hc. apply Hlt. lia.
    + cbn in Hj. destruct (Hall j q Hj) as [H1 H2]. split; [done|].
      intros Hc. apply H2. lia.
Qed.

Lemma argmax_first_largest_witness :
  ∃ c m, argmax [Demo.qz 1; Demo.qz 5; Demo.qz 5; Demo.qz 2] = Some (Z.of_nat c)
         ∧ [Demo.qz 1; Demo.qz 5; Demo.qz 5; Demo.qz 2] !! c = Some (Fin m).
Proof.
  destruct (argmax_first_largest [Demo.qz 1; Demo.qz 5; Demo.qz 5; Demo.qz 2])
    as (c & m & H1 & H2 & _).
  - discriminate.
  - repeat (constructor; [eexists; reflexivity|]). constructor.
  - by exists c, m.
Defined.

End ArgmaxProperties.

(** ** Decoding a one-hot response *)

Section OneHotRoundTrip.
Context `{Ext : External}.

Lemma one_hot_row_lookup d c j :
  (j < d)%nat → one_hot_row d c !! j = Some (if decide (j = c) then tone else tzero).
Proof.
  intros Hj. unfold one_hot_row.
  change (map ?f ?l) with (f <$> l).
  rewrite list_lookup_fmap, lookup_seq_lt by done. done.
Qed.

Lemma one_hot_row_fin d c : Forall is_fin (one_hot_row d c).
Proof.
  unfold one_hot_row. apply Forall_fmap, Forall_forall. intros j _. cbn.
  case_decide; eexists; reflexivity.
Qed.

Lemma length_one_hot_row d c : length (one_hot_row d c) = d.
Proof. unfold one_hot_row. by rewrite length_map, length_seq. Qed.

Lemma argmax_one_hot_row d c :
  (c < d)%nat → argmax (one_hot_row d c) = Some (Z.of_nat c).
Proof.
  intros Hc.
  destruct (argmax_largest (one_hot_row d c)) as (c' & m & -> & Hm & Hall).
  - intros H. apply (f_equal length) in H. rewrite length_one_hot_row in H. simpl in H. lia.
  - apply one_hot_row_fin.
  - f_equal. f_equal.
    assert (Hc' : (c' < d)%nat).
    { apply lookup_lt_Some in Hm. by rewrite length_one_hot_row in Hm. }
    rewrite one_hot_row_lookup in Hm by done.
    destruct (decide (c' = c)) as [->|Hne]; [done|exfalso].
    injection Hm as <-.
    destruct (Hall c (Q2Qc 1)) as [Hle _].
    { rewrite one_hot_row_lookup by done. by rewrite decide_True. }
    revert Hle. apply Qclt_not_le. by apply Qc_ltb_lt.
Qed.

Lemma scatter_select_id {A} (mask : list bool) (v : list A) :
  scatter_by mask (select_by mask v) v = v.
Proof.
  revert v. induction mask as [|b mask IH]; intros [|a v]; simpl; try done.
  destruct b; simpl; by rewrite IH.
Qed.

Lemma length_select_by {A} (mask : list bool) (v : list A) :
  length mask = length v → length (select_by mask v) = count_true mask.
Proof.
  revert v. induction mask as [|b mask IH]; intros [|a v] Hl; simpl in *; try done.
  rewrite count_true_cons. destruct b; simpl; rewrite IH; lia.
Qed.

(** Writing back what was read through the same mask changes nothing. *)
Lemma masked_assign_select {A} (mask : list bool) (v : list A) :
  length mask = length v →
  masked_assign mask (select_by mask v) v = Some v.
Proof.
  intros Hl. unfold masked_assign. rewrite decide_True by done.
  rewrite decide_True by by apply length_select_by.
  by rewrite scatter_select_id.
Qed.

Lemma mapM_decode (d : nat) (cs : list Z) :
  Forall (fun c => 0 ≤ c < Z.of_nat d)%Z cs →
  mapM argmax (map (fun c => one_hot_row d (Z.to_nat c)) cs) = Some cs.
Proof.
  induction 1 as [|c cs Hc _ IH]; [done|].
  cbn [map mapM]. rewrite argmax_one_hot_row by lia. cbn [mbind option_bind].
  rewrite IH. cbn [mbind option_bind mret option_ret]. f_equal. f_equal. lia.
Qed.

(** X10. Encoding and decoding are inverse: when no propagation is asked for
    and the mechanism answers, for the labels of the training and validation
    nodes, the one-hot rows of those very labels, the invocation succeeds and
    every label of the dataset is what it was. *)
Theorem truthful_response_keeps_labels self σ g data y0 eps mech pm g' :
  epsilon_y self = Some eps →
  lp_step self = 0%nat →
  supported_label_mechanisms (mechanism_y self) = Some mech →
  Data.y_raw data = None →
  longs σ !! Data.y data = Some y0 →
  mask_or (Data.train_mask data) (Data.val_mask data) = Some pm →
  length pm = length y0 →
  Forall (fun c => 0 ≤ c < Z.of_nat (Data.num_classes data))%Z (select_by pm y0) →
  mech eps (Data.num_classes data) g (select_by pm y0)
  = (map (fun c => one_hot_row (Data.num_classes data) (Z.to_nat c)) (select_by pm y0), g') →
  ∃ data' σ',
    LabelPerturbation_call self σ g data = Some (data', σ', g')
    ∧ longs σ' !! Data.y data' = Some y0
    ∧ Data.y data' = Data.y data.
Proof.
  intros Heps Hstep Hmech Hraw Hy Hpm Hlen Hrange Hresp.
  unfold LabelPerturbation_call, backup_or_restore_y. rewrite Heps, Hraw, Hy.
  cbn [mbind option_bind].
  destruct (alloc_long σ y0) as [lr σ1] eqn:Ha.
  apply alloc_long_lookup in Ha as (_ & _ & Hold).
  destruct (Hold (Data.y data)) as [Hne Hy1]; [by eexists|].
  cbn [mbind option_bind Data.set_y_raw Data.train_mask Data.val_mask Data.y
       Data.adj_t Data.num_classes].
  rewrite Hpm. cbn [mbind option_bind]. rewrite Hy1, Hy. cbn [mbind option_bind].
  unfold masked_select. rewrite decide_True by done. cbn [mbind option_bind].
  unfold perturb. rewrite Hmech. cbn [mbind option_bind]. rewrite Hresp, Hstep.
  cbn [propagate_steps mbind option_bind]. rewrite mapM_decode by done.
  cbn [mbind option_bind]. rewrite masked_assign_select by done.
  cbn [mbind option_bind].
  eexists _, _. split; [reflexivity|]. cbn [Data.y].
  split; [|done]. unfold write_long. cbn [longs]. apply lookup_insert_eq.
Qed.

End OneHotRoundTrip.

Section OneHotRoundTripExamples.
Local Existing Instance Demo.ext.

Lemma truthful_response_keeps_labels_witness :
  ∃ data' σ',
    LabelPerturbation_call (mkLP "krr" (Some (Q2Qc 1)) 0) Demo.store0 0%nat Demo.data0
    = Some (data', σ', 1%nat)
    ∧ longs σ' !! Data.y data' = Some Demo.y0.
Proof.
  destruct (truthful_response_keeps_labels (Ext := Demo.ext)
              (mkLP "krr" (Some (Q2Qc 1)) 0) Demo.store0 0%nat Demo.data0 Demo.y0
              (Q2Qc 1) Demo.flip_mechanism [true; true; true; false] 1%nat)
    as (data' & σ' & Hc & Hy & _); try reflexivity.
  - cbn. repeat (constructor; [lia|]). constructor.
  - by exists data', σ'.
Defined.

End OneHotRoundTripExamples.


(** ** Propagation on a graph without isolated nodes *)

Section PropagationProperties.

Lemma qsum_cons (a : tval) (l : list tval) : qsum (a :: l) = (qv a + qsum l)%Qc.
Proof. reflexivity. Qed.

Lemma vsum_from (l : list tval) (a : Qc) :
  Forall is_fin l → fold_left tadd l (Fin a) = Fin (a + qsum l)%Qc.
Proof.
  intros Hl. revert a. induction Hl as [|v l [q ->] _ IH]; intros a.
  - cbn. by rewrite Qcplus_0_r.
  - cbn [fold_left tadd]. rewrite IH, qsum_cons. cbn [qv]. f_equal. ring.
Qed.

Lemma vsum_qsum (l : list tval) : Forall is_fin l → vsum l = Fin (qsum l).
Proof.
  intros Hl. unfold vsum, tzero. rewrite vsum_from by done. f_equal. ring.
Qed.
















End PropagationProperties.

Section PropagationExamples.



End PropagationExamples.

(** ** NodeSplit: the masks node by node *)

Section NodeSplitMore.
Context `{Ext : External}.

Lemma mask_rank_lt (mask : list bool) i :
  mask !! i = Some true → (mask_rank mask i < count_true mask)%nat.
Proof.
  unfold mask_rank. revert i. induction mask as [|b mask IH]; intros [|i] Hi; try done.
  - cbn in Hi. injection Hi as ->. cbn [take]. rewrite count_true_cons.
    unfold count_true at 1. cbn. lia.
  - cbn in Hi. cbn [take]. rewrite !count_true_cons. specialize (IH i Hi). lia.
Qed.

Lemma scatter_by_zeros_written (mask vals : list bool) n i :
  length mask = n → length vals = count_true mask →
  mask !! i = Some true → vals !! mask_rank mask i = Some true →
  scatter_by mask vals (zeros_bool n) !! i = Some true.
Proof.
  unfold zeros_bool, mask_rank.
  revert vals n i. induction mask as [|b mask IH]; intros vals n i Hn Hl Hm Hv; [done|].
  destruct n as [|n]; [done|]. cbn [replicate scatter_by]. injection Hn as Hn.
  rewrite count_true_cons in Hl. destruct i as [|i].
  - cbn in Hm. injection Hm as ->. destruct vals as [|c vals]; [done|].
    cbn in Hv. injection Hv as ->. done.
  - cbn in Hm. cbn [take] in Hv. rewrite count_true_cons in Hv. destruct b.
    + destruct vals as [|c vals]; [done|]. cbn in Hv |- *. apply IH; try done.
      cbn in Hl. lia.
    + cbn in Hv |- *. apply IH; try done.
Qed.

(** A scattered mask holds at a node exactly when the node is eligible and
    its rank among the eligible nodes is one of the chosen positions. *)
Lemma scattered_mask_iff (nwc : list bool) (idx : list nat) N :
  length nwc = N → NoDup idx → (∀ i, i ∈ idx → (i < count_true nwc)%nat) →
  ∃ m, masked_assign nwc (index_fill idx true (zeros_bool (count_true nwc)))
                     (zeros_bool N) = Some m
       ∧ ∀ i, m !! i = Some true ↔ nwc !! i = Some true ∧ mask_rank nwc i ∈ idx.
Proof.
  intros Hn Hnd Hlt.
  destruct (scattered_mask nwc idx N Hn Hnd Hlt) as (m & Hm & _ & _ & Hi).
  exists m. split; [done|]. intros i. split; [apply Hi|]. intros [H1 H2].
  unfold masked_assign in Hm. rewrite decide_True in Hm by (unfold zeros_bool; by rewrite length_replicate).
  rewrite decide_True in Hm by (rewrite length_index_fill; apply length_replicate).
  injection Hm as <-. apply scatter_by_zeros_written; try done.
  - rewrite length_index_fill. apply length_replicate.
  - apply index_fill_zeros_true. split; [done|]. by apply Hlt.
Qed.

(** The masks of a call, node by node. *)
Lemma NodeSplit_call_char (tr : option spec_float) (va te : spec_float) (rs : option Z)
    (self : NodeSplit) (g : Gen) (N : nat) (labels : y_attr) (nwc : list bool)
    (nt nv ne : Z) :
  (∀ g0 n, Permutation (fst (torch_randperm g0 n)) (seq 0 n)) →
  NodeSplit_init tr va te rs = Some self →
  SFleb F64.zero va = true → SFleb F64.zero te = true →
  (∀ yv, labels = y_tensor yv → length yv = N) →
  nodes_with_class N labels = Some nwc →
  int_of_ratio (train_ratio self) (count_true nwc) = Some nt →
  int_of_ratio va (count_true nwc) = Some nv →
  int_of_ratio te (count_true nwc) = Some ne →
  let n := count_true nwc in
  let p1 := Z.to_nat (Z.min nt (Z.of_nat n)) in
  let p2 := Z.to_nat (Z.min (nt + nv) (Z.of_nat n)) in
  let p3 := Z.to_nat (Z.min (nt + nv + ne) (Z.of_nat n)) in
  ∃ masks self' g' perm,
    NodeSplit_call self g N labels = Some (masks, self', g')
    ∧ perm = fst (torch_randperm (default g (rng self)) n)
    ∧ (p1 ≤ p2 ≤ p3)%nat ∧ (p3 ≤ n)%nat
    ∧ (0 ≤ nt)%Z ∧ (0 ≤ nv)%Z ∧ (0 ≤ ne)%Z
    ∧ (∀ i, m_train masks !! i = Some true
            ↔ nwc !! i = Some true ∧ mask_rank nwc i ∈ segment perm 0 p1)
    ∧ (∀ i, m_val masks !! i = Some true
            ↔ nwc !! i = Some true ∧ mask_rank nwc i ∈ segment perm p1 p2)
    ∧ (∀ i, m_test masks !! i = Some true
            ↔ nwc !! i = Some true ∧ mask_rank nwc i ∈ segment perm p2 p3).
Proof.
  intros Hperm Hinit Hva Hte Hlab Hnwc Ent Env Ene n.
  destruct (NodeSplit_init_ratios _ _ _ _ _ Hinit) as (Htr & Hv & Ht).
  apply SFltb_SFleb_zero in Htr.
  unfold NodeSplit_call. rewrite Hnwc. cbn [mbind option_bind].
  rewrite Hv, Ht. fold n. fold n in Ent, Env, Ene.
  rewrite Ent, Env, Ene. cbn [mbind option_bind].
  pose proof (int_of_ratio_nonneg _ _ _ Htr Ent) as Hnt.
  pose proof (int_of_ratio_nonneg _ _ _ Hva Env) as Hnv.
  pose proof (int_of_ratio_nonneg _ _ _ Hte Ene) as Hne.
  cbv zeta.
  assert (Hlen : length nwc = N) by by eapply length_nodes_with_class.
  destruct (rng self) as [r|];
    [destruct (torch_randperm r n) as [perm r'] eqn:E; pose proof (Hperm r n) as Hp
    |destruct (torch_randperm g n) as [perm g1] eqn:E; pose proof (Hperm g n) as Hp].
  all: cbn [from_option]; unfold id; rewrite E; rewrite E in Hp; cbn [fst] in Hp |- *.
  all: destruct (Permutation_seq_facts perm n Hp) as (Hnd & Hpl & Hlt).
  all: rewrite !py_slice_nonneg by lia.
  all: rewrite Hpl.
  all: replace (Z.to_nat (Z.min 0 (Z.of_nat n))) with 0%nat by lia.
  all: set (p1 := Z.to_nat (Z.min nt (Z.of_nat n))).
  all: set (p2 := Z.to_nat (Z.min (nt + nv) (Z.of_nat n))).
  all: set (p3 := Z.to_nat (Z.min (nt + nv + ne) (Z.of_nat n))).
  all: assert (Hin : ∀ p q i, i ∈ segment perm p q → (i < n)%nat)
         by (intros p q i (j & _ & Hj)%segment_elem; apply Hlt;
             by eapply list_elem_of_lookup_2).
  all: destruct (scattered_mask_iff nwc (segment perm p1 p2) N Hlen
                   (NoDup_segment perm p1 p2 Hnd) (Hin p1 p2)) as (mv & Hmv & Hiv);
       change (count_true nwc) with n in Hmv; rewrite Hmv.
  all: destruct (scattered_mask_iff nwc (segment perm p2 p3) N Hlen
                   (NoDup_segment perm p2 p3 Hnd) (Hin p2 p3)) as (me & Hme & Hie);
       change (count_true nwc) with n in Hme; rewrite Hme.
  all: destruct (scattered_mask_iff nwc (segment perm 0 p1) N Hlen
                   (NoDup_segment perm 0 p1 Hnd) (Hin 0%nat p1)) as (mt & Hmt & Hit);
       change (count_true nwc) with n in Hmt; rewrite Hmt.
  all: cbn [mbind option_bind]; do 4 eexists; (split; [reflexivity|]).
  all: cbn [m_train m_val m_test].
  all: split; [reflexivity|]; split; [lia|]; split; [lia|]; done.
Qed.

(** X14. The ratios are Python floats. With ratios of validation and test
    that are not negative and [nt], [nv], [ne] the three values of
    [int(ratio * n)] (the product rounded to double precision, then
    truncated), a node is in the training mask exactly when it is eligible and
    its rank among the eligible nodes is one of the first [nt] entries of the
    permutation drawn from the generator in use (the instance's own when it
    was seeded, the global one otherwise); the validation mask takes the next
    [nv] entries and the test mask the next [ne], each segment ending where
    the permutation ends. *)
Theorem NodeSplit_assigns_by_rank (tr : option spec_float) (va te : spec_float)
    (rs : option Z) (self : NodeSplit) (g : Gen) (N : nat) (labels : y_attr)
    (nwc : list bool) (nt nv ne : Z) :
  (∀ g0 n, Permutation (fst (torch_randperm g0 n)) (seq 0 n)) →
  NodeSplit_init tr va te rs = Some self →
  SFleb F64.zero va = true → SFleb F64.zero te = true →
  (∀ yv, labels = y_tensor yv → length yv = N) →
  nodes_with_class N labels = Some nwc →
  int_of_ratio (train_ratio self) (count_true nwc) = Some nt →
  int_of_ratio va (count_true nwc) = Some nv →
  int_of_ratio te (count_true nwc) = Some ne →
  let n := count_true nwc in
  let p1 := Z.to_nat (Z.min nt (Z.of_nat n)) in
  let p2 := Z.to_nat (Z.min (nt + nv) (Z.of_nat n)) in
  let p3 := Z.to_nat (Z.min (nt + nv + ne) (Z.of_nat n)) in
  let perm := fst (torch_randperm (default g (rng self)) n) in
  ∃ masks self' g',
    NodeSplit_call self g N labels = Some (masks, self', g')
    ∧ (∀ i, m_train masks !! i = Some true
            ↔ nwc !! i = Some true ∧ mask_rank nwc i ∈ segment perm 0 p1)
    ∧ (∀ i, m_val masks !! i = Some true
            ↔ nwc !! i = Some true ∧ mask_rank nwc i ∈ segment perm p1 p2)
    ∧ (∀ i, m_test masks !! i = Some true
            ↔ nwc !! i = Some true ∧ mask_rank nwc i ∈ segment perm p2 p3).
Proof.
  intros Hperm Hinit Hva Hte Hlab Hnwc Ent Env Ene. cbv zeta.
  destruct (NodeSplit_call_char tr va te rs self g N labels nwc nt nv ne
              Hperm Hinit Hva Hte Hlab Hnwc Ent Env Ene)
    as (masks & self' & g' & perm & Hc & -> & _ & _ & _ & _ & _ & H1 & H2 & H3).
  by exists masks, self', g'.
Qed.

(** X15. When the three values of [int(ratio * n)] add up to the number of
    eligible nodes, the split is a partition of the eligible nodes: every
    eligible node is in one of the three masks, and in one only. (With the
    ratios 0.29, 0.25 and 0.46 on a hundred nodes they add up to 99.) *)
Theorem NodeSplit_exact_partition (tr : option spec_float) (va te : spec_float)
    (rs : option Z) (self : NodeSplit) (g : Gen) (N : nat) (labels : y_attr)
    (nwc : list bool) (nt nv ne : Z) :
  (∀ g0 n, Permutation (fst (torch_randperm g0 n)) (seq 0 n)) →
  NodeSplit_init tr va te rs = Some self →
  SFleb F64.zero va = true → SFleb F64.zero te = true →
  (∀ yv, labels = y_tensor yv → length yv = N) →
  nodes_with_class N labels = Some nwc →
  int_of_ratio (train_ratio self) (count_true nwc) = Some nt →
  int_of_ratio va (count_true nwc) = Some nv →
  int_of_ratio te (count_true nwc) = Some ne →
  (nt + nv + ne = Z.of_nat (count_true nwc))%Z →
  ∃ masks self' g',
    NodeSplit_call self g N labels = Some (masks, self', g')
    ∧ ∀ i, nwc !! i = Some true →
           (m_train masks !! i = Some true ∨ m_val masks !! i = Some true
            ∨ m_test masks !! i = Some true)
           ∧ ¬ (m_train masks !! i = Some true ∧ m_val masks !! i = Some true)
           ∧ ¬ (m_train masks !! i = Some true ∧ m_test masks !! i = Some true)
           ∧ ¬ (m_val masks !! i = Some true ∧ m_test masks !! i = Some true).
Proof.
  intros Hperm Hinit Hva Hte Hlab Hnwc Ent Env Ene Hsum.
  destruct (NodeSplit_call_char tr va te rs self g N labels nwc nt nv ne
              Hperm Hinit Hva Hte Hlab Hnwc Ent Env Ene)
    as (masks & self' & g' & perm & Hc & Hpe & Hp12 & Hp3 & Hnt & Hnv & Hne
        & H1 & H2 & H3).
  set (n := count_true nwc) in *.
  exists masks, self', g'. split; [exact Hc|]. intros i Hi.
  assert (Hperm' : Permutation perm (seq 0 n)) by (rewrite Hpe; apply Hperm).
  destruct (Permutation_seq_facts perm n Hperm') as (Hnd & Hpl & _).
  split.
  - pose proof (mask_rank_lt nwc i Hi) as Hr. fold n in Hr.
    assert (Hin : mask_rank nwc i ∈ perm).
    { rewrite Hperm'. apply list_elem_of_In, in_seq. lia. }
    apply list_elem_of_lookup in Hin as [j Hj].
    pose proof (lookup_lt_Some _ _ _ Hj) as Hjn. rewrite Hpl in Hjn.
    set (p1 := Z.to_nat _) in H1, H2, Hp12.
    set (p2 := Z.to_nat _) in H2, H3, Hp12.
    set (p3 := Z.to_nat _) in H3, Hp12, Hp3.
    assert (Hp3n : p3 = n) by (unfold p3; rewrite Hsum; lia).
    destruct (decide (j < p1)%nat); [|destruct (decide (j < p2)%nat)].
    + left. apply H1. split; [done|]. apply segment_elem. exists j. split; [lia|done].
    + right; left. apply H2. split; [done|]. apply segment_elem. exists j. split; [lia|done].
    + right; right. apply H3. split; [done|]. apply segment_elem. exists j. split; [lia|done].
  - split; [|split].
    + intros [[_ Ha]%H1 [_ Hb]%H2].
      eapply (segment_disjoint perm); [exact Hnd| |exact Ha|exact Hb]. lia.
    + intros [[_ Ha]%H1 [_ Hb]%H3].
      eapply (segment_disjoint perm); [exact Hnd| |exact Ha|exact Hb]. lia.
    + intros [[_ Ha]%H2 [_ Hb]%H3].
      eapply (segment_disjoint perm); [exact Hnd| |exact Ha|exact Hb]. lia.
Qed.

End NodeSplitMore.

Section NodeSplitMoreExamples.
Local Existing Instance Demo.ext.

Lemma NodeSplit_assigns_by_rank_witness :
  ∃ masks self' g',
    NodeSplit_call Demo.default_split 0%nat 10 (y_tensor Demo.labels10)
    = Some (masks, self', g')
    ∧ (m_train masks !! 0%nat = Some true
       ↔ [true; true; false; true; true; true; false; true; true; true] !! 0%nat = Some true
         ∧ mask_rank [true; true; false; true; true; true; false; true; true; true] 0
           ∈ segment (fst (Demo.randperm 7 8)) 0 4).
Proof.
  destruct (NodeSplit_assigns_by_rank (Ext := Demo.ext) None Demo.f0_25 Demo.f0_25
              (Some 7%Z) Demo.default_split 0%nat 10 (y_tensor Demo.labels10)
              [true; true; false; true; true; true; false; true; true; true] 4 2 2)
    as (masks & self' & g' & Hc & H1 & _).
  - intros g0 n. apply demo_randperm_perm.
  - vm_compute. reflexivity.
  - reflexivity.
  - reflexivity.
  - intros yv [= <-]. reflexivity.
  - reflexivity.
  - vm_compute. reflexivity.
  - vm_compute. reflexivity.
  - vm_compute. reflexivity.
  - exists masks, self', g'. split; [exact Hc|]. exact (H1 0%nat).
Defined.

Lemma NodeSplit_exact_partition_witness :
  ∃ masks self' g',
    NodeSplit_call Demo.default_split 0%nat 10 (y_tensor Demo.labels10)
    = Some (masks, self', g')
    ∧ (m_train masks !! 0%nat = Some true ∨ m_val masks !! 0%nat = Some true
       ∨ m_test masks !! 0%nat = Some true).
Proof.
  destruct (NodeSplit_exact_partition (Ext := Demo.ext) None Demo.f0_25 Demo.f0_25
              (Some 7%Z) Demo.default_split 0%nat 10 (y_tensor Demo.labels10)
              [true; true; false; true; true; true; false; true; true; true] 4 2 2)
    as (masks & self' & g' & Hc & Hpart).
  - intros g0 n. apply demo_randperm_perm.
  - vm_compute. reflexivity.
  - reflexivity.
  - reflexivity.
  - intros yv [= <-]. reflexivity.
  - reflexivity.
  - vm_compute. reflexivity.
  - vm_compute. reflexivity.
  - vm_compute. reflexivity.
  - vm_compute. reflexivity.
  - exists masks, self', g'. split; [exact Hc|]. apply Hpart. reflexivity.
Defined.

End NodeSplitMoreExamples.

(** ** Normalize: rows that are all equal *)

Section NormalizeMore.

Lemma fold_zip_with_same {A} (f : A → A → A) (r : list A) n :
  (∀ a, a ∈ r → f a a = a) → fold_left (zip_with f) (replicate n r) r = r.
Proof.
  intros Hf.
  assert (Hz : zip_with f r r = r).
  { induction r as [|a r IH]; [done|]. cbn [zip_with]. f_equal.
    - apply Hf. left.
    - apply IH. intros b Hb. apply Hf. by right. }
  induction n as [|n IH]; [done|]. cbn [replicate fold_left]. by rewrite Hz.
Qed.

(** The difference of a number and itself is zero, also in floating point. *)
Lemma F32_sub_diag a : F32.finite a → F32.sub a a = S754_zero false.
Proof.
  destruct a as [[|]| | |s m e]; try done. intros _.
  unfold F32.sub, SFsub. cbv zeta. by rewrite Z.sub_diag.
Qed.

Lemma F32_min_diag a : F32.finite a → F32.min a a = a.
Proof.
  destruct a as [s| | |s m e]; try done; intros _; unfold F32.min; cbn [F32.is_nan orb];
    by destruct (SFltb _ _).
Qed.

Lemma F32_max_diag a : F32.finite a → F32.max a a = a.
Proof.
  destruct a as [s| | |s m e]; try done; intros _; unfold F32.max; cbn [F32.is_nan orb];
    by destruct (SFltb _ _).
Qed.

Lemma nonzero_from_zeros i (r : list spec_float) :
  Forall F32.finite r → nonzero_from i (zip_with F32.sub r r) = [].
Proof.
  intros Hr. revert i. induction Hr as [|v r Hv _ IH]; intros i; [done|].
  cbn [zip_with nonzero_from]. rewrite F32_sub_diag by done. cbn [F32.is_zero]. apply IH.
Qed.

(** X17. A matrix of numbers whose rows are all equal, a single row among
    them, loses every column: the result has the rows of the input and no
    column. *)
Theorem Normalize_equal_rows_lose_all_columns (self : Normalize) (r : list spec_float)
    (n : nat) :
  Forall F32.finite r →
  Normalize_call self (replicate (S n) r) = Some (T2 (replicate (S n) [])).
Proof.
  intros Hr. unfold Normalize_call.
  cbn [replicate F32.min_dim0 F32.max_dim0 mbind option_bind].
  rewrite !fold_zip_with_same.
  - unfold nonzero. rewrite nonzero_from_zeros by done.
    unfold select_columns. do 2 f_equal.
    change (r :: replicate n r) with (replicate (S n) r).
    rewrite map_map. cbn [map].
    change ([] :: replicate n []) with (replicate (S n) (@nil spec_float)).
    generalize (S n). intros k. induction k as [|k IH]; [done|].
    cbn [replicate map]. by rewrite IH.
  - intros a Ha. rewrite Forall_forall in Hr. by apply F32_max_diag, Hr.
  - intros a Ha. rewrite Forall_forall in Hr. by apply F32_min_diag, Hr.
Qed.

End NormalizeMore.

Section NormalizeMoreExamples.

Lemma Normalize_equal_rows_lose_all_columns_witness :
  Normalize_call (Normalize_init Demo.f0_1 Demo.f0_7)
                 [[Demo.sz 1; Demo.sz 2]; [Demo.sz 1; Demo.sz 2]]
  = Some (T2 [[]; []]).
Proof.
  apply (Normalize_equal_rows_lose_all_columns
           (Normalize_init Demo.f0_1 Demo.f0_7) [Demo.sz 1; Demo.sz 2] 1).
  repeat (constructor; [exact I|]). constructor.
Defined.

End NormalizeMoreExamples.

(** ** ErrorEstimation: the errors and the report *)

Section ReportProperties.
Context `{Ext : External}.

Lemma ascending_cons (R : nat → nat → Prop) a l :
  ascending R (a :: l) ↔ (∀ y, y ∈ l → R a y) ∧ ascending R l.
Proof.
  split.
  - intros H. split.
    + intros y [j Hj]%list_elem_of_lookup. by apply (H 0%nat (S j) a y); [lia| |].
    + intros i j x y Hij Hi Hj. by apply (H (S i) (S j)); [lia| |].
  - intros [H1 H2] i j x y Hij Hi Hj. destruct i as [|i], j as [|j]; try lia.
    + cbn in Hi, Hj. injection Hi as <-. apply H1. by eapply list_elem_of_lookup_2.
    + cbn in Hi, Hj. apply (H2 i j); [lia|done|done].
Qed.

Lemma ascending_nil (R : nat → nat → Prop) : ascending R [].
Proof. intros i j x y _ Hi. done. Qed.

Lemma insert_sorted_elem a l x : x ∈ insert_sorted a l ↔ x = a ∨ x ∈ l.
Proof.
  induction l as [|b l IH]; cbn [insert_sorted].
  - rewrite elem_of_cons. reflexivity.
  - destruct (a <=? b)%nat.
    + rewrite elem_of_cons. reflexivity.
    + rewrite !elem_of_cons, IH. tauto.
Qed.

Lemma insert_sorted_ascending a l :
  ascending le l → ascending le (insert_sorted a l).
Proof.
  induction l as [|b l IH]; intros Hl; cbn [insert_sorted].
  - apply ascending_cons. split; [|apply ascending_nil]. intros y Hy. by apply elem_of_nil in Hy.
  - apply ascending_cons in Hl as [Hb Hl].
    destruct (Nat.leb_spec a b) as [Hab|Hab].
    + apply ascending_cons. split.
      * intros y [->|Hy]%elem_of_cons; [done|]. specialize (Hb y Hy). lia.
      * apply ascending_cons. by split.
    + apply ascending_cons. split; [|by apply IH].
      intros y [->|Hy]%insert_sorted_elem; [lia|by apply Hb].
Qed.

Lemma sort_nat_elem l x : x ∈ sort_nat l ↔ x ∈ l.
Proof.
  unfold sort_nat. induction l as [|a l IH]; cbn [fold_right]; [done|].
  rewrite insert_sorted_elem, elem_of_cons, IH. reflexivity.
Qed.

Lemma sort_nat_ascending l : ascending le (sort_nat l).
Proof.
  unfold sort_nat. induction l as [|a l IH]; cbn [fold_right]; [apply ascending_nil|].
  by apply insert_sorted_ascending.
Qed.

Lemma dedup_sorted_cons a b l :
  dedup_sorted (a :: b :: l)
  = if decide (a = b) then dedup_sorted (b :: l) else a :: dedup_sorted (b :: l).
Proof. reflexivity. Qed.

Lemma dedup_sorted_elem l x : x ∈ dedup_sorted l ↔ x ∈ l.
Proof.
  induction l as [|a l IH]; [done|]. destruct l as [|b l]; [done|].
  rewrite dedup_sorted_cons. destruct (decide (a = b)) as [->|Hab].
  - rewrite IH, !elem_of_cons. tauto.
  - rewrite elem_of_cons, IH, !elem_of_cons. tauto.
Qed.

Lemma dedup_sorted_ascending l : ascending le l → ascending lt (dedup_sorted l).
Proof.
  induction l as [|a l IH]; intros Hl; [apply ascending_nil|].
  apply ascending_cons in Hl as [Ha Hl]. specialize (IH Hl).
  destruct l as [|b l].
  - apply ascending_cons. split; [|apply ascending_nil]. intros y Hy. by apply elem_of_nil in Hy.
  - rewrite dedup_sorted_cons. destruct (decide (a = b)) as [->|Hab]; [done|].
    apply ascending_cons. split; [|done].
    intros y Hy. apply (proj1 (dedup_sorted_elem _ _)) in Hy.
    assert (Hb : (a ≤ b)%nat) by (apply Ha; left).
    apply ascending_cons in Hl as [Hbl _].
    apply elem_of_cons in Hy as [->|Hy]; [lia|]. specialize (Hbl y Hy). lia.
Qed.

Lemma group_keys_elem df k : k ∈ group_keys df ↔ ∃ e, (k, e) ∈ df.
Proof.
  unfold group_keys. rewrite dedup_sorted_elem, sort_nat_elem. split.
  - intros [[k' e] [-> He]]%list_elem_of_fmap. by exists e.
  - intros [e He]. apply list_elem_of_fmap. by exists (k, e).
Qed.

Lemma aggregate_keys df : map (fun e => fst (fst e)) (aggregate df) = group_keys df.
Proof. unfold aggregate. rewrite map_map. cbn [fst]. apply map_id. Qed.

(** *** The quantile is not above the largest value *)

Lemma Qc_of_nat_lt k m : (Qc_of_nat k < Qc_of_nat m)%Qc → (k < m)%nat.
Proof.
  unfold Qclt, Qc_of_nat. cbn [this Q2Qc]. rewrite !Qred_correct.
  rewrite <- Zlt_Qlt. lia.
Qed.

Lemma Qc_of_nat_le k m : (k ≤ m)%nat → (Qc_of_nat k ≤ Qc_of_nat m)%Qc.
Proof.
  intros H. unfold Qcle, Qc_of_nat. cbn [this Q2Qc]. rewrite !Qred_correct.
  rewrite <- Zle_Qle. lia.
Qed.

Lemma interpolation_le (a b f m : Qc) :
  (a ≤ m)%Qc → (b ≤ m)%Qc → (Q2Qc 0 ≤ f)%Qc → (f ≤ Q2Qc 1)%Qc →
  (a + (b - a) * f ≤ m)%Qc.
Proof.
  unfold Qcle. change (this (Q2Qc 0)) with 0%Q. change (this (Q2Qc 1)) with 1%Q.
  unfold Qcplus, Qcminus, Qcmult, Qcopp, Qcplus, Q2Qc. simpl this.
  rewrite !Qred_correct.
  intros Ha Hb Hf0 Hf1.
  assert (H1 : (0 <= (this m - this a) * (1 - this f))%Q)
    by (apply Qmult_le_0_compat; lra).
  assert (H2 : (0 <= (this m - this b) * this f)%Q)
    by (apply Qmult_le_0_compat; lra).
  lra.
Qed.

Lemma fraction_bounds (p : Qc) :
  (Q2Qc 0 ≤ p)%Qc →
  (Q2Qc 0 ≤ p - Qc_of_nat (Z.to_nat (Qfloor (this p))))%Qc
  ∧ (p - Qc_of_nat (Z.to_nat (Qfloor (this p))) ≤ Q2Qc 1)%Qc.
Proof.
  intros Hp.
  assert (H0 : (0 ≤ Qfloor (this p))%Z).
  { change 0%Z with (Qfloor 0). apply Qfloor_resp_le. exact Hp. }
  unfold Qcle. change (this (Q2Qc 0)) with 0%Q. change (this (Q2Qc 1)) with 1%Q.
  unfold Qcminus, Qcplus, Qcopp, Qc_of_nat, Q2Qc. simpl this.
  rewrite !Qred_correct. rewrite Z2Nat.id by done.
  pose proof (Qfloor_le (this p)) as H1.
  pose proof (Qlt_floor (this p)) as H2.
  rewrite inject_Z_plus in H2. change (inject_Z 1) with 1%Q in H2.
  split; lra.
Qed.

Lemma last_elem (l : list nat) d : l ≠ [] → List.last l d ∈ l.
Proof.
  induction l as [|a l IH]; [done|]. intros _. destruct l as [|b l]; [left|].
  right. apply IH. done.
Qed.

Lemma nth_or_last_elem (l : list nat) i : l ≠ [] → nth i l (List.last l 0%nat) ∈ l.
Proof.
  intros Hl. destruct (nth_in_or_default i l (List.last l 0%nat)) as [Hin | Hd]; [|rewrite Hd].
  - by apply list_elem_of_In.
  - by apply last_elem.
Qed.

(** A value strictly below the quantile is strictly below every bound of
    the values. *)
Lemma below_quantile_below_bound (q : Qc) (values : list nat) (M k : nat) :
  (Q2Qc 0 ≤ q)%Qc → (∀ v, v ∈ values → (v ≤ M)%nat) →
  tltb (Fin (Qc_of_nat k)) (quantile q values) = true → (k < M)%nat.
Proof.
  intros Hq HM. unfold quantile.
  destruct (sort_nat values) as [|s0 s] eqn:Es; [discriminate|].
  assert (Hs : ∀ i, (nth i (s0 :: s) (List.last (s0 :: s) 0%nat) ≤ M)%nat).
  { intros i. apply HM. apply (proj1 (sort_nat_elem _ _)). rewrite Es. by apply nth_or_last_elem. }
  cbv zeta. cbn [tltb]. intros Hlt%Qc_ltb_lt.
  apply Qc_of_nat_lt. eapply Qclt_le_trans; [exact Hlt|].
  set (pos := (q * Qc_of_nat (length (s0 :: s) - 1))%Qc).
  assert (Hpos : (Q2Qc 0 ≤ pos)%Qc) by (apply Qcmult_nonneg; [done|apply Qc_of_nat_nonneg]).
  destruct (fraction_bounds pos Hpos) as [Hf0 Hf1].
  apply interpolation_le; try done; apply Qc_of_nat_le, Hs.
Qed.

Lemma list_max_elem (l : list nat) :
  l ≠ [] → ∃ M, M ∈ l ∧ ∀ v, v ∈ l → (v ≤ M)%nat.
Proof.
  induction l as [|a l IH]; [done|]. intros _. destruct l as [|b l].
  - exists a. split; [left|]. intros v [->|Hv]%elem_of_cons; [done|by apply elem_of_nil in Hv].
  - destruct IH as (M & HM & Hle); [done|].
    destruct (le_lt_dec a M) as [Ha|Ha].
    + exists M. split; [by right|]. intros v [->|Hv]%elem_of_cons; [done|by apply Hle].
    + exists a. split; [left|]. intros v [->|Hv]%elem_of_cons; [done|].
      specialize (Hle v Hv). lia.
Qed.

(** What an entry of the report of [run] stands for. *)
Lemma run_entry (self : ErrorEstimation) (data : Graph.t) report k mae sd :
  ErrorEstimation_run self data = Some report → (k, mae, sd) ∈ report →
  let degrees := degree (fst (Graph.edge_index data)) (Graph.num_nodes data) in
  let df := below (quantile (max_degree_quantile self) degrees)
                  (zip degrees (node_errors self data)) in
  length degrees = length (node_errors self data)
  ∧ report = aggregate df
  ∧ k ∈ degrees
  ∧ tltb (Fin (Qc_of_nat k)) (quantile (max_degree_quantile self) degrees) = true
  ∧ sd = fillna0 (std (map snd (filter (fun p => fst p = k) df))).
Proof.
  intros Hrun Hin. cbv zeta. unfold ErrorEstimation_run in Hrun.
  case_decide as Hlen; [|discriminate].
  destruct (Qc_leb _ _ && Qc_leb _ _); [|discriminate]. injection Hrun as <-.
  split; [done|]. split; [done|].
  unfold aggregate in Hin. apply list_elem_of_fmap in Hin as (k' & [= -> -> ->] & Hk).
  apply group_keys_elem in Hk as [e He].
  unfold below in He. apply list_elem_of_filter in He as [Hlt Hz]. cbn [fst] in Hlt.
  split; [by eapply elem_of_zip_l|]. split; [done|]. reflexivity.
Qed.

(** X19. The degrees of the report of [run] are strictly ascending (every
    degree is reported once), each of them is the degree of a node, and with
    a quantile level that is not negative some node has a strictly larger
    degree: the largest degree of the graph is never reported. *)
Theorem largest_degree_never_reported (self : ErrorEstimation) (data : Graph.t) report :
  (Q2Qc 0 ≤ max_degree_quantile self)%Qc →
  ErrorEstimation_run self data = Some report →
  let degrees := degree (fst (Graph.edge_index data)) (Graph.num_nodes data) in
  ascending lt (map (fun e => fst (fst e)) report)
  ∧ ∀ k mae sd, (k, mae, sd) ∈ report →
                k ∈ degrees ∧ ∃ d, d ∈ degrees ∧ (k < d)%nat.
Proof.
  intros Hq Hrun degrees. split.
  - unfold ErrorEstimation_run in Hrun. case_decide; [|discriminate].
    destruct (Qc_leb _ _ && Qc_leb _ _); [|discriminate].
    injection Hrun as <-. rewrite aggregate_keys. unfold group_keys.
    apply dedup_sorted_ascending, sort_nat_ascending.
  - intros k mae sd Hin.
    destruct (run_entry self data report k mae sd Hrun Hin) as (_ & _ & Hk & Hlt & _).
    fold degrees in Hk, Hlt. split; [done|].
    destruct (list_max_elem degrees) as (M & HM & Hle).
    { intros H0. rewrite H0 in Hk. by apply elem_of_nil in Hk. }
    exists M. split; [done|].
    by eapply below_quantile_below_bound.
Qed.

Lemma filter_none {A} (P : A → Prop) `{∀ a, Decision (P a)} (l : list A) :
  (∀ a, a ∈ l → ¬ P a) → filter P l = [].
Proof.
  induction l as [|a l IH]; intros Hall; [done|].
  rewrite filter_cons, decide_False by (apply Hall; left).
  apply IH. intros b Hb. apply Hall. by right.
Qed.

(** X20. On a graph whose nodes all have the same degree, [run] with a
    quantile level between 0 and 1 (pandas accepts no other) reports nothing
    at all, whatever the errors are. *)
Theorem regular_graph_reports_nothing (self : ErrorEstimation) (data : Graph.t) (c : nat) :
  (Q2Qc 0 ≤ max_degree_quantile self)%Qc →
  (max_degree_quantile self ≤ Q2Qc 1)%Qc →
  (∀ d, d ∈ degree (fst (Graph.edge_index data)) (Graph.num_nodes data) → d = c) →
  length (node_errors self data) = Graph.num_nodes data →
  ErrorEstimation_run self data = Some [].
Proof.
  intros Hq Hq1 Hreg Hlen. unfold ErrorEstimation_run.
  rewrite decide_True by (unfold degree; by rewrite length_map, length_seq).
  rewrite (proj2 (Qc_leb_le _ _) Hq), (proj2 (Qc_leb_le _ _) Hq1). cbn [andb].
  f_equal. unfold below. rewrite filter_none; [reflexivity|].
  intros [k e] Hz Hlt. cbn [fst] in Hlt.
  pose proof (elem_of_zip_l _ _ _ _ Hz) as Hk.
  assert (k < c)%nat; [|specialize (Hreg k Hk); lia].
  eapply below_quantile_below_bound; [exact Hq| |exact Hlt].
  intros v Hv. by rewrite (Hreg v Hv).
Qed.

(** *** A degree that a single node has *)

Lemma filter_zip_fst_length {B} (k : nat) (l : list nat) (es : list B) :
  length l = length es →
  length (filter (fun p : nat * B => fst p = k) (zip l es))
  = length (filter (fun d => d = k) l).
Proof.
  revert es. induction l as [|a l IH]; intros [|e es] Hlen; try done.
  cbn [zip zip_with]. rewrite !filter_cons. cbn [fst].
  injection Hlen as Hlen. specialize (IH es Hlen). cbn [zip] in IH.
  destruct (decide (a = k)); cbn [length]; by rewrite IH.
Qed.

Lemma std_single (e : tval) : real_sqrt NaN = NaN → fillna0 (std [e]) = tzero.
Proof.
  intros Hsqrt. unfold std, mean, vsum. cbn [map fold_left length].
  assert (Hnan : tdiv (tadd tzero (tmul (tsub e (tdiv (tadd tzero e) (Fin (Qc_of_nat 1))))
                                        (tsub e (tdiv (tadd tzero e) (Fin (Qc_of_nat 1))))))
                      (tsub (Fin (Qc_of_nat 1)) tone) = NaN).
  { destruct e as [q| | |]; try reflexivity.
    assert (Hm : tdiv (tadd tzero (Fin q)) (Fin (Qc_of_nat 1)) = Fin q).
    { change (tadd tzero (Fin q)) with (Fin (Q2Qc 0 + q)%Qc).
      unfold tdiv. change (Qc_is_zero (Qc_of_nat 1)) with false. cbn iota. f_equal.
      change (Qc_of_nat 1) with (Q2Qc 1). field. apply Qc_is_zero_false. reflexivity. }
    rewrite Hm, tsub_diag. vm_compute. reflexivity. }
  rewrite Hnan, Hsqrt. reflexivity.
Qed.

(** X21. A degree that exactly one node has is reported with the standard
    deviation 0: pandas gives [NaN] for a single sample and [fillna(0)]
    replaces it. The imported square root is assumed to map [NaN] to [NaN]. *)
Theorem single_node_bucket_has_std_zero (self : ErrorEstimation) (data : Graph.t)
    report k mae sd :
  real_sqrt NaN = NaN →
  ErrorEstimation_run self data = Some report →
  (k, mae, sd) ∈ report →
  length (filter (fun d => d = k)
                 (degree (fst (Graph.edge_index data)) (Graph.num_nodes data))) = 1%nat →
  sd = tzero.
Proof.
  intros Hsqrt Hrun Hin Hone.
  destruct (run_entry self data report k mae sd Hrun Hin) as (Hlen & _ & _ & Hlt & ->).
  unfold below. rewrite list_filter_filter_l by (intros [k' e] ->; exact Hlt).
  rewrite <- (filter_zip_fst_length k _ _ Hlen) in Hone.
  destruct (filter _ (zip _ _)) as [|[k' e] [|? ?]]; try discriminate Hone.
  cbn [map snd]. by apply std_single.
Qed.

(** *** The errors are finite *)







End ReportProperties.

Section ReportExamples.
Local Existing Instance Demo.ext.

Lemma largest_degree_never_reported_witness :
  ∃ est report,
    ErrorEstimation_init Demo.tree5 Demo.tree5_raw default_max_degree_quantile = Some est
    ∧ ErrorEstimation_run est Demo.tree5 = Some report
    ∧ map (fun e => fst (fst e)) report = [1; 2]%nat
    ∧ ascending lt (map (fun e => fst (fst e)) report)
    ∧ ∀ k mae sd, (k, mae, sd) ∈ report →
        k ∈ degree (fst Demo.tree5_edges) 5 ∧ ∃ d, d ∈ degree (fst Demo.tree5_edges) 5 ∧ (k < d)%nat.
Proof.
  eexists. eexists. split; [vm_compute; reflexivity|].
  match goal with |- ErrorEstimation_run ?e _ = _ ∧ _ => pose (est := e) end.
  split; [vm_compute; reflexivity|]. split; [reflexivity|].
  apply (largest_degree_never_reported (Ext := Demo.ext) est Demo.tree5).
  - apply Qc_ltb_ge. reflexivity.
  - vm_compute. reflexivity.
Defined.

Lemma regular_graph_reports_nothing_witness :
  ∃ est,
    ErrorEstimation_init (Graph.mk (Graph.x Demo.tree5) Demo.cycle5_edges 5)
                         Demo.tree5_raw default_max_degree_quantile = Some est
    ∧ ErrorEstimation_run est (Graph.mk (Graph.x Demo.tree5) Demo.cycle5_edges 5) = Some [].
Proof.
  eexists. split; [vm_compute; reflexivity|].
  apply (regular_graph_reports_nothing (Ext := Demo.ext) _
           (Graph.mk (Graph.x Demo.tree5) Demo.cycle5_edges 5) 2).
  - apply Qc_ltb_ge. reflexivity.
  - apply Qc_ltb_ge. reflexivity.
  - intros d Hd. vm_compute in Hd.
    repeat (apply elem_of_cons in Hd as [->|Hd]; [reflexivity|]).
    by apply elem_of_nil in Hd.
  - vm_compute. reflexivity.
Defined.

Lemma single_node_bucket_has_std_zero_witness :
  ∃ est report mae sd,
    ErrorEstimation_init Demo.tree5 Demo.tree5_raw default_max_degree_quantile = Some est
    ∧ ErrorEstimation_run est Demo.tree5 = Some report
    ∧ (2%nat, mae, sd) ∈ report
    ∧ sd = tzero.
Proof.
  eexists. eexists. eexists. eexists. split; [vm_compute; reflexivity|].
  match goal with |- ErrorEstimation_run ?e _ = _ ∧ _ => pose (est := e) end.
  split; [vm_compute; reflexivity|].
  split; [right; left|].
  eapply (single_node_bucket_has_std_zero (Ext := Demo.ext) est Demo.tree5 _ 2%nat).
  - reflexivity.
  - vm_compute. reflexivity.
  - right. left.
  - vm_compute. reflexivity.
Defined.


End ReportExamples.

(** ** OneHotDegree and FeatureTransform *)

Section FeatureTransformProperties.
Context `{Ext : External}.

Lemma to_long_of_nat k : to_long (Fin (Qc_of_nat k)) = Some (Z.of_nat k).
Proof.
  unfold to_long, Qc_of_nat. cbn [this Q2Qc]. rewrite inject_Z_Qred.
  cbn [inject_Z Qnum Qden]. by rewrite Z.quot_1_r.
Qed.

Lemma Qc_of_nat_S n : Qc_of_nat (S n) = (Q2Qc 1 + Qc_of_nat n)%Qc.
Proof.
  apply Qc_is_canon. unfold Qc_of_nat, Qcplus. cbn [this Q2Qc].
  rewrite !Qred_correct. rewrite Nat2Z.inj_succ. unfold Z.succ.
  rewrite inject_Z_plus. change (inject_Z 1) with 1%Q. ring.
Qed.

Lemma vsum_ones (v : fvec) :
  Forall (fun a => a = tone) v → vsum v = Fin (Qc_of_nat (length v)).
Proof.
  intros Hv. rewrite vsum_qsum.
  - f_equal. induction Hv as [|a v -> _ IH]; [done|].
    rewrite qsum_cons, IH. cbn [length qv tone]. by rewrite Qc_of_nat_S.
  - eapply Forall_impl; [exact Hv|]. intros a ->. by eexists.
Qed.

(** On an adjacency whose stored values are all 1, the truncated column
    sums are the numbers of stored entries. *)
Lemma column_sums_count (a : SparseTensor) :
  Forall (Forall (fun e => snd e = tone)) (sp_rows a) →
  mapM to_long (sp_sum_dim0 a)
  = Some (map (fun j => Z.of_nat (sp_col_count a j)) (seq 0 (sp_ncols a))).
Proof.
  intros Hone. unfold sp_sum_dim0. apply mapM_Some_2.
  apply Forall2_fmap, Forall_Forall2_diag, Forall_forall. intros j _.
  unfold sp_col_count. rewrite vsum_ones.
  - rewrite length_map. apply to_long_of_nat.
  - apply Forall_fmap, Forall_forall.
    intros e [_ He]%list_elem_of_filter. unfold compose.
    apply list_elem_of_In, in_concat in He as (r & Hr%list_elem_of_In & Her%list_elem_of_In).
    rewrite Forall_forall in Hone. specialize (Hone r Hr).
    rewrite Forall_forall in Hone. by apply Hone.
Qed.

Lemma one_hot_in_range (v : list Z) (c : Z) :
  (0 < c)%Z → Forall (fun e => 0 ≤ e < c)%Z v →
  one_hot v c = Some (map (fun e => one_hot_row (Z.to_nat c) (Z.to_nat e)) v).
Proof.
  intros Hc Hv. unfold one_hot. destruct v as [|d v]; [by rewrite decide_False by lia|].
  rewrite decide_True by (eapply Forall_impl; [exact Hv|]; cbn; lia).
  rewrite (decide_False (P := c = (-1)%Z)) by lia.
  rewrite decide_True by (eapply Forall_impl; [exact Hv|]; cbn; lia).
  reflexivity.
Qed.

(** What [OneHotDegree] computes on an adjacency whose stored values are all
    1. *)
Lemma OneHotDegree_call_rows (self : OneHotDegree) (σ : store) (data : Data.t) :
  Forall (Forall (fun e => snd e = tone)) (sp_rows (Data.adj_t data)) →
  (0 ≤ max_degree self)%Z →
  let a := Data.adj_t data in
  let width := S (Z.to_nat (max_degree self)) in
  let m := map (fun j => one_hot_row width
                           (min (sp_col_count a j) (Z.to_nat (max_degree self))))
               (seq 0 (sp_ncols a)) in
  ∃ l, OneHotDegree_call self σ data
       = Some (Data.set_x data l, mkStore (<[l := m]> (floats σ)) (longs σ))
       ∧ floats σ !! l = None.
Proof.
  intros Hone Hmax a width m. unfold OneHotDegree_call.
  rewrite column_sums_count by done. cbn [mbind option_bind].
  rewrite one_hot_in_range.
  - cbn [mbind option_bind]. unfold alloc_float.
    exists (fresh (dom (floats σ))). split.
    + do 3 f_equal. rewrite !map_map. unfold m. f_equal. apply map_ext. intros j. fold a.
      unfold width. f_equal; lia.
    + apply not_elem_of_dom, is_fresh.
  - lia.
  - apply Forall_fmap, Forall_fmap, Forall_forall. intros j _. cbn. lia.
Qed.

(** X23. On an adjacency whose stored values are all 1 and with a maximum
    degree that is not negative, [OneHotDegree] binds [data.x] to a new
    tensor and writes no other: the new tensor has one row per column of the
    adjacency, row [j] has [max_degree + 1] entries and is the one-hot
    encoding of the number of entries stored in column [j], capped at
    [max_degree]; the position of its largest entry gives that number back. *)
Theorem OneHotDegree_encodes_capped_degree (self : OneHotDegree) (σ : store)
    (data : Data.t) :
  Forall (Forall (fun e => snd e = tone)) (sp_rows (Data.adj_t data)) →
  (0 ≤ max_degree self)%Z →
  ∃ l σ' m,
    OneHotDegree_call self σ data = Some (Data.set_x data l, σ')
    ∧ floats σ !! l = None
    ∧ floats σ' = <[l := m]> (floats σ) ∧ longs σ' = longs σ
    ∧ length m = sp_ncols (Data.adj_t data)
    ∧ ∀ j, (j < sp_ncols (Data.adj_t data))%nat →
        let k := min (sp_col_count (Data.adj_t data) j) (Z.to_nat (max_degree self)) in
        ∃ row, m !! j = Some row
               ∧ row = one_hot_row (S (Z.to_nat (max_degree self))) k
               ∧ length row = S (Z.to_nat (max_degree self))
               ∧ argmax row = Some (Z.of_nat k).
Proof.
  intros Hone Hmax.
  destruct (OneHotDegree_call_rows self σ data Hone Hmax) as (l & Hcall & Hfresh).
  eexists l, _, _. split; [exact Hcall|]. split; [exact Hfresh|].
  cbn [floats longs]. split; [reflexivity|]. split; [reflexivity|].
  split; [by rewrite length_map, length_seq|].
  intros j Hj. cbv zeta. eexists. split.
  - change (map ?f ?l) with (f <$> l).
    rewrite list_lookup_fmap, lookup_seq_lt by done. reflexivity.
  - split; [reflexivity|]. split; [apply length_one_hot_row|].
    apply argmax_one_hot_row. lia.
Qed.

Lemma OneHotDegree_call_negative (self : OneHotDegree) (σ : store) (data : Data.t) :
  (max_degree self < 0)%Z → OneHotDegree_call self σ data = None.
Proof.
  intros Hmax. unfold OneHotDegree_call.
  destruct (mapM to_long _) as [degs|]; [|done]. cbn [mbind option_bind].
  assert (Hnone : one_hot (map (fun d => Z.min d (max_degree self)) degs)
                          (max_degree self + 1) = None).
  { unfold one_hot. destruct degs as [|d degs]; cbn [map].
    - by rewrite decide_True by lia.
    - rewrite decide_False; [done|]. intros [H0 _]%Forall_cons. lia. }
  by rewrite Hnone.
Qed.

(** X24. With a negative maximum degree [OneHotDegree] fails, whatever the
    graph is: a capped degree is negative, and there is no class for an empty
    graph. *)
Theorem OneHotDegree_negative_max_degree_fails (self : OneHotDegree) (σ : store)
    (data : Data.t) :
  (max_degree self < 0)%Z → OneHotDegree_call self σ data = None.
Proof.
  intros Hmax. unfold OneHotDegree_call.
  destruct (mapM to_long _) as [degs|]; [|done]. cbn [mbind option_bind].
  assert (Hnone : one_hot (map (fun d => Z.min d (max_degree self)) degs)
                          (max_degree self + 1) = None).
  { unfold one_hot. destruct degs as [|d degs]; cbn [map].
    - by rewrite decide_True by lia.
    - rewrite decide_False; [done|]. intros [H0 _]%Forall_cons. lia. }
  by rewrite Hnone.
Qed.

(** X25. A successful [FeatureTransform], whatever its feature is, writes no
    tensor that existed before it and touches no label tensor; the dataset
    keeps everything but [x], which is either the tensor it was or a new
    one. *)
Theorem FeatureTransform_call_frame (self : FeatureTransform) σ g data data' σ' g' :
  FeatureTransform_call self σ g data = Some (data', σ', g') →
  longs σ' = longs σ
  ∧ (∀ l m, floats σ !! l = Some m → floats σ' !! l = Some m)
  ∧ (Data.x data' = Data.x data ∨ floats σ !! Data.x data' = None)
  ∧ Data.x_raw data' = Data.x_raw data
  ∧ Data.y data' = Data.y data ∧ Data.y_raw data' = Data.y_raw data
  ∧ Data.train_mask data' = Data.train_mask data
  ∧ Data.val_mask data' = Data.val_mask data
  ∧ Data.adj_t data' = Data.adj_t data
  ∧ Data.num_classes data' = Data.num_classes data.
Proof.
  assert (Hnew : ∀ m l σ1, alloc_float σ m = (l, σ1) →
            longs σ1 = longs σ
            ∧ (∀ l0 m0, floats σ !! l0 = Some m0 → floats σ1 !! l0 = Some m0)
            ∧ floats σ !! l = None).
  { intros m l σ1 Ha. pose proof Ha as (_ & Hl & Hold)%alloc_float_lookup.
    split; [done|]. split.
    - intros l0 m0 H0. destruct (Hold l0) as [_ ->]; [by eexists|done].
    - unfold alloc_float in Ha. injection Ha as <- _. apply not_elem_of_dom, is_fresh. }
  unfold FeatureTransform_call.
  destruct (String.eqb (feature self) "rnd").
  { destruct (floats σ !! Data.x data) as [xv|]; [|done]. cbn [mbind option_bind].
    destruct (torch_rand g _ _) as [m g1]. destruct (alloc_float σ m) as [l σ1] eqn:Ha.
    intros [= <- <- <-]. destruct (Hnew _ _ _ Ha) as (H1 & H2 & H3).
    cbn [Data.set_x Data.x Data.x_raw Data.y Data.y_raw Data.train_mask Data.val_mask
         Data.adj_t Data.num_classes]. repeat split; auto. }
  destruct (String.eqb (feature self) "crnd").
  { destruct (floats σ !! Data.x data) as [xv|]; [|done]. cbn [mbind option_bind].
    destruct (torch_rand g _ 1) as [xs g1]. destruct (torch_rand g1 _ _) as [r g2].
    destruct (mapM topk1 r) as [s|]; [|done]. cbn [mbind option_bind].
    destruct (alloc_float σ _) as [l σ1] eqn:Ha.
    intros [= <- <- <-]. destruct (Hnew _ _ _ Ha) as (H1 & H2 & H3).
    cbn [Data.set_x Data.x Data.x_raw Data.y Data.y_raw Data.train_mask Data.val_mask
         Data.adj_t Data.num_classes]. repeat split; auto. }
  destruct (String.eqb (feature self) "ohd").
  { destruct (num_features σ data) as [d|]; [|done]. cbn [mbind option_bind].
    unfold OneHotDegree_call.
    destruct (mapM to_long _) as [degs|]; [|done]. cbn [mbind option_bind].
    destruct (one_hot _ _) as [m|]; [|done]. cbn [mbind option_bind].
    destruct (alloc_float σ m) as [l σ1] eqn:Ha.
    intros [= <- <- <-]. destruct (Hnew _ _ _ Ha) as (H1 & H2 & H3).
    cbn [Data.set_x Data.x Data.x_raw Data.y Data.y_raw Data.train_mask Data.val_mask
         Data.adj_t Data.num_classes]. repeat split; auto. }
  destruct (String.eqb (feature self) "one").
  { destruct (floats σ !! Data.x data) as [xv|]; [|done]. cbn [mbind option_bind].
    destruct (alloc_float σ _) as [l σ1] eqn:Ha.
    intros [= <- <- <-]. destruct (Hnew _ _ _ Ha) as (H1 & H2 & H3).
    cbn [Data.set_x Data.x Data.x_raw Data.y Data.y_raw Data.train_mask Data.val_mask
         Data.adj_t Data.num_classes]. repeat split; auto. }
  intros [= <- <- <-]. repeat split; auto.
Qed.

(** X26. The feature ['ohd'] on an adjacency whose stored values are all 1:
    when the attribute matrix has no column the transform fails; when it has
    one at least and the graph has a node, the transform succeeds and the new
    attributes have one row per node and as many columns as the old ones. *)
Theorem ohd_keeps_number_of_features (self : FeatureTransform) σ g data (xv : fmat) :
  feature self = "ohd"%string →
  floats σ !! Data.x data = Some xv →
  Forall (Forall (fun e => snd e = tone)) (sp_rows (Data.adj_t data)) →
  (ncols xv = 0%nat → FeatureTransform_call self σ g data = None)
  ∧ ((0 < ncols xv)%nat → (0 < sp_ncols (Data.adj_t data))%nat →
     ∃ data' σ' m,
       FeatureTransform_call self σ g data = Some (data', σ', g)
       ∧ floats σ' !! Data.x data' = Some m
       ∧ nrows m = sp_ncols (Data.adj_t data)
       ∧ Forall (fun row => length row = ncols xv) m
       ∧ num_features σ' data' = Some (ncols xv)).
Proof.
  intros Hf Hx Hone. unfold FeatureTransform_call. rewrite Hf.
  change (String.eqb "ohd" "rnd") with false.
  change (String.eqb "ohd" "crnd") with false.
  change (String.eqb "ohd" "ohd") with true. cbn iota.
  assert (Hnf : num_features σ data = Some (ncols xv))
    by (unfold num_features; by rewrite Hx).
  rewrite Hnf. cbn [mbind option_bind].
  split.
  - intros H0. rewrite OneHotDegree_call_negative; [done|].
    cbn [max_degree]. lia.
  - intros Hd Hn.
    destruct (OneHotDegree_call_rows (mkOHD (Z.of_nat (ncols xv) - 1)) σ data Hone)
      as (l & Hcall & Hfresh); [cbn [max_degree]; lia|].
    rewrite Hcall. cbn [mbind option_bind max_degree].
    replace (S (Z.to_nat (Z.of_nat (ncols xv) - 1))) with (ncols xv) by lia.
    eexists _, _, _. split; [reflexivity|].
    cbn [Data.set_x Data.x floats]. rewrite lookup_insert_eq.
    split; [reflexivity|]. split; [unfold nrows; by rewrite length_map, length_seq|].
    split.
    + apply Forall_fmap, Forall_forall. intros j _. cbn. apply length_one_hot_row.
    + unfold num_features. cbn [Data.set_x Data.x floats]. rewrite lookup_insert_eq.
      cbn [mbind option_bind]. f_equal. unfold ncols.
      destruct (sp_ncols (Data.adj_t data)) as [|n]; [lia|].
      cbn [seq map hd]. apply length_one_hot_row.
Qed.

Lemma topk1_range (row : fvec) :
  row ≠ [] → ∃ p, topk1 row = Some p ∧ (p < length row)%nat.
Proof.
  destruct row as [|a row]; [done|]. intros _. unfold topk1. cbn [argmax fmap option_fmap option_map].
  eexists. split; [reflexivity|]. rewrite Nat2Z.id. cbn [length].
  destruct (argmax_from_range 0 a 1 row) as [H| ->]; lia.
Qed.

Lemma mapM_topk1 (r : fmat) d :
  (0 < d)%nat → Forall (fun row => length row = d) r →
  ∃ s, mapM topk1 r = Some s ∧ length s = length r ∧ Forall (fun p => (p < d)%nat) s.
Proof.
  intros Hd. induction 1 as [|row r Hrow _ (s & Hs & Hl & Hall)].
  - by exists [].
  - destruct (topk1_range row) as (p & Hp & Hlt).
    { intros ->. cbn in Hrow. lia. }
    exists (p :: s). cbn [mapM]. rewrite Hp. cbn [mbind option_bind]. rewrite Hs.
    cbn [mbind option_bind mret option_ret length]. split; [done|]. split; [lia|].
    constructor; [lia|done].
Qed.

Lemma scatter1_lookup (xv : fmat) (s : list nat) (vs : fvec) d i row :
  Forall (fun r => length r = d) xv → scatter1 xv s vs !! i = Some row →
  ∃ p v, s !! i = Some p ∧ vs !! i = Some v ∧ row = <[p := v]> (replicate d tzero).
Proof.
  intros Hlen Hrow. unfold scatter1 in Hrow.
  apply lookup_zip_with_Some in Hrow as (r & [p v] & -> & Hr & Hz).
  apply lookup_zip_with_Some in Hz as (p' & v' & [= <- <-] & Hp & Hv).
  exists p, v. split; [done|]. split; [done|]. cbn [fst snd]. f_equal.
  rewrite Forall_forall in Hlen. rewrite <- (Hlen r) by (by eapply list_elem_of_lookup_2).
  clear. induction r as [|a r IH]; [done|]. cbn [map length replicate]. by rewrite IH.
Qed.

(** X27. The feature ['crnd'] on a non-empty attribute matrix with [d > 0]
    columns: the transform succeeds, the new attributes have the rows of the
    old ones, and every row is zero but at one position within the [d]
    columns, which holds the draw made for this row; the draws for the rows
    are made first, those for the positions next. The imported [torch.rand]
    is assumed to return a matrix of the requested shape. *)
Theorem crnd_rows_hold_one_draw (self : FeatureTransform) σ g data (xv : fmat) d :
  feature self = "crnd"%string →
  (∀ g0 n m, length (fst (torch_rand g0 n m)) = n
             ∧ Forall (fun row => length row = m) (fst (torch_rand g0 n m))) →
  floats σ !! Data.x data = Some xv → xv ≠ [] →
  Forall (fun row => length row = d) xv → (0 < d)%nat →
  ∃ data' σ' m,
    FeatureTransform_call self σ g data
    = Some (data', σ', snd (torch_rand (snd (torch_rand g (length xv) 1)) (length xv) d))
    ∧ floats σ' !! Data.x data' = Some m
    ∧ length m = length xv
    ∧ ∀ i row, m !! i = Some row →
        ∃ p v, (p < d)%nat ∧ row = <[p := v]> (replicate d tzero)
               ∧ fst (torch_rand g (length xv) 1) !! i = Some [v].
Proof.
  intros Hf Hshape Hx Hne Hlen Hd. unfold FeatureTransform_call. rewrite Hf.
  change (String.eqb "crnd" "rnd") with false.
  change (String.eqb "crnd" "crnd") with true. cbn iota.
  rewrite Hx. cbn [mbind option_bind]. unfold nrows.
  assert (Hnc : ncols xv = d).
  { destruct xv as [|r0 xv]; [done|]. apply Forall_cons in Hlen as [H0 _]. exact H0. }
  rewrite Hnc.
  destruct (Hshape g (length xv) 1%nat) as [Hxl Hxw].
  destruct (torch_rand g (length xv) 1) as [xs g1]. cbn [fst snd] in *.
  destruct (Hshape g1 (length xv) d) as [Hrl Hrw].
  destruct (torch_rand g1 (length xv) d) as [r g2]. cbn [fst snd] in *.
  destruct (mapM_topk1 r d Hd Hrw) as (s & Hs & Hsl & Hsd).
  rewrite Hs. cbn [mbind option_bind].
  destruct (alloc_float σ _) as [l σ1] eqn:Ha.
  apply alloc_float_lookup in Ha as (Hl & _ & _).
  eexists _, _, _. split; [reflexivity|].
  cbn [Data.set_x Data.x]. split; [exact Hl|]. split.
  - unfold scatter1. rewrite length_zip_with, length_zip_with, length_map. lia.
  - intros i row Hrow.
    destruct (scatter1_lookup _ _ _ d i row Hlen Hrow) as (p & v & Hp & Hv & ->).
    exists p, v. split.
    + rewrite Forall_forall in Hsd. apply Hsd. by eapply list_elem_of_lookup_2.
    + split; [reflexivity|].
      change (map ?f ?l) with (f <$> l) in Hv. rewrite list_lookup_fmap in Hv.
      destruct (xs !! i) as [xrow|] eqn:Hxi; [|done]. cbn in Hv. injection Hv as <-.
      rewrite Forall_forall in Hxw.
      pose proof (Hxw xrow (list_elem_of_lookup_2 _ _ _ Hxi)) as Hw.
      destruct xrow as [|v [|? ?]]; try done.
Qed.

End FeatureTransformProperties.

Section FeatureTransformExamples.
Local Existing Instance Demo.ext.

Lemma OneHotDegree_encodes_capped_degree_witness :
  ∃ l σ' m,
    OneHotDegree_call (mkOHD 1) Demo.store0 Demo.data0 = Some (Data.set_x Demo.data0 l, σ')
    ∧ floats σ' = <[l := m]> (floats Demo.store0)
    ∧ length m = 4%nat.
Proof.
  destruct (OneHotDegree_encodes_capped_degree (mkOHD 1) Demo.store0
              Demo.data0)
    as (l & σ' & m & H1 & _ & H3 & _ & H5 & _).
  - repeat (constructor; [repeat (constructor; [reflexivity|]); constructor|]). constructor.
  - cbn. lia.
  - by exists l, σ', m.
Defined.

Lemma OneHotDegree_negative_max_degree_fails_witness :
  OneHotDegree_call (mkOHD (-1)) Demo.store0 Demo.data0 = None.
Proof.
  apply OneHotDegree_negative_max_degree_fails. cbn. lia.
Defined.

Lemma FeatureTransform_call_frame_witness :
  ∃ data' σ' g',
    FeatureTransform_call (mkFT "crnd") Demo.store0 0%nat Demo.data0 = Some (data', σ', g')
    ∧ floats σ' !! 1%positive = Some Demo.x0
    ∧ Data.x data' ≠ 1%positive.
Proof.
  destruct (FeatureTransform_call (Ext := Demo.ext) (mkFT "crnd") Demo.store0 0%nat
              Demo.data0)
    as [[[data' σ'] g']|] eqn:E; [|vm_compute in E; discriminate E].
  destruct (FeatureTransform_call_frame (Ext := Demo.ext) _ _ _ _ _ _ _ E)
    as (_ & Hold & Hx & _).
  exists data', σ', g'. split; [reflexivity|]. split; [by apply Hold|].
  destruct Hx as [Hx|Hx]; [|intros Heq; rewrite Heq in Hx; discriminate Hx].
  exfalso. revert Hx. vm_compute in E. injection E as <- _ _. discriminate.
Defined.

Lemma ohd_keeps_number_of_features_witness :
  ∃ data' σ' m,
    FeatureTransform_call (mkFT "ohd") Demo.store0 0%nat Demo.data0 = Some (data', σ', 0%nat)
    ∧ floats σ' !! Data.x data' = Some m
    ∧ nrows m = 4%nat
    ∧ num_features σ' data' = Some 3%nat.
Proof.
  destruct (ohd_keeps_number_of_features (Ext := Demo.ext) (mkFT "ohd") Demo.store0 0%nat
              Demo.data0 Demo.x0) as [_ H].
  - reflexivity.
  - reflexivity.
  - repeat (constructor; [repeat (constructor; [reflexivity|]); constructor|]). constructor.
  - destruct H as (data' & σ' & m & H1 & H2 & H3 & _ & H5).
    + cbn. lia.
    + cbn. lia.
    + by exists data', σ', m.
Defined.

Lemma crnd_rows_hold_one_draw_witness :
  ∃ data' σ' m g',
    FeatureTransform_call (mkFT "crnd") Demo.store0 0%nat Demo.data0 = Some (data', σ', g')
    ∧ floats σ' !! Data.x data' = Some m
    ∧ length m = 4%nat.
Proof.
  destruct (crnd_rows_hold_one_draw (Ext := Demo.ext) (mkFT "crnd") Demo.store0 0%nat
              Demo.data0 Demo.x0 3) as (data' & σ' & m & H1 & H2 & H3 & _).
  - reflexivity.
  - intros g0 n m. apply demo_rand_shape.
  - reflexivity.
  - discriminate.
  - repeat constructor.
  - lia.
  - exists data', σ', m. eexists. split; [exact H1|]. split; [exact H2|exact H3].
Defined.

End FeatureTransformExamples.

(** ** Trainer: which model is checkpointed and tested *)

Section TrainerProperties.
Context {Model Opt Metrics : Type}.
Variable configure_optimizer : Model → Opt.
Variable train : Model → Opt → Model * Opt * tval.
Variable validation : Model → tval.
Variable test_step : Model → Metrics.

Local Abbreviation fit := (Trainer.fit configure_optimizer train validation).
Local Abbreviation test := (Trainer.test test_step).
Local Abbreviation epoch := (Trainer.epoch train validation).
Local Abbreviation after := (Trainer.after configure_optimizer train).
Local Abbreviation model_after := (Trainer.model_after configure_optimizer train).
Local Abbreviation val_after := (Trainer.val_after configure_optimizer train validation).
Local Abbreviation first_best := (Trainer.first_best configure_optimizer train validation).

Lemma tltb_irrefl a : tltb a a = false.
Proof.
  destruct a as [q| | |]; try reflexivity. cbn [tltb].
  apply Qc_ltb_ge, Qcle_refl.
Qed.

Lemma tltb_trans a b c : tltb a b = true → tltb b c = true → tltb a c = true.
Proof.
  destruct a as [x| | |], b as [y| | |], c as [z| | |]; cbn [tltb]; try done.
  rewrite !Qc_ltb_lt. apply Qclt_trans.
Qed.

(** Among entries that are numbers the order is total. *)
Lemma tltb_below a b c :
  tltb a b = true → tltb c b = false → c ≠ NaN → tltb a c = true.
Proof.
  destruct a as [x| | |], b as [y| | |], c as [z| | |]; cbn [tltb]; try done.
  rewrite !Qc_ltb_lt, Qc_ltb_ge. intros Hxy Hyz _. by eapply Qclt_le_trans.
Qed.

Lemma tltb_PInf_false a : tltb a PInf = false → a = PInf ∨ a = NaN.
Proof. destruct a; cbn [tltb]; try done; auto. Qed.

Lemma after_S k m0 :
  after (S k) m0
  = let '(m, o, _) := train (fst (after k m0)) (snd (after k m0)) in (m, o).
Proof. reflexivity. Qed.

(** The variables of the loop after [k] epochs with checkpointing. *)
Lemma loop_invariant (k : nat) (m0 : Model) (f0 : option Model) :
  let st := Nat.iter k (epoch true)
                     (Trainer.mkLoop m0 (configure_optimizer m0) PInf f0) in
  Trainer.cur st = model_after k m0
  ∧ Trainer.opt st = snd (after k m0)
  ∧ ((Trainer.file st = f0 ∧ Trainer.best_val_loss st = PInf
      ∧ ∀ j, (1 ≤ j ≤ k)%nat → tltb (val_after j m0) PInf = false)
     ∨ ∃ i, Trainer.file st = Some (model_after i m0)
            ∧ Trainer.best_val_loss st = val_after i m0
            ∧ tltb (val_after i m0) PInf = true
            ∧ first_best k m0 i).
Proof.
  induction k as [|k IH]; cbv zeta.
  - cbn [Nat.iter Trainer.cur Trainer.opt Trainer.file Trainer.best_val_loss].
    split; [done|]. split; [done|]. left. split; [done|]. split; [done|]. intros j Hj. lia.
  - cbv zeta in IH. destruct IH as (Hcur & Hopt & Hfile).
    rewrite Nat.iter_succ. set (st := Nat.iter k _ _) in *.
    assert (Hst : epoch true st
                  = if tltb (val_after (S k) m0) (Trainer.best_val_loss st)
                    then Trainer.mkLoop (model_after (S k) m0) (snd (after (S k) m0))
                                        (val_after (S k) m0) (Some (model_after (S k) m0))
                    else Trainer.mkLoop (model_after (S k) m0) (snd (after (S k) m0))
                                        (Trainer.best_val_loss st) (Trainer.file st)).
    { unfold Trainer.epoch. rewrite Hcur, Hopt.
      unfold Trainer.val_after, Trainer.model_after. rewrite after_S.
      destruct (train _ _) as [[m o] l]. reflexivity. }
    rewrite Hst. clear Hst.
    destruct (tltb (val_after (S k) m0) (Trainer.best_val_loss st)) eqn:Hlt;
      cbn [Trainer.cur Trainer.opt Trainer.file Trainer.best_val_loss].
    + split; [done|]. split; [done|]. right. exists (S k).
      split; [done|]. split; [done|].
      destruct Hfile as [(Hf & Hb & Hall)|(i & Hf & Hb & Hfin & Hi & Hle & Hfirst)].
      * rewrite Hb in Hlt. split; [done|]. split; [lia|]. split.
        -- intros j Hj. destruct (decide (j = S k)) as [->|Hne]; [apply tltb_irrefl|].
           destruct (tltb_PInf_false _ (Hall j ltac:(lia))) as [-> | ->]; [|done].
           by destruct (val_after (S k) m0).
        -- intros j Hj.
           destruct (tltb_PInf_false _ (Hall j ltac:(lia))) as [-> | ->]; [left|by right].
           exact Hlt.
      * rewrite Hb in Hlt. split; [by eapply tltb_trans|]. split; [lia|]. split.
        -- intros j Hj. destruct (decide (j = S k)) as [->|Hne]; [apply tltb_irrefl|].
           destruct (tltb (val_after j m0) (val_after (S k) m0)) eqn:Hj'; [|done].
           rewrite <- (Hle j ltac:(lia)). symmetry. by eapply tltb_trans.
        -- intros j Hj.
           destruct (decide (val_after j m0 = NaN)) as [Hn|Hn]; [by right|left].
           eapply tltb_below; [exact Hlt| |exact Hn]. apply Hle. lia.
    + split; [done|]. split; [done|].
      destruct Hfile as [(Hf & Hb & Hall)|(i & Hf & Hb & Hfin & Hi & Hle & Hfirst)].
      * left. split; [done|]. split; [done|]. intros j Hj.
        destruct (decide (j = S k)) as [->|Hne]; [by rewrite Hb in Hlt|].
        apply Hall. lia.
      * right. exists i. split; [done|]. split; [done|]. split; [done|].
        split; [lia|]. split; [|done]. intros j Hj.
        destruct (decide (j = S k)) as [->|Hne]; [by rewrite Hb in Hlt|].
        apply Hle. lia.
Qed.

(** X28. [fit] with checkpointing on a trainer that has no checkpoint yet
    returns the model of the last epoch and keeps it as the trainer's model.
    No checkpoint is written exactly when no epoch has a validation loss below
    infinity (no epoch at all, or only losses that are infinite or not a
    number); otherwise the file holds the model of the first epoch whose
    validation loss is the least: no epoch has a smaller loss, and every
    earlier epoch has a larger one or one that is not a number. *)
Theorem fit_saves_first_best_epoch (n : nat) (m0 : Model) :
  let '(m, self') := fit (Trainer.init n true) m0 in
  m = model_after n m0
  ∧ Trainer.model self' = Some m
  ∧ (Trainer.checkpoint_file self' = None
     ↔ ∀ j, (1 ≤ j ≤ n)%nat → tltb (val_after j m0) PInf = false)
  ∧ ∀ cp, Trainer.checkpoint_file self' = Some cp →
          ∃ i, cp = model_after i m0 ∧ first_best n m0 i.
Proof.
  unfold Trainer.fit, Trainer.init.
  cbn [Trainer.max_epochs Trainer.checkpoint Trainer.checkpoint_file Trainer.model].
  destruct (loop_invariant n m0 None) as (Hcur & _ & Hfile). cbv zeta in Hcur, Hfile.
  split; [exact Hcur|]. split; [reflexivity|].
  destruct Hfile as [(Hf & _ & Hall)|(i & Hf & _ & Hfin & Hbest)].
  - rewrite Hf. split; [done|]. intros cp. discriminate.
  - rewrite Hf. split.
    + split; [discriminate|]. intros Hall. destruct Hbest as (Hi & _).
      rewrite (Hall i Hi) in Hfin. discriminate.
    + intros cp [= <-]. by exists i.
Qed.

(** X29. After [fit] on a new trainer with checkpointing, [test] evaluates
    the checkpoint, not the model of the last epoch, and the checkpoint
    becomes the trainer's model; [test] fails exactly when no epoch had a
    validation loss below infinity, as with [max_epochs = 0]: there is no
    file to load. *)
Theorem test_evaluates_checkpoint (n : nat) (m0 : Model) :
  let self' := snd (fit (Trainer.init n true) m0) in
  (test self' = None ↔ ∀ j, (1 ≤ j ≤ n)%nat → tltb (val_after j m0) PInf = false)
  ∧ ∀ r self'', test self' = Some (r, self'') →
      ∃ i, first_best n m0 i
           ∧ r = test_step (model_after i m0)
           ∧ Trainer.model self'' = Some (model_after i m0)
           ∧ Trainer.checkpoint_file self'' = Some (model_after i m0).
Proof.
  unfold Trainer.fit, Trainer.init, Trainer.test.
  cbn [Trainer.max_epochs Trainer.checkpoint Trainer.checkpoint_file Trainer.model snd
       mbind option_bind].
  destruct (loop_invariant n m0 None) as (_ & _ & Hfile). cbv zeta in Hfile.
  destruct Hfile as [(Hf & _ & Hall)|(i & Hf & _ & Hfin & Hbest)]; rewrite Hf;
    cbn [mbind option_bind].
  - split; [done|]. intros r self''. discriminate.
  - split.
    + split; [discriminate|]. intros Hall. destruct Hbest as (Hi & _).
      rewrite (Hall i Hi) in Hfin. discriminate.
    + intros r self'' [= <- <-]. exists i. by cbn.
Qed.

Lemma loop_without_checkpoint (k : nat) (m0 : Model) (f0 : option Model) :
  let st := Nat.iter k (epoch false)
                     (Trainer.mkLoop m0 (configure_optimizer m0) PInf f0) in
  Trainer.cur st = model_after k m0 ∧ Trainer.opt st = snd (after k m0)
  ∧ Trainer.file st = f0.
Proof.
  induction k as [|k IH]; cbv zeta; [done|].
  cbv zeta in IH. destruct IH as (Hcur & Hopt & Hfile).
  rewrite Nat.iter_succ. set (st := Nat.iter k _ _) in *.
  unfold Trainer.epoch. rewrite Hcur, Hopt, Hfile.
  unfold Trainer.model_after. rewrite after_S.
  destruct (train _ _) as [[m o] l]. done.
Qed.

(** X30. Without checkpointing [fit] writes no file, and [test] evaluates
    the model of the last epoch, whatever the validation losses were, and
    leaves the trainer as it is. *)
Theorem test_without_checkpoint_evaluates_last (n : nat) (m0 : Model) :
  let self' := snd (fit (Trainer.init n false) m0) in
  Trainer.checkpoint_file self' = None
  ∧ test self' = Some (test_step (model_after n m0), self').
Proof.
  unfold Trainer.fit, Trainer.init, Trainer.test.
  cbn [Trainer.max_epochs Trainer.checkpoint Trainer.checkpoint_file Trainer.model snd
       mbind option_bind].
  destruct (loop_without_checkpoint n m0 None) as (Hcur & _ & Hfile).
  cbv zeta in Hcur, Hfile. rewrite Hfile, Hcur. done.
Qed.

End TrainerProperties.

Section TrainerExamples.

Lemma fit_saves_first_best_epoch_witness :
  ∃ i, 2%nat = Trainer.model_after (fun _ => tt) Demo.count_train i 0%nat
       ∧ Trainer.first_best (fun _ => tt) Demo.count_train Demo.count_validation 6 0%nat i.
Proof.
  pose proof (fit_saves_first_best_epoch (fun _ => tt) Demo.count_train
                Demo.count_validation 6 0%nat) as H.
  destruct (Trainer.fit _ _ _ _ _) as [m self'] eqn:E.
  destruct H as (_ & _ & _ & Hcp). apply Hcp.
  vm_compute in E. by injection E as <- <-.
Defined.

Lemma test_evaluates_checkpoint_witness :
  ∃ i, Trainer.first_best (fun _ => tt) Demo.count_train Demo.count_validation 6 0%nat i
       ∧ 2%nat = Trainer.model_after (fun _ => tt) Demo.count_train i 0%nat.
Proof.
  pose proof (test_evaluates_checkpoint (fun _ => tt) Demo.count_train
                Demo.count_validation (fun m : nat => m) 6 0%nat) as [_ H].
  destruct (H 2%nat (Trainer.mk 6 true (Some 2%nat) (Some 2%nat))) as (i & Hi & Hr & _).
  - vm_compute. reflexivity.
  - by exists i.
Defined.

Lemma test_without_checkpoint_evaluates_last_witness :
  Trainer.test (fun m : nat => m)
    (snd (Trainer.fit (fun _ => tt) Demo.count_train Demo.count_validation
                      (Trainer.init 6 false) 0%nat))
  = Some (6%nat, Trainer.mk 6 false (Some 6%nat) None).
Proof.
  destruct (test_without_checkpoint_evaluates_last (fun _ => tt) Demo.count_train
              Demo.count_validation (fun m : nat => m) 6 0%nat) as [_ H].
  rewrite H. vm_compute. reflexivity.
Defined.

End TrainerExamples.
